(** * A shallow embedding of the MIPS simulator backend (class [MIPSSimulator])

    The development follows the JavaScript source top to bottom: the number
    and bit operations of the language, the string helpers the parser uses,
    the assembler ([parseLine], [encodeInstruction], [loadProgram]), the
    memory helpers, the interpreter ([executeInstruction], [step], [run]) and
    [reset].  Theorems about the program come last.

    Conventions of the model.
    - A JavaScript number is an integer of [Z] or [NaN]; the program only ever
      produces integers (fractions appear in [Math.floor (a / b)] alone, which
      is modelled as a whole).  Literals beyond 2^53, where a double stops
      being exact, are outside the model.
    - Source text is ASCII; the white space of [trim] and of the regular
      expression class [\s] is tab, line feed, vertical tab, form feed,
      carriage return and space.
    - Code that throws is modelled in a state-and-exception monad: the state
      reached at the point of the [throw] is kept, as it is in the object. *)

From Stdlib Require Import ZArith String Ascii List Bool Lia.
From stdpp Require Import base option list gmap strings pretty.
From stdpp Require Import sorting.

Local Open Scope string_scope.
Local Open Scope Z_scope.

(** ** JavaScript numbers and 32-bit operators *)

Module JS.

Inductive number := NaN | Num (z : Z).

Definition two32 : Z := 4294967296.
Definition two31 : Z := 2147483648.

(** [ToUint32] and [ToInt32] of the language specification. *)
Definition toUint32 (n : number) : Z :=
  match n with NaN => 0 | Num z => z mod two32 end.

Definition toInt32 (n : number) : Z :=
  match n with
  | NaN => 0
  | Num z => let u := z mod two32 in if u <? two31 then u else u - two32
  end.

Definition shiftCount (n : number) : Z := Z.land (toUint32 n) 31.

(** [a << b], [a >> b], [a >>> b], [a & b], [a | b], [a ^ b], [~a]. *)
Definition shl (a b : number) : Z :=
  toInt32 (Num (Z.shiftl (toInt32 a) (shiftCount b))).
Definition sar (a b : number) : Z := Z.shiftr (toInt32 a) (shiftCount b).
Definition shr (a b : number) : Z := Z.shiftr (toUint32 a) (shiftCount b).
Definition and (a b : number) : Z := Z.land (toInt32 a) (toInt32 b).
Definition or (a b : number) : Z := Z.lor (toInt32 a) (toInt32 b).
Definition xor (a b : number) : Z := Z.lxor (toInt32 a) (toInt32 b).
Definition not (a : number) : Z := Z.lnot (toInt32 a).

(** [a - b] and [a * b] on numbers; [NaN] is absorbing. *)
Definition sub (a b : number) : number :=
  match a, b with Num x, Num y => Num (x - y) | _, _ => NaN end.
Definition mul (a b : number) : number :=
  match a, b with Num x, Num y => Num (x * y) | _, _ => NaN end.
Definition add (a b : number) : number :=
  match a, b with Num x, Num y => Num (x + y) | _, _ => NaN end.

(** [a < b]: false as soon as one side is [NaN]. *)
Definition ltb (a b : number) : bool :=
  match a, b with Num x, Num y => x <? y | _, _ => false end.

(** [String(n)] for the integers of the model. *)
Definition toString (n : number) : string :=
  match n with NaN => "NaN" | Num z => pretty z end.

End JS.

Coercion JS.Num : Z >-> JS.number.

(** ** Strings *)

Module Str.

Definition code (c : ascii) : Z := Z.of_N (N_of_ascii c).

Definition isSpace (c : ascii) : bool :=
  let n := code c in ((9 <=? n) && (n <=? 13)) || (n =? 32).

Definition isDigit (c : ascii) : bool :=
  let n := code c in (48 <=? n) && (n <=? 57).

Definition isUpper (c : ascii) : bool :=
  let n := code c in (65 <=? n) && (n <=? 90).

Definition isLower (c : ascii) : bool :=
  let n := code c in (97 <=? n) && (n <=? 122).

(** The classes [a-zA-Z_] and [a-zA-Z0-9_]. *)
Definition isIdentStart (c : ascii) : bool :=
  isUpper c || isLower c || (code c =? 95).
Definition isIdentChar (c : ascii) : bool := isIdentStart c || isDigit c.

(** Line terminators, which the regular expression [.] does not match. *)
Definition isLineTerminator (c : ascii) : bool :=
  (code c =? 10) || (code c =? 13).

Definition lowerChar (c : ascii) : ascii :=
  if isUpper c then ascii_of_N (N_of_ascii c + 32) else c.

Fixpoint toLowerCase (s : string) : string :=
  match s with
  | EmptyString => EmptyString
  | String c r => String (lowerChar c) (toLowerCase r)
  end.

Fixpoint trimStart (s : string) : string :=
  match s with
  | String c r => if isSpace c then trimStart r else s
  | EmptyString => EmptyString
  end.

Fixpoint trimEnd (s : string) : string :=
  match s with
  | EmptyString => EmptyString
  | String c r =>
      match trimEnd r with
      | EmptyString => if isSpace c then EmptyString else String c EmptyString
      | r' => String c r'
      end
  end.

Definition trim (s : string) : string := trimEnd (trimStart s).

Definition startsWith (s p : string) : bool := String.prefix p s.

Fixpoint forallb (p : ascii -> bool) (s : string) : bool :=
  match s with
  | EmptyString => true
  | String c r => p c && forallb p r
  end.

(** [s.split(sep)] for a one-character separator: never an empty list. *)
Fixpoint split (sep : ascii) (s : string) : list string :=
  match s with
  | EmptyString => [EmptyString]
  | String c r =>
      if Ascii.eqb c sep then EmptyString :: split sep r
      else match split sep r with
           | x :: xs => String c x :: xs
           | [] => [String c EmptyString]
           end
  end.

(** [s.replace(/,$/, '')]: one comma is dropped when it ends the string. *)
Fixpoint dropFinalComma (s : string) : string :=
  match s with
  | EmptyString => EmptyString
  | String c EmptyString => if Ascii.eqb c "," then EmptyString else s
  | String c r => String c (dropFinalComma r)
  end.

(** [s.match(/\S+/g) || []]: the maximal runs of non-space characters. *)
Fixpoint tokensFrom (cur : string) (s : string) : list string :=
  match s with
  | EmptyString => match cur with EmptyString => [] | _ => [cur] end
  | String c r =>
      if isSpace c
      then match cur with
           | EmptyString => tokensFrom EmptyString r
           | _ => cur :: tokensFrom EmptyString r
           end
      else tokensFrom (cur ++ String c EmptyString) r
  end.
Definition tokens (s : string) : list string := tokensFrom EmptyString s.

(** The longest prefix of characters of a class, and the rest. *)
Fixpoint span (p : ascii -> bool) (s : string) : string * string :=
  match s with
  | String c r =>
      if p c then let '(a, b) := span p r in (String c a, b)
      else (EmptyString, s)
  | EmptyString => (EmptyString, EmptyString)
  end.

(** [xs.join(sep)]. *)
Fixpoint join (sep : string) (xs : list string) : string :=
  match xs with
  | [] => EmptyString
  | [x] => x
  | x :: r => x ++ sep ++ join sep r
  end.

(** The value of a digit in a radix up to 16. *)
Definition digitValue (radix : Z) (c : ascii) : option Z :=
  let n := code c in
  let v := if isDigit c then n - 48
           else if (97 <=? n) && (n <=? 102) then n - 87
           else if (65 <=? n) && (n <=? 70) then n - 55
           else 16 in
  if v <? radix then Some v else None.

Fixpoint digitsFrom (radix : Z) (acc : option Z) (s : string) : option Z :=
  match s with
  | EmptyString => acc
  | String c r =>
      match digitValue radix c with
      | Some v => digitsFrom radix (Some (radix * default 0 acc + v)) r
      | None => acc
      end
  end.

(** [parseInt(s, radix)] for radix 2, 10 and 16: leading white space, a
    sign, for radix 16 an optional [0x], then the longest run of digits;
    [NaN] when that run is empty.  The value is the integer the digits
    denote, which is the number the language returns up to 2^53 in absolute
    value; beyond, the language returns the nearest double, and this
    definition does not follow it there. *)
Definition parseInt (s : string) (radix : Z) : JS.number :=
  let s := trimStart s in
  let '(neg, s) :=
    match s with
    | String "-" r => (true, r)
    | String "+" r => (false, r)
    | _ => (false, s)
    end in
  let s :=
    if radix =? 16 then
      match s with
      | String "0" (String "x" r) => r
      | String "0" (String "X" r) => r
      | _ => s
      end
    else s in
  match digitsFrom radix None s with
  | Some v => JS.Num (if neg then - v else v)
  | None => JS.NaN
  end.

End Str.

(** ** Values, thrown errors *)

(** What an operand slot of the program can hold: a token, a number (a
    resolved branch offset), the [{type: 'offset_reg', offset, reg}] object of
    a memory operand, or [undefined] for a slot past the end of [args]. *)
Inductive value :=
| VUndefined
| VStr (s : string)
| VNum (n : JS.number)
| VOffsetReg (offset : JS.number) (reg : string).

(** [String(v)]. *)
Definition valueToString (v : value) : string :=
  match v with
  | VUndefined => "undefined"
  | VStr s => s
  | VNum n => JS.toString n
  | VOffsetReg _ _ => "[object Object]"
  end.

(** [Error message] is [new Error(message)]; [TypeError] is the error the
    engine raises for a property or method of [undefined] (its text depends on
    the engine); [ErrorEncoding m e] is the rethrow of [encodeInstruction],
    [new Error(`Error encoding ${m}: ${e.message}`)]. *)
Inductive error :=
| Error (message : string)
| TypeError
| ErrorEncoding (mnemonic : string) (cause : error).

Inductive result (A : Type) :=
| Ok (a : A)
| Throw (e : error).
Arguments Ok {A} a.
Arguments Throw {A} e.

Definition bindResult {A B : Type} (m : result A) (f : A -> result B) : result B :=
  match m with Ok a => f a | Throw e => Throw e end.

Notation "'let*' x := m 'in' k" := (bindResult m (fun x => k))
  (at level 10, x name, m at level 100, k at level 200).

(** [args[k]]. *)
Definition argAt (args : list value) (k : nat) : value := nth k args VUndefined.

(** ** Tables of the constructor *)

Definition regNames : list (string * Z) :=
  [("$zero", 0); ("$at", 1); ("$v0", 2); ("$v1", 3);
   ("$a0", 4); ("$a1", 5); ("$a2", 6); ("$a3", 7);
   ("$t0", 8); ("$t1", 9); ("$t2", 10); ("$t3", 11);
   ("$t4", 12); ("$t5", 13); ("$t6", 14); ("$t7", 15);
   ("$s0", 16); ("$s1", 17); ("$s2", 18); ("$s3", 19);
   ("$s4", 20); ("$s5", 21); ("$s6", 22); ("$s7", 23);
   ("$t8", 24); ("$t9", 25); ("$k0", 26); ("$k1", 27);
   ("$gp", 28); ("$sp", 29); ("$fp", 30); ("$ra", 31)].

Definition opcodes : list (string * Z) :=
  [("R", 0x00);
   ("j", 0x02); ("jal", 0x03);
   ("beq", 0x04); ("bne", 0x05); ("blez", 0x06); ("bgtz", 0x07);
   ("addi", 0x08); ("addiu", 0x09); ("slti", 0x0a); ("sltiu", 0x0b);
   ("andi", 0x0c); ("ori", 0x0d); ("xori", 0x0e); ("lui", 0x0f);
   ("lb", 0x20); ("lh", 0x21); ("lwl", 0x22); ("lw", 0x23);
   ("lbu", 0x24); ("lhu", 0x25); ("lwr", 0x26);
   ("sb", 0x28); ("sh", 0x29); ("swl", 0x2a); ("sw", 0x2b); ("swr", 0x2e)].

Definition functCodes : list (string * Z) :=
  [("sll", 0x00); ("srl", 0x02); ("sra", 0x03); ("sllv", 0x04);
   ("srlv", 0x06); ("srav", 0x07); ("jr", 0x08); ("jalr", 0x09);
   ("syscall", 0x0c); ("mfhi", 0x10); ("mthi", 0x11); ("mflo", 0x12);
   ("mtlo", 0x13); ("mult", 0x18); ("multu", 0x19); ("div", 0x1a);
   ("divu", 0x1b); ("add", 0x20); ("addu", 0x21); ("sub", 0x22);
   ("subu", 0x23); ("and", 0x24); ("or", 0x25); ("xor", 0x26);
   ("nor", 0x27); ("slt", 0x2a); ("sltu", 0x2b)].

(** The own entry of [key] in one of the three tables. *)
Fixpoint tableGet {A : Type} (table : list (string * A)) (key : string) : option A :=
  match table with
  | [] => None
  | (k, v) :: rest => if String.eqb k key then Some v else tableGet rest key
  end.

(** The tables are plain objects: a read [table[key]] that finds no own
    entry goes to [Object.prototype], so for the names below it is a function
    or an object and not [undefined].  No such name starts with a dollar
    sign, so the register table is read by [tableGet]; in [encodeRType] the
    function code [functCodes[m] || 0] of such a name is the inherited
    property, which the bit operator takes as 0, the value of [undefined]. *)
Definition objectPrototypeKeys : list string :=
  ["constructor"; "hasOwnProperty"; "isPrototypeOf"; "propertyIsEnumerable";
   "toLocaleString"; "toString"; "valueOf"; "__defineGetter__";
   "__defineSetter__"; "__lookupGetter__"; "__lookupSetter__"; "__proto__"].

Inductive property :=
| Undefined
| Own (index : Z)
| Inherited.

(** The number a property is in arithmetic: a function or an object is [NaN]. *)
Definition propertyNumber (p : property) : JS.number :=
  match p with Own i => JS.Num i | _ => JS.NaN end.

(** [table[key]]. *)
Definition tableProperty (table : list (string * Z)) (key : string) : property :=
  match tableGet table key with
  | Some v => Own v
  | None =>
      if existsb (String.eqb key) objectPrototypeKeys then Inherited
      else Undefined
  end.

(** ** Register and immediate resolution *)

Definition parseRegister (reg : value) : result Z :=
  let reg := valueToString reg in
  let reg := Str.dropFinalComma (Str.trim reg) in
  let invalid := Throw (Error ("Invalid register: " +:+ reg)) in
  match reg with
  | String "$" numStr =>
      let named :=
        match tableGet regNames (Str.toLowerCase reg) with
        | Some n => Ok n
        | None => invalid
        end in
      match Str.parseInt numStr 10 with
      | JS.Num num =>
          if (0 <=? num) && (num <? 32)
             && Str.forallb Str.isDigit numStr
             && negb (String.eqb numStr "")
          then Ok num else named
      | JS.NaN => named
      end
  | _ => invalid
  end.

Definition parseImmediate (imm : value) : result JS.number :=
  match imm with
  | VNum n => Ok n
  | VStr imm =>
      let imm := Str.trim imm in
      if Str.startsWith imm "0x" || Str.startsWith imm "0X"
      then Ok (Str.parseInt imm 16)
      else if Str.startsWith imm "0b" || Str.startsWith imm "0B"
      then Ok (Str.parseInt (String.substring 2 (String.length imm - 2) imm) 2)
      else Ok (Str.parseInt imm 10)
  | VUndefined | VOffsetReg _ _ => Throw TypeError
  end.

(** ** The line parser *)

(** The three results of [parseLine] other than [null]. *)
Inductive parsed :=
| ParsedLabel (label : string)
| ParsedInstruction (mnemonic : string) (args : list value) (label : option string).

(** The label pattern of [parseLine]: an identifier (a letter or underscore,
    then letters, digits and underscores), a colon, white space, and the rest
    of the line, which must hold no line terminator.  The result is the pair
    of the two groups. *)
Definition labelMatch (line : string) : option (string * string) :=
  match line with
  | String c _ =>
      if Str.isIdentStart c then
        match Str.span Str.isIdentChar line with
        | (ident, String ":" rest) =>
            let body := Str.trimStart rest in
            if Str.forallb (fun c => negb (Str.isLineTerminator c)) body
            then Some (ident, body) else None
        | _ => None
        end
      else None
  | EmptyString => None
  end.

(** The memory-operand pattern of [parseArgs]: an optional minus sign and
    decimal digits, then a non-empty text without closing parenthesis between
    parentheses, up to the end.  The result is the pair of the two groups. *)
Definition offsetRegMatch (arg : string) : option (string * string) :=
  let '(sign, rest) :=
    match arg with
    | String "-" r => ("-", r)
    | _ => ("", arg)
    end in
  match Str.span Str.isDigit rest with
  | (String d ds, String "(" rest) =>
      match Str.span (fun c => negb (Ascii.eqb c ")")) rest with
      | (String i inner, ")") => Some (sign +:+ String d ds, String i inner)
      | _ => None
      end
  | _ => None
  end.

Definition parseArg (arg : string) : value :=
  let arg := Str.trim (Str.dropFinalComma arg) in
  match offsetRegMatch arg with
  | Some (off, reg) => VOffsetReg (Str.parseInt off 10) (Str.trim reg)
  | None => VStr arg
  end.

Definition parseLine (line : string) : option parsed :=
  let line := Str.trim (hd "" (Str.split "#" line)) in
  if String.eqb line "" then None else
  let '(label, line, labelOnly) :=
    match labelMatch line with
    | Some (l, body) =>
        let body := Str.trim body in (Some l, body, String.eqb body "")
    | None => (None, line, false)
    end in
  if labelOnly then ParsedLabel <$> label else
  match Str.tokens line with
  | [] => ParsedLabel <$> label
  | t :: args =>
      Some (ParsedInstruction (Str.toLowerCase t) (map parseArg args) label)
  end.

(** ** The encoder *)

(** The [case] labels of the two [switch (mnemonic)] statements, in
    [encodeInstruction] and in [executeInstruction]; both have the same
    labels, and any other string takes their [default] branch. *)
Inductive opname :=
| ADD | ADDU | SUB | SUBU | AND | OR | XOR | NOR | SLT | SLTU
| SLL | SRL | SRA | SLLV | SRLV | SRAV
| JR | MFHI | MFLO | MULT | MULTU | DIV | DIVU | SYSCALL | NOP
| ADDI | ADDIU | ANDI | ORI | XORI | SLTI | SLTIU | LUI
| LW | LH | LB | SW | SH | SB
| BEQ | BNE | BGTZ | BLEZ | J | JAL.

Definition caseLabels : list (string * opname) :=
  [("add", ADD); ("addu", ADDU); ("sub", SUB); ("subu", SUBU);
   ("and", AND); ("or", OR); ("xor", XOR); ("nor", NOR);
   ("slt", SLT); ("sltu", SLTU);
   ("sll", SLL); ("srl", SRL); ("sra", SRA);
   ("sllv", SLLV); ("srlv", SRLV); ("srav", SRAV);
   ("jr", JR); ("mfhi", MFHI); ("mflo", MFLO);
   ("mult", MULT); ("multu", MULTU); ("div", DIV); ("divu", DIVU);
   ("syscall", SYSCALL); ("nop", NOP);
   ("addi", ADDI); ("addiu", ADDIU); ("andi", ANDI); ("ori", ORI);
   ("xori", XORI); ("slti", SLTI); ("sltiu", SLTIU); ("lui", LUI);
   ("lw", LW); ("lh", LH); ("lb", LB); ("sw", SW); ("sh", SH); ("sb", SB);
   ("beq", BEQ); ("bne", BNE); ("bgtz", BGTZ); ("blez", BLEZ);
   ("j", J); ("jal", JAL)].

Definition switchOn (mnemonic : string) : option opname :=
  tableGet caseLabels mnemonic.

(** [encodeRType(mnemonic, rd, rs, rt, shamt = 0)]. *)
Definition encodeRType (mnemonic : string) (rd rs rt : value)
    (shamt : JS.number) : result Z :=
  let opcode := default 0 (tableGet opcodes "R") in
  let funct := default 0 (tableGet functCodes mnemonic) in
  let* rdNum := parseRegister rd in
  let* rsNum := parseRegister rs in
  let* rtNum := parseRegister rt in
  let instruction := 0 in
  let instruction := JS.or instruction (JS.shl opcode 26) in
  let instruction := JS.or instruction (JS.shl rsNum 21) in
  let instruction := JS.or instruction (JS.shl rtNum 16) in
  let instruction := JS.or instruction (JS.shl rdNum 11) in
  let instruction := JS.or instruction (JS.shl shamt 6) in
  let instruction := JS.or instruction funct in
  Ok (JS.shr instruction 0).

(** [encodeIType(mnemonic, rt, rs, immediate)]. *)
Definition encodeIType (mnemonic : string) (rt rs immediate : value) : result Z :=
  match tableProperty opcodes mnemonic with
  | Undefined => Throw (Error ("Unknown I-type instruction: " +:+ mnemonic))
  | p =>
      let opcode := propertyNumber p in
      let* rtNum := parseRegister rt in
      let* rsNum := parseRegister rs in
      let* imm := parseImmediate immediate in
      let imm16 : JS.number :=
        if JS.ltb imm 0 then JS.Num (JS.and imm 0xffff) else imm in
      let instruction := 0 in
      let instruction := JS.or instruction (JS.shl opcode 26) in
      let instruction := JS.or instruction (JS.shl rsNum 21) in
      let instruction := JS.or instruction (JS.shl rtNum 16) in
      let instruction := JS.or instruction (JS.and imm16 0xffff) in
      Ok (JS.shr instruction 0)
  end.

(** [encodeJType(mnemonic, address)]. *)
Definition encodeJType (mnemonic : string) (address : JS.number) : result Z :=
  match tableProperty opcodes mnemonic with
  | Undefined => Throw (Error ("Unknown J-type instruction: " +:+ mnemonic))
  | p =>
      let opcode := propertyNumber p in
      let addr := address in
      let addr26 := JS.and (JS.shr addr 2) 0x3ffffff in
      let instruction := 0 in
      let instruction := JS.or instruction (JS.shl opcode 26) in
      let instruction := JS.or instruction addr26 in
      Ok (JS.shr instruction 0)
  end.

(** What [encodeInstruction] returns for an instruction: the word, or the
    [{type: 'branch', ...}] and [{type: 'jump', ...}] objects whose label is
    resolved by [loadProgram] (they repeat the mnemonic and the operands). *)
Inductive encoded :=
| EncWord (binary : Z)
| EncBranch
| EncJump.

Definition encodeInstruction (mnemonic : string) (args : list value) : result encoded :=
  let a := argAt args in
  let arity (n : nat) : result unit :=
    if Nat.eqb (length args) n then Ok tt
    else Throw (Error ("Invalid arguments for " +:+ mnemonic)) in
  let word (r : result Z) : result encoded := let* w := r in Ok (EncWord w) in
  let body : result encoded :=
    match switchOn mnemonic with
    | Some (ADD | ADDU | SUB | SUBU | AND | OR | XOR | NOR | SLT | SLTU) =>
        let* _ := arity 3%nat in
        word (encodeRType mnemonic (a 0%nat) (a 2%nat) (a 1%nat) 0)
    | Some (SLL | SRL | SRA) =>
        let* _ := arity 3%nat in
        let* shamt := parseImmediate (a 2%nat) in
        word (encodeRType mnemonic (a 0%nat) (a 1%nat) (VStr "$zero") shamt)
    | Some (SLLV | SRLV | SRAV) =>
        let* _ := arity 3%nat in
        word (encodeRType mnemonic (a 0%nat) (a 2%nat) (a 1%nat) 0)
    | Some JR =>
        let* _ := arity 1%nat in
        word (encodeRType "jr" (VStr "$zero") (a 0%nat) (VStr "$zero") 0)
    | Some (MFHI | MFLO) =>
        let* _ := arity 1%nat in
        word (encodeRType mnemonic (a 0%nat) (VStr "$zero") (VStr "$zero") 0)
    | Some (MULT | MULTU | DIV | DIVU) =>
        let* _ := arity 2%nat in
        word (encodeRType mnemonic (VStr "$zero") (a 0%nat) (a 1%nat) 0)
    | Some SYSCALL =>
        word (encodeRType "syscall" (VStr "$zero") (VStr "$zero") (VStr "$zero") 0)
    | Some NOP => Ok (EncWord 0)
    | Some (ADDI | ADDIU | ANDI | ORI | XORI | SLTI | SLTIU) =>
        let* _ := arity 3%nat in
        word (encodeIType mnemonic (a 0%nat) (a 1%nat) (a 2%nat))
    | Some LUI =>
        let* _ := arity 2%nat in
        word (encodeIType "lui" (a 0%nat) (VStr "$zero") (a 1%nat))
    | Some (LW | LH | LB | SW | SH | SB) =>
        let* _ := arity 2%nat in
        match a 1%nat with
        | VOffsetReg offset reg =>
            word (encodeIType mnemonic (a 0%nat) (VStr reg) (VNum offset))
        | _ => Throw (Error "Invalid memory access format")
        end
    | Some (BEQ | BNE) => let* _ := arity 3%nat in Ok EncBranch
    | Some (BGTZ | BLEZ) => let* _ := arity 2%nat in Ok EncBranch
    | Some (J | JAL) => let* _ := arity 1%nat in Ok EncJump
    | None => Throw (Error ("Unknown instruction: " +:+ mnemonic))
    end in
  match body with
  | Ok e => Ok e
  | Throw e => Throw (ErrorEncoding mnemonic e)
  end.

(** ** The simulator object *)

(** An element of [this.instructions]: the parsed line ([mnemonic], [args],
    [label]) with the fields [loadProgram] adds. *)
Record instruction := {
  mnemonic : string;
  args : list value;
  label : option string;
  binary : Z;
  address : Z;
  originalLine : string
}.

(** The result of [decodeInstruction]. *)
Module Decoded.
Record t := {
  opcode : Z; rs : Z; rt : Z; rd : Z; shamt : Z; funct : Z;
  immediate : Z; address : Z
}.
End Decoded.

(** The result of [generateControlSignals]. *)
Module Control.
Record t := {
  RegWrite : bool; MemRead : bool; MemWrite : bool; MemToReg : bool;
  Branch : bool; Jump : bool; ALUSrc : bool; RegDst : bool; ALUOp : Z
}.
End Control.

(** An entry of [this.debugLog].  The source stores [PC], [binary] and [hex]
    as text rendered by [formatHex] and [formatBinary]; the entry keeps the
    numbers they render. *)
Module LogEntry.
Record t := {
  cycle : Z; PC : Z; instruction : string; binary : Z;
  decoded : Decoded.t; control : Control.t;
  registers : list Z; HI : option Z; LO : Z
}.
End LogEntry.

(** The fields of [this].  [HI] and [labels] are not assigned by the
    constructor: [None] is the [undefined] a read of them yields until
    [reset], an instruction or [loadProgram] assigns them.  [registers] is the
    [Uint32Array] and [memory] the [Uint8Array]; [usedMemoryAddresses] lists
    the elements of the [Set] in insertion order. *)
Record MIPSSimulator := {
  registers : list Z;
  memory : list Z;
  PC : Z;
  HI : option Z;
  LO : Z;
  instructions : list instruction;
  loaded : bool;
  halted : bool;
  cycle : Z;
  instructionCount : Z;
  debugMode : bool;
  debugLog : list LogEntry.t;
  usedMemoryAddresses : list Z;
  labels : option (gmap string Z)
}.

Definition MIPSSimulator_constructor : MIPSSimulator := {|
  registers := replicate 32 0;
  memory := replicate (Z.to_nat 0x10000) 0;
  PC := 0x00400000;
  HI := None;
  LO := 0;
  instructions := [];
  loaded := false;
  halted := false;
  cycle := 0;
  instructionCount := 0;
  debugMode := false;
  debugLog := [];
  usedMemoryAddresses := [];
  labels := None
|}.

Section Setters.
Variable s : MIPSSimulator.

Definition setRegisters v := Build_MIPSSimulator v (memory s) (PC s) (HI s)
  (LO s) (instructions s) (loaded s) (halted s) (cycle s) (instructionCount s)
  (debugMode s) (debugLog s) (usedMemoryAddresses s) (labels s).
Definition setMemory v := Build_MIPSSimulator (registers s) v (PC s) (HI s)
  (LO s) (instructions s) (loaded s) (halted s) (cycle s) (instructionCount s)
  (debugMode s) (debugLog s) (usedMemoryAddresses s) (labels s).
Definition setPC v := Build_MIPSSimulator (registers s) (memory s) v (HI s)
  (LO s) (instructions s) (loaded s) (halted s) (cycle s) (instructionCount s)
  (debugMode s) (debugLog s) (usedMemoryAddresses s) (labels s).
Definition setHI v := Build_MIPSSimulator (registers s) (memory s) (PC s) v
  (LO s) (instructions s) (loaded s) (halted s) (cycle s) (instructionCount s)
  (debugMode s) (debugLog s) (usedMemoryAddresses s) (labels s).
Definition setLO v := Build_MIPSSimulator (registers s) (memory s) (PC s)
  (HI s) v (instructions s) (loaded s) (halted s) (cycle s)
  (instructionCount s) (debugMode s) (debugLog s) (usedMemoryAddresses s)
  (labels s).
Definition setInstructions v := Build_MIPSSimulator (registers s) (memory s)
  (PC s) (HI s) (LO s) v (loaded s) (halted s) (cycle s) (instructionCount s)
  (debugMode s) (debugLog s) (usedMemoryAddresses s) (labels s).
Definition setLoaded v := Build_MIPSSimulator (registers s) (memory s) (PC s)
  (HI s) (LO s) (instructions s) v (halted s) (cycle s) (instructionCount s)
  (debugMode s) (debugLog s) (usedMemoryAddresses s) (labels s).
Definition setHalted v := Build_MIPSSimulator (registers s) (memory s) (PC s)
  (HI s) (LO s) (instructions s) (loaded s) v (cycle s) (instructionCount s)
  (debugMode s) (debugLog s) (usedMemoryAddresses s) (labels s).
Definition setCycle v := Build_MIPSSimulator (registers s) (memory s) (PC s)
  (HI s) (LO s) (instructions s) (loaded s) (halted s) v (instructionCount s)
  (debugMode s) (debugLog s) (usedMemoryAddresses s) (labels s).
Definition setInstructionCount v := Build_MIPSSimulator (registers s)
  (memory s) (PC s) (HI s) (LO s) (instructions s) (loaded s) (halted s)
  (cycle s) v (debugMode s) (debugLog s) (usedMemoryAddresses s) (labels s).
Definition setDebugModeField v := Build_MIPSSimulator (registers s)
  (memory s) (PC s) (HI s) (LO s) (instructions s) (loaded s) (halted s)
  (cycle s) (instructionCount s) v (debugLog s) (usedMemoryAddresses s)
  (labels s).
Definition setDebugLog v := Build_MIPSSimulator (registers s) (memory s)
  (PC s) (HI s) (LO s) (instructions s) (loaded s) (halted s) (cycle s)
  (instructionCount s) (debugMode s) v (usedMemoryAddresses s) (labels s).
Definition setUsedMemoryAddresses v := Build_MIPSSimulator (registers s)
  (memory s) (PC s) (HI s) (LO s) (instructions s) (loaded s) (halted s)
  (cycle s) (instructionCount s) (debugMode s) (debugLog s) v (labels s).
Definition setLabels v := Build_MIPSSimulator (registers s) (memory s) (PC s)
  (HI s) (LO s) (instructions s) (loaded s) (halted s) (cycle s)
  (instructionCount s) (debugMode s) (debugLog s) (usedMemoryAddresses s) v.
End Setters.

(** ** Methods: state with exceptions *)

(** A method body maps the object to what it returns or throws, and to the
    object as the body leaves it. *)
Definition M (A : Type) : Type := MIPSSimulator -> result A * MIPSSimulator.

Definition ret {A : Type} (a : A) : M A := fun s => (Ok a, s).
Definition throw {A : Type} (e : error) : M A := fun s => (Throw e, s).
Definition bind {A B : Type} (m : M A) (f : A -> M B) : M B := fun s =>
  match m s with
  | (Ok a, s') => f a s'
  | (Throw e, s') => (Throw e, s')
  end.
Definition lift {A : Type} (r : result A) : M A := fun s => (r, s).
Definition gets {A : Type} (f : MIPSSimulator -> A) : M A := fun s => (Ok (f s), s).
Definition modify (f : MIPSSimulator -> MIPSSimulator) : M unit :=
  fun s => (Ok tt, f s).

Notation "'let!' x := m 'in' k" := (bind m (fun x => k))
  (at level 10, x name, m at level 100, k at level 200).

(** ** The symbol object of [loadProgram]

    [labels] is a plain object ([{}]) used as a map.  A read [labels[key]]
    that finds no own property goes to [Object.prototype], so for the names
    of [objectPrototypeKeys] it is not [undefined]; and the assignment
    [labels['__proto__'] = i]
    reaches the prototype's setter, which ignores a number. *)

Definition labelsGet (labels : gmap string Z) (key : string) : property :=
  match labels !! key with
  | Some i => Own i
  | None =>
      if existsb (String.eqb key) objectPrototypeKeys then Inherited
      else Undefined
  end.

Definition labelsSet (labels : gmap string Z) (key : string) (i : Z) : gmap string Z :=
  if String.eqb key "__proto__" then labels else <[key := i]> labels.

(** ** [loadProgram] *)

(** The first pass over the lines: [program], [labels], [instructionIndex]. *)
Definition firstPassLine
    (acc : list (string * list value * option string) * gmap string Z * Z)
    (line : string) :=
  let '(program, labels, instructionIndex) := acc in
  match parseLine line with
  | None => acc
  | Some (ParsedLabel l) => (program, labelsSet labels l instructionIndex, instructionIndex)
  | Some (ParsedInstruction m a l) =>
      ((program ++ [(m, a, l)])%list,
       match l with
       | Some l => labelsSet labels l instructionIndex
       | None => labels
       end,
       instructionIndex + 1)
  end.

Definition firstPass (lines : list string) :=
  fold_left firstPassLine lines ([], ∅, 0).

(** [`${a.offset}(${a.reg})`] for an object, the token otherwise. *)
Definition formatArg (a : value) : string :=
  match a with
  | VOffsetReg offset reg => JS.toString offset +:+ "(" +:+ reg +:+ ")"
  | _ => valueToString a
  end.

(** The right-hand side of [originalLine] for a branch or a jump. *)
Definition findOriginalLine (lines : list string) (i : nat)
    (m : string) (a : list value) (l : option string) : string :=
  let text :=
    Str.trim ((match l with Some l => l +:+ ": " | None => "" end)
              +:+ m +:+ " " +:+ Str.join ", " (map formatArg a)) in
  match find (fun l => String.eqb (Str.trim l) text) lines with
  | Some l => l
  | None => nth i lines ""
  end.

(** The label resolution of the second pass, for the instruction of index
    [i]: the word stored as [binary]. *)
Definition resolveBranch (labels : gmap string Z) (i : Z)
    (m : string) (a : list value) : result Z :=
  let last := (length a - 1)%nat in
  let label := argAt a last in
  match label with
  | VStr key =>
      match labelsGet labels key with
      | Undefined => Throw (Error ("Undefined label: " +:+ valueToString label))
      | p =>
          let offset := JS.sub (JS.sub (propertyNumber p) i) 1 in
          let a' := <[last := VNum offset]> a in
          if String.eqb m "beq" || String.eqb m "bne"
          then encodeIType m (argAt a' 0) (argAt a' 1) (argAt a' 2)
          else encodeIType m (argAt a' 0) (argAt a' 0) (argAt a' 1)
      end
  | _ => Throw (Error ("Undefined label: " +:+ valueToString label))
  end.

Definition resolveJump (labels : gmap string Z) (m : string) (a : list value) : result Z :=
  let label := argAt a 0 in
  match label with
  | VStr key =>
      match labelsGet labels key with
      | Undefined => Throw (Error ("Undefined label: " +:+ valueToString label))
      | p =>
          let addr := JS.add 0x00400000 (JS.mul (propertyNumber p) 4) in
          encodeJType m addr
      end
  | _ => Throw (Error ("Undefined label: " +:+ valueToString label))
  end.

(** One round of the second loop: encode [program[i]] and push its record. *)
Definition secondPassEntry (lines : list string) (labels : gmap string Z)
    (i : nat) (entry : string * list value * option string) : M unit :=
  let '(m, a, l) := entry in
  let! encoded := lift (encodeInstruction m a) in
  let! word :=
    lift match encoded with
         | EncWord w => Ok w
         | EncBranch => resolveBranch labels (Z.of_nat i) m a
         | EncJump => resolveJump labels m a
         end in
  let original :=
    match encoded with
    | EncWord _ => nth i lines ""
    | _ => findOriginalLine lines i m a l
    end in
  modify (fun s =>
    setInstructions s
      (instructions s ++
       [{| mnemonic := m; args := a; label := l; binary := word;
           address := PC s + Z.of_nat i * 4; originalLine := original |}])%list).

(** The object one round of the second loop pushes for [program[i]] when PC
    is [pc], or the error its encoding throws. *)
Definition recordOf (lines : list string) (labels : gmap string Z)
    (pc : Z) (i : nat) (entry : string * list value * option string)
    : result instruction :=
  let '(m, a, l) := entry in
  let* encoded := encodeInstruction m a in
  let* word :=
    match encoded with
    | EncWord w => Ok w
    | EncBranch => resolveBranch labels (Z.of_nat i) m a
    | EncJump => resolveJump labels m a
    end in
  let original :=
    match encoded with
    | EncWord _ => nth i lines ""
    | _ => findOriginalLine lines i m a l
    end in
  Ok {| mnemonic := m; args := a; label := l; binary := word;
        address := pc + Z.of_nat i * 4; originalLine := original |}.

Fixpoint secondPass (lines : list string) (labels : gmap string Z) (i : nat)
    (program : list (string * list value * option string)) : M unit :=
  match program with
  | [] => ret tt
  | entry :: rest =>
      let! _ := secondPassEntry lines labels i entry in
      secondPass lines labels (S i) rest
  end.

(** [loadProgram(assemblyText)]; the value is the [instructions] count of the
    returned [{success: true, instructions}]. *)
Definition loadProgram (assemblyText : string) : M Z :=
  let lines := Str.split "010" assemblyText in
  let '(program, labels, _) := firstPass lines in
  let! _ := modify (fun s => setInstructions s []) in
  let! _ := secondPass lines labels 0 program in
  let! _ := modify (fun s => setLabels s (Some labels)) in
  let! _ := modify (fun s => setLoaded s true) in
  let! _ := modify (fun s => setHalted s false) in
  let! _ := modify (fun s => setCycle s 0) in
  let! _ := modify (fun s => setInstructionCount s 0) in
  let! _ := modify (fun s => setDebugLog s []) in
  let! _ := modify (fun s => setUsedMemoryAddresses s []) in
  gets (fun s => Z.of_nat (length (instructions s))).

(** ** Memory *)

(** [this.usedMemoryAddresses.add(addr)]. *)
Definition setAdd (addr : Z) (used : list Z) : list Z :=
  if existsb (Z.eqb addr) used then used else (used ++ [addr])%list.

(** [readMemory] and [writeMemory]: an address outside the array reads 0 and
    drops the write; a store into the [Uint8Array] keeps the low 8 bits. *)
Definition readMemory (address : JS.number) : M Z := fun s =>
  let addr := JS.shr address 0 in
  if addr <? Z.of_nat (length (memory s)) then
    (Ok (nth (Z.to_nat addr) (memory s) 0),
     setUsedMemoryAddresses s (setAdd addr (usedMemoryAddresses s)))
  else (Ok 0, s).

Definition writeMemory (address : JS.number) (value : JS.number) : M unit := fun s =>
  let addr := JS.shr address 0 in
  if addr <? Z.of_nat (length (memory s)) then
    let s := setMemory s (<[Z.to_nat addr := (JS.and value 0xff) mod 256]> (memory s)) in
    (Ok tt, setUsedMemoryAddresses s (setAdd addr (usedMemoryAddresses s)))
  else (Ok tt, s).

Definition readWord (address : JS.number) : M Z :=
  let addr := JS.and address (JS.not 0x3) in
  let! b0 := readMemory addr in
  let! b1 := readMemory (addr + 1) in
  let! b2 := readMemory (addr + 2) in
  let! b3 := readMemory (addr + 3) in
  ret (JS.or (JS.or (JS.or (JS.shl b0 24) (JS.shl b1 16)) (JS.shl b2 8)) b3).

Definition writeWord (address : JS.number) (value : JS.number) : M unit :=
  let addr := JS.and address (JS.not 0x3) in
  let! _ := writeMemory addr (JS.and (JS.shr value 24) 0xff) in
  let! _ := writeMemory (addr + 1) (JS.and (JS.shr value 16) 0xff) in
  let! _ := writeMemory (addr + 2) (JS.and (JS.shr value 8) 0xff) in
  writeMemory (addr + 3) (JS.and value 0xff).

Definition signExtend16 (value : JS.number) : Z := JS.sar (JS.shl value 16) 16.

(** ** Decoder and control signals *)

Definition decodeInstruction (instruction : Z) : Decoded.t := {|
  Decoded.opcode := JS.and (JS.shr instruction 26) 0x3f;
  Decoded.rs := JS.and (JS.shr instruction 21) 0x1f;
  Decoded.rt := JS.and (JS.shr instruction 16) 0x1f;
  Decoded.rd := JS.and (JS.shr instruction 11) 0x1f;
  Decoded.shamt := JS.and (JS.shr instruction 6) 0x1f;
  Decoded.funct := JS.and instruction 0x3f;
  Decoded.immediate := JS.and instruction 0xffff;
  Decoded.address := JS.and instruction 0x3ffffff
|}.

Definition generateControlSignals (decoded : Decoded.t) : Control.t :=
  let op := Decoded.opcode decoded in
  let signals := {|
    Control.RegWrite := false; Control.MemRead := false;
    Control.MemWrite := false; Control.MemToReg := false;
    Control.Branch := false; Control.Jump := false;
    Control.ALUSrc := false; Control.RegDst := false; Control.ALUOp := 0 |} in
  if op =? 0x00 then
    {| Control.RegWrite := true; Control.MemRead := false;
       Control.MemWrite := false; Control.MemToReg := false;
       Control.Branch := false; Control.Jump := false;
       Control.ALUSrc := false; Control.RegDst := true; Control.ALUOp := 2 |}
  else if op =? 0x23 then
    {| Control.RegWrite := true; Control.MemRead := true;
       Control.MemWrite := false; Control.MemToReg := true;
       Control.Branch := false; Control.Jump := false;
       Control.ALUSrc := true; Control.RegDst := false; Control.ALUOp := 0 |}
  else if op =? 0x2b then
    {| Control.RegWrite := false; Control.MemRead := false;
       Control.MemWrite := true; Control.MemToReg := false;
       Control.Branch := false; Control.Jump := false;
       Control.ALUSrc := true; Control.RegDst := false; Control.ALUOp := 0 |}
  else if (op =? 0x04) || (op =? 0x05) then
    {| Control.RegWrite := false; Control.MemRead := false;
       Control.MemWrite := false; Control.MemToReg := false;
       Control.Branch := true; Control.Jump := false;
       Control.ALUSrc := false; Control.RegDst := false; Control.ALUOp := 1 |}
  else if (op =? 0x02) || (op =? 0x03) then
    {| Control.RegWrite := (op =? 0x03); Control.MemRead := false;
       Control.MemWrite := false; Control.MemToReg := false;
       Control.Branch := false; Control.Jump := true;
       Control.ALUSrc := false; Control.RegDst := false; Control.ALUOp := 0 |}
  else if existsb (Z.eqb op) [0x08; 0x09; 0x0c; 0x0d; 0x0e; 0x0a; 0x0b] then
    {| Control.RegWrite := true; Control.MemRead := false;
       Control.MemWrite := false; Control.MemToReg := false;
       Control.Branch := false; Control.Jump := false;
       Control.ALUSrc := true; Control.RegDst := false;
       Control.ALUOp := if (op =? 0x08) || (op =? 0x09) then 0 else 2 |}
  else signals.

(** ** The execution engine *)

(** [this.registers[this.parseRegister(v)]] read, and [this.registers[i] = n]:
    a store into the [Uint32Array] keeps the number modulo 2^32. *)
Definition regIndex (v : value) : M Z := lift (parseRegister v).

Definition readReg (v : value) : M Z :=
  let! i := regIndex v in
  gets (fun s => nth (Z.to_nat i) (registers s) 0).

Definition writeReg (i : Z) (n : JS.number) : M unit :=
  modify (fun s => setRegisters s (<[Z.to_nat i := JS.toUint32 n]> (registers s))).

(** [v.reg] and [v.offset] of an operand. *)
Definition propReg (v : value) : result value :=
  match v with
  | VUndefined => Throw TypeError
  | VOffsetReg _ reg => Ok (VStr reg)
  | _ => Ok VUndefined
  end.

Definition propOffset (v : value) : JS.number :=
  match v with
  | VOffsetReg offset _ => offset
  | _ => JS.NaN
  end.

(** The first three statements of each memory case: the effective address. *)
Definition effectiveAddress (operand : value) : M Z :=
  let! reg := lift (propReg operand) in
  let! baseReg := readReg reg in
  let offset := propOffset operand in
  ret (JS.shr (JS.add baseReg offset) 0).

(** [HI] as a number: [undefined] is [NaN]. *)
Definition numberOf (v : option Z) : JS.number :=
  match v with Some z => JS.Num z | None => JS.NaN end.

Record executionResult := {
  decoded : Decoded.t;
  control : Control.t;
  branchTaken : bool;
  nextPC : Z
}.

(** The [switch] of [executeInstruction]: the value is the pair of the locals
    [nextPC] and [branchTaken] when the [switch] is left. *)
Definition executeCase (op : option opname) (m : string) (a : nat -> value)
    (dec : Decoded.t) (pc : Z) : M (Z * bool) :=
  let next := ret (pc + 4, false) in
  let binop (f : Z -> Z -> JS.number) : M (Z * bool) :=
    let! d := regIndex (a 0%nat) in
    let! x := readReg (a 2%nat) in
    let! y := readReg (a 1%nat) in
    let! _ := writeReg d (f x y) in next in
  let shift (f : Z -> JS.number -> Z) : M (Z * bool) :=
    let! d := regIndex (a 0%nat) in
    let! x := readReg (a 1%nat) in
    let! n := lift (parseImmediate (a 2%nat)) in
    let! _ := writeReg d (JS.shr (f x n) 0) in next in
  let shiftv (f : Z -> JS.number -> Z) : M (Z * bool) :=
    let! d := regIndex (a 0%nat) in
    let! x := readReg (a 1%nat) in
    let! y := readReg (a 2%nat) in
    let! _ := writeReg d (JS.shr (f x (JS.and y 0x1f)) 0) in next in
  let immop (f : Z -> JS.number -> Z) : M (Z * bool) :=
    let! d := regIndex (a 0%nat) in
    let! x := readReg (a 1%nat) in
    let! n := lift (parseImmediate (a 2%nat)) in
    let! _ := writeReg d (f x (JS.and n 0xffff)) in next in
  let branch (unary : bool) (taken : Z -> Z -> bool) : M (Z * bool) :=
    let! rsVal := readReg (a 0%nat) in
    let! rtVal := if unary then ret 0 else readReg (a 1%nat) in
    let offset := signExtend16 (Decoded.immediate dec) in
    if taken rsVal rtVal then ret (pc + 4 + JS.shl offset 2, true) else next in
  match op with
  | Some ADD => binop (fun x y => JS.shr (x + y) 0)
  | Some SUB => binop (fun x y => JS.shr (x - y) 0)
  | Some ADDU => binop (fun x y => JS.shr (x + y) 0)
  | Some SUBU => binop (fun x y => JS.shr (x - y) 0)
  | Some AND => binop (fun x y => JS.and x y)
  | Some OR => binop (fun x y => JS.or x y)
  | Some XOR => binop (fun x y => JS.xor x y)
  | Some NOR => binop (fun x y => JS.not (JS.or x y))
  | Some SLL => shift (fun x n => JS.shl x n)
  | Some SRL => shift (fun x n => JS.shr x n)
  | Some SRA => shift (fun x n => JS.sar x n)
  | Some SLLV => shiftv (fun x n => JS.shl x n)
  | Some SRLV => shiftv (fun x n => JS.shr x n)
  | Some SRAV => shiftv (fun x n => JS.sar x n)
  | Some SLT => binop (fun x y => if JS.or x 0 <? JS.or y 0 then 1 else 0)
  | Some SLTU => binop (fun x y => if x <? y then 1 else 0)
  | Some MULT =>
      let! x := readReg (a 0%nat) in
      let rsVal := JS.or x 0 in
      let! y := readReg (a 1%nat) in
      let rtVal := JS.or y 0 in
      let result := rsVal * rtVal in
      let! _ := modify (fun s => setHI s (Some (JS.shr (Z.shiftr result 32) 0))) in
      let! _ := modify (fun s => setLO s (JS.shr (Z.land result 0xffffffff) 0)) in
      next
  | Some MULTU =>
      let! rsVal := readReg (a 0%nat) in
      let! rtVal := readReg (a 1%nat) in
      let result := rsVal * rtVal in
      let! _ := modify (fun s => setHI s (Some (JS.shr (Z.shiftr result 32) 0))) in
      let! _ := modify (fun s => setLO s (JS.shr (Z.land result 0xffffffff) 0)) in
      next
  | Some DIV =>
      let! x := readReg (a 0%nat) in
      let rsVal := JS.or x 0 in
      let! y := readReg (a 1%nat) in
      let rtVal := JS.or y 0 in
      if rtVal =? 0 then next else
      let! _ := modify (fun s => setLO s (JS.shr (rsVal / rtVal) 0)) in
      let! _ := modify (fun s => setHI s (Some (JS.shr (Z.rem rsVal rtVal) 0))) in
      next
  | Some DIVU =>
      let! rsVal := readReg (a 0%nat) in
      let! rtVal := readReg (a 1%nat) in
      if rtVal =? 0 then next else
      let! _ := modify (fun s => setLO s (JS.shr (rsVal / rtVal) 0)) in
      let! _ := modify (fun s => setHI s (Some (JS.shr (Z.rem rsVal rtVal) 0))) in
      next
  | Some MFHI =>
      let! d := regIndex (a 0%nat) in
      let! hi := gets HI in
      let! _ := writeReg d (numberOf hi) in next
  | Some MFLO =>
      let! d := regIndex (a 0%nat) in
      let! lo := gets LO in
      let! _ := writeReg d lo in next
  | Some ADDI =>
      let! x := readReg (a 1%nat) in
      let rsVal := JS.or x 0 in
      let! n := lift (parseImmediate (a 2%nat)) in
      let imm := signExtend16 n in
      let! d := regIndex (a 0%nat) in
      let! _ := writeReg d (JS.shr (rsVal + imm) 0) in next
  | Some ADDIU =>
      let! rsVal := readReg (a 1%nat) in
      let! n := lift (parseImmediate (a 2%nat)) in
      let imm := signExtend16 n in
      let! d := regIndex (a 0%nat) in
      let! _ := writeReg d (JS.shr (rsVal + imm) 0) in next
  | Some ANDI => immop (fun x n => JS.and x n)
  | Some ORI => immop (fun x n => JS.or x n)
  | Some XORI => immop (fun x n => JS.xor x n)
  | Some SLTI =>
      let! x := readReg (a 1%nat) in
      let rsVal := JS.or x 0 in
      let! n := lift (parseImmediate (a 2%nat)) in
      let imm := signExtend16 n in
      let! d := regIndex (a 0%nat) in
      let! _ := writeReg d (if rsVal <? imm then 1 else 0) in next
  | Some SLTIU =>
      let! rsVal := readReg (a 1%nat) in
      let! n := lift (parseImmediate (a 2%nat)) in
      let imm := JS.and n 0xffff in
      let! d := regIndex (a 0%nat) in
      let! _ := writeReg d (if rsVal <? imm then 1 else 0) in next
  | Some LUI =>
      let! d := regIndex (a 0%nat) in
      let! n := lift (parseImmediate (a 1%nat)) in
      let! _ := writeReg d (JS.shr (JS.shl n 16) 0) in next
  | Some LW =>
      let! addr := effectiveAddress (a 1%nat) in
      let! d := regIndex (a 0%nat) in
      let! w := readWord addr in
      let! _ := writeReg d w in next
  | Some SW =>
      let! addr := effectiveAddress (a 1%nat) in
      let! v := readReg (a 0%nat) in
      let! _ := writeWord addr v in next
  | Some LB =>
      let! addr := effectiveAddress (a 1%nat) in
      let! byteVal := readMemory addr in
      let! d := regIndex (a 0%nat) in
      let! _ := writeReg d (signExtend16 byteVal) in next
  | Some SB =>
      let! addr := effectiveAddress (a 1%nat) in
      let! v := readReg (a 0%nat) in
      let! _ := writeMemory addr (JS.and v 0xff) in next
  | Some LH =>
      let! addr := effectiveAddress (a 1%nat) in
      let! b0 := readMemory addr in
      let! b1 := readMemory (addr + 1) in
      let halfword := JS.or (JS.shl b0 8) b1 in
      let! d := regIndex (a 0%nat) in
      let! _ := writeReg d (signExtend16 halfword) in next
  | Some SH =>
      let! addr := effectiveAddress (a 1%nat) in
      let! value := readReg (a 0%nat) in
      let! _ := writeMemory addr (JS.and (JS.shr value 8) 0xff) in
      let! _ := writeMemory (addr + 1) (JS.and value 0xff) in next
  | Some BEQ => branch false (fun rsVal rtVal => rsVal =? rtVal)
  | Some BNE => branch false (fun rsVal rtVal => negb (rsVal =? rtVal))
  | Some BGTZ => branch true (fun rsVal _ => JS.or rsVal 0 >? 0)
  | Some BLEZ => branch true (fun rsVal _ => JS.or rsVal 0 <=? 0)
  | Some J =>
      let addr26 := JS.shl (Decoded.address dec) 2 in
      let upperBits := JS.and (pc + 4) 0xf0000000 in
      ret (JS.or upperBits addr26, false)
  | Some JAL =>
      let addr26 := JS.shl (Decoded.address dec) 2 in
      let upperBits := JS.and (pc + 4) 0xf0000000 in
      let! _ := writeReg 31 (JS.shr (pc + 4) 0) in
      ret (JS.or upperBits addr26, false)
  | Some JR =>
      let! target := readReg (a 0%nat) in
      ret (target, false)
  | Some SYSCALL =>
      let! v0 := gets (fun s => nth 2 (registers s) 0) in
      if v0 =? 10 then
        let! _ := modify (fun s => setHalted s true) in next
      else next
  | Some NOP => next
  | None => throw (Error ("Unimplemented instruction: " +:+ m))
  end.

(** [executeInstruction(instruction, address)]; [None] is a missing
    instruction ([!instruction]). *)
Definition executeInstruction (ins : option instruction) (address : Z) : M executionResult :=
  match ins with
  | None => throw (Error "Invalid instruction")
  | Some ins =>
      let dec := decodeInstruction (binary ins) in
      let ctl := generateControlSignals dec in
      let! pc := gets PC in
      let! r := executeCase (switchOn (mnemonic ins)) (mnemonic ins)
                  (argAt (args ins)) dec pc in
      let! _ := writeReg 0 0 in
      let! _ := modify (fun s => setPC s (fst r)) in
      let! _ := modify (fun s => setCycle s (cycle s + 1)) in
      let! _ := modify (fun s => setInstructionCount s (instructionCount s + 1)) in
      ret {| decoded := dec; control := ctl; branchTaken := snd r; nextPC := fst r |}
  end.

(** ** Trace *)

Definition formatInstructionArgs (a : list value) : string :=
  Str.join ", " (map formatArg a).

Definition formatInstruction (ins : instruction) : string :=
  let formattedArgs := formatInstructionArgs (args ins) in
  let formatted :=
    mnemonic ins +:+
    (if String.eqb formattedArgs "" then "" else " " +:+ formattedArgs) in
  Str.trim (hd "" (Str.split "#" formatted)).

Definition logDebug (ins : instruction) (r : executionResult)
    (pcBeforeExecution : Z) : M unit :=
  let pc := pcBeforeExecution in
  let formattedInst := formatInstruction ins in
  if String.eqb formattedInst "" || Str.startsWith formattedInst "#" then ret tt
  else
    modify (fun s =>
      setDebugLog s
        (debugLog s ++
         [{| LogEntry.cycle := cycle s; LogEntry.PC := pc;
             LogEntry.instruction := formattedInst;
             LogEntry.binary := binary ins;
             LogEntry.decoded := decoded r; LogEntry.control := control r;
             LogEntry.registers := registers s;
             LogEntry.HI := HI s; LogEntry.LO := LO s |}])%list).

(** ** [step], [run], [reset]

    What [step] and [run] return.  [Failure message halted] is
    [{success: false, message}] with, when [halted] is [Some], the extra field
    [halted]; the [state] snapshot of a success is the object itself. *)
Inductive outcome :=
| Failure (message : string) (halted : option bool)
| StepSuccess (ins : instruction) (r : executionResult)
| RunSuccess (steps : Z).

Definition isSuccess (o : outcome) : bool :=
  match o with Failure _ _ => false | _ => true end.

Definition step : M outcome := fun s =>
  if negb (loaded s) || halted s then
    (Ok (Failure "Program not loaded or halted" None), s)
  else
    let instructionIndex := JS.shr (PC s - 0x00400000) 2 in
    if (instructionIndex <? 0)
       || (instructionIndex >=? Z.of_nat (length (instructions s)))
    then (Ok (Failure "PC out of bounds" (Some true)), setHalted s true)
    else
      match nth_error (instructions s) (Z.to_nat instructionIndex) with
      | None => (let! _ := executeInstruction None (PC s) in
                 ret (Failure "" None)) s
      | Some ins =>
          let pcBeforeExecution := PC s in
          (let! executionResult := executeInstruction (Some ins) (PC s) in
           let! debug := gets debugMode in
           let! _ :=
             if debug then logDebug ins executionResult pcBeforeExecution
             else ret tt in
           ret (StepSuccess ins executionResult)) s
      end.

Definition maxSteps : Z := 10000.

(** The tail of [run], after the [while] loop. *)
Definition afterLoop (steps : Z) : M outcome :=
  if steps >=? maxSteps then ret (Failure "Maximum step limit reached" None)
  else ret (RunSuccess steps).

(** The [while (!this.halted && steps < maxSteps)] loop.  Each round adds one
    to [steps], so [maxSteps - steps] rounds at most are made: [fuel] counts
    them down, and [run] starts with [maxSteps] of it. *)
Fixpoint runLoop (fuel : nat) (steps : Z) : M outcome := fun s =>
  if negb (halted s) && (steps <? maxSteps) then
    match fuel with
    | O => afterLoop steps s
    | S fuel =>
        (let! result := step in
         if isSuccess result then runLoop fuel (steps + 1)
         else ret result) s
    end
  else afterLoop steps s.

Definition run : M outcome := fun s =>
  if negb (loaded s) || halted s then
    (Ok (Failure "Program not loaded or halted" None), s)
  else runLoop (Z.to_nat maxSteps) 0 s.

Definition reset : M unit :=
  let! _ := modify (fun s => setRegisters s (replicate (length (registers s)) 0)) in
  let! _ := modify (fun s => setMemory s (replicate (length (memory s)) 0)) in
  let! _ := modify (fun s => setPC s 0x00400000) in
  let! _ := modify (fun s => setHI s (Some 0)) in
  let! _ := modify (fun s => setLO s 0) in
  let! _ := modify (fun s => setHalted s false) in
  let! _ := modify (fun s => setCycle s 0) in
  let! _ := modify (fun s => setInstructionCount s 0) in
  let! _ := modify (fun s => setDebugLog s []) in
  let! _ := modify (fun s => setUsedMemoryAddresses s []) in
  let! isLoaded := gets loaded in
  if isLoaded then ret tt
  else
    let! _ := modify (fun s => setInstructions s []) in
    modify (fun s => setLabels s (Some ∅)).

Definition setDebugMode (enabled : bool) : M unit :=
  modify (fun s => setDebugModeField s enabled).

(** ** [getUsedMemoryRange]

    [addresses] is [None] in the object returned for an empty set, which has
    no such field.  The comparison function of the sort is the difference of
    two numbers, so the sort is ascending; the first and the last element
    exist because the set is not empty. *)
Module UsedRange.
Record t := {
  min : Z; max : Z; addresses : option (list Z); hasData : bool
}.
End UsedRange.

Definition getUsedMemoryRange (s : MIPSSimulator) : UsedRange.t :=
  if Nat.eqb (length (usedMemoryAddresses s)) 0 then
    {| UsedRange.min := 0; UsedRange.max := 0;
       UsedRange.addresses := None; UsedRange.hasData := false |}
  else
    let addresses := merge_sort Z.le (usedMemoryAddresses s) in
    let min := nth 0 addresses 0 in
    let max := nth (length addresses - 1) addresses 0 in
    let minWord := JS.shl (JS.shr min 2) 2 in
    let maxWord := JS.shl (JS.shr (max + 3) 2) 2 in
    {| UsedRange.min := minWord; UsedRange.max := maxWord;
       UsedRange.addresses := Some addresses; UsedRange.hasData := true |}.

(** ** [formatBinary] and [formatHex]

    [n.toString(radix)] for an integer [n] and a radix up to 16: the digits
    of the absolute value, most significant first, after a minus sign for a
    negative number.  [fuel] bounds the number of digits. *)
Definition digitChar (d : Z) : ascii :=
  ascii_of_N (Z.to_N (if d <? 10 then 48 + d else 87 + d)).

Fixpoint digitsOf (fuel : nat) (radix n : Z) (acc : string) : string :=
  match fuel with
  | O => acc
  | S fuel =>
      let acc := String (digitChar (n mod radix)) acc in
      if n / radix =? 0 then acc else digitsOf fuel radix (n / radix) acc
  end.

Definition toStringRadix (n radix : Z) : string :=
  let digits (m : Z) := digitsOf (S (Z.to_nat (Z.log2 m))) radix m "" in
  if n <? 0 then "-" +:+ digits (- n) else digits n.

(** [s.padStart(targetLength, c)] for a one-character pad. *)
Definition padStart (targetLength : nat) (c : ascii) (s : string) : string :=
  Nat.iter (targetLength - String.length s) (String c) s.

Definition upperChar (c : ascii) : ascii :=
  if Str.isLower c then ascii_of_N (N_of_ascii c - 32) else c.

Fixpoint mapChars (g : ascii -> ascii) (s : string) : string :=
  match s with
  | EmptyString => EmptyString
  | String c r => String (g c) (mapChars g r)
  end.

Definition toUpperCase (s : string) : string := mapChars upperChar s.

(** The argument is a number in every call the class makes: the ['N/A'] of
    the other types is never returned. *)
Definition formatBinary (instruction : Z) : string :=
  padStart 32 "0" (toStringRadix instruction 2).

Definition formatHex (instruction : Z) : string :=
  "0x" +:+ toUpperCase (padStart 8 "0" (toStringRadix instruction 16)).

(** [getListing()].  [join] turns an element that is [undefined] into
    the empty string, and an empty [originalLine] is falsy. *)
Module Listing.
Record t := {
  address : string; binary : string; hex : string; assembly : string
}.
End Listing.

Definition joinElement (v : value) : string :=
  match v with
  | VUndefined => ""
  | _ => valueToString v
  end.

Definition getListing (s : MIPSSimulator) : list Listing.t :=
  map (fun inst =>
         {| Listing.address := formatHex (address inst);
            Listing.binary := formatBinary (binary inst);
            Listing.hex := formatHex (binary inst);
            Listing.assembly :=
              if String.eqb (originalLine inst) "" then
                mnemonic inst +:+ " "
                +:+ Str.join ", " (map joinElement (args inst))
              else originalLine inst |})
      (instructions s).

(** ** Running the model *)

(** The object after a method call, whatever the call returned or threw. *)
Definition after {A : Type} (m : M A) (s : MIPSSimulator) : MIPSSimulator := snd (m s).

(** The object after [n] calls of [step]. *)
Fixpoint steps (n : nat) (s : MIPSSimulator) : MIPSSimulator :=
  match n with
  | O => s
  | S n => steps n (after step s)
  end.

(** [$name] in the register file. *)
Definition reg (name : string) (s : MIPSSimulator) : option Z :=
  match parseRegister (VStr name) with
  | Ok i => registers s !! Z.to_nat i
  | Throw _ => None
  end.

Definition nl : string := String "010" EmptyString.

(** A program text from its lines. *)
Definition program (lines : list string) : string := Str.join nl lines.

(** The calls a host can make on the object, and a session of them on a new
    simulator. *)
Inductive call :=
| CallLoadProgram (assemblyText : string)
| CallStep
| CallRun
| CallReset
| CallSetDebugMode (enabled : bool).

Definition perform (s : MIPSSimulator) (c : call) : MIPSSimulator :=
  match c with
  | CallLoadProgram text => after (loadProgram text) s
  | CallStep => after step s
  | CallRun => after run s
  | CallReset => after reset s
  | CallSetDebugMode b => after (setDebugMode b) s
  end.

Definition session (calls : list call) : MIPSSimulator :=
  fold_left perform calls MIPSSimulator_constructor.

(** A new simulator with a program loaded. *)
Definition load (lines : list string) : MIPSSimulator :=
  after (loadProgram (program lines)) MIPSSimulator_constructor.

(** The parsed line a record of [this.instructions] comes from. *)
Definition source (ins : instruction) : string * list value * option string :=
  (mnemonic ins, args ins, label ins).

(** ** Predicates of the properties *)

(** What the [switch] of [executeInstruction] never assigns. *)
Definition sameTrace (s s' : MIPSSimulator) : Prop :=
  debugLog s' = debugLog s /\ instructionCount s' = instructionCount s.

(** [m] leaves the register file, the trace and the instruction count as
    they are. *)
Definition keepsRegisters {A : Type} (m : M A) : Prop :=
  forall s r s', m s = (r, s') ->
    registers s' = registers s /\ sameTrace s s'.

(** [m] writes registers only as its last action: when it throws the
    register file is untouched, otherwise it has kept its length. *)
Definition writesLast {A : Type} (m : M A) : Prop :=
  forall s r s', m s = (r, s') ->
    sameTrace s s' /\
    match r with
    | Ok _ => length (registers s') = length (registers s)
    | Throw _ => registers s' = registers s
    end.

(** The register file has its 32 entries and entry 0 holds 0, now and in
    every register snapshot of the trace. *)
Definition zeroWired (s : MIPSSimulator) : Prop :=
  length (registers s) = 32%nat
  /\ registers s !! 0%nat = Some 0
  /\ Forall (fun e => LogEntry.registers e !! 0%nat = Some 0) (debugLog s).

(** Whether a call of [step] executed an instruction. *)
Definition executed (r : result outcome) : bool :=
  match r with
  | Ok (StepSuccess _ _) => true
  | _ => false
  end.

(** The instructions a text holds, as the first pass collects them. *)
Definition parsedProgram (text : string) : list (string * list value * option string) :=
  fst (fst (firstPass (Str.split "010" text))).

(** A program that executes [syscall] with [$v0 = 10] as its 10,000th
    instruction: 2 instructions, 4998 rounds of 2, then 2. *)
Definition countdown : list string :=
  ["addi $t0, $zero, 4998";
   "nop";
   "loop: addi $t0, $t0, -1";
   "bne $t0, $zero, loop";
   "addi $v0, $zero, 10";
   "syscall"].

(** ** Predicates of the further properties *)

(** The immediate field of an I-type word for the number [n]. *)
Definition low16 (n : JS.number) : Z := JS.toUint32 n mod 2 ^ 16.

(** The shape of the object: 32 registers of 32 bits, 65,536 bytes, a
    touched set of distinct addresses inside the memory, [cycle] equal to
    [instructionCount], and stored words of 32 bits. *)
Definition words32 (s : MIPSSimulator) : Prop :=
  Forall (fun ins => 0 <= binary ins < JS.two32) (instructions s).

Definition wellFormed (s : MIPSSimulator) : Prop :=
  length (registers s) = 32%nat
  /\ Forall (fun v => 0 <= v < JS.two32) (registers s)
  /\ length (memory s) = Z.to_nat 0x10000
  /\ Forall (fun b => 0 <= b < 256) (memory s)
  /\ Forall (fun a => 0 <= a < 0x10000) (usedMemoryAddresses s)
  /\ NoDup (usedMemoryAddresses s)
  /\ cycle s = instructionCount s
  /\ words32 s.

(** [m] takes every object to one that is [R]-related to it, whether it
    returns or throws. *)
Definition preserves (R : MIPSSimulator -> MIPSSimulator -> Prop)
    {A : Type} (m : M A) : Prop :=
  forall s r s', m s = (r, s') -> R s s'.

Definition keepsWellFormed (s s' : MIPSSimulator) : Prop :=
  wellFormed s -> wellFormed s'.

(** What only [loadProgram], [reset] and [setDebugMode] assign. *)
Definition sameProgram (s s' : MIPSSimulator) : Prop :=
  instructions s' = instructions s /\ labels s' = labels s
  /\ loaded s' = loaded s /\ debugMode s' = debugMode s.

(** The calls that execute instructions. *)
Definition executes (c : call) : bool :=
  match c with CallStep | CallRun => true | _ => false end.

(** The values [m] can return. *)
Definition yields {A : Type} (P : A -> Prop) (m : M A) : Prop :=
  forall s r s', m s = (Ok r, s') -> P r.

(** The instructions that assign [nextPC] without a test. *)
Definition jumps (mnemonic : string) : bool :=
  match switchOn mnemonic with
  | Some (J | JAL | JR) => true
  | _ => false
  end.

(** The record of an instruction that carries no label, as the examples of
    single instructions use it. *)
Definition instructionOf (m : string) (a : list value) : instruction :=
  {| mnemonic := m; args := a; label := None; binary := 0;
     address := 0x00400000; originalLine := m |}.

(** A character that [parseInt] takes as the start of the digits. *)
Definition plain (c : ascii) : bool :=
  negb (Str.isSpace c) && negb (Ascii.eqb c "-") && negb (Ascii.eqb c "+").

(** The byte [readMemory] returns. *)
Definition byteAt (m : list Z) (address : JS.number) : Z :=
  if JS.shr address 0 <? Z.of_nat (length m)
  then nth (Z.to_nat (JS.shr address 0)) m 0 else 0.

(** * Properties *)

(** ** Checks of the parser and the encoder *)

Example parseInt_hex : Str.parseInt "0x00400000" 16 = JS.Num 4194304.
Proof. reflexivity. Qed.

Example parseInt_neg : Str.parseInt "-3" 10 = JS.Num (-3).
Proof. reflexivity. Qed.

Example parseInt_nan : Str.parseInt "loop" 10 = JS.NaN.
Proof. reflexivity. Qed.

Example tokens_line :
  Str.tokens "add  $t0,	$t1, $t2" = ["add"; "$t0,"; "$t1,"; "$t2"].
Proof. reflexivity. Qed.

Example split_lines : Str.split "#" "a # b # c" = ["a "; " b "; " c"].
Proof. reflexivity. Qed.

Example parseRegister_t0 : parseRegister (VStr "$t0,") = Ok 8.
Proof. reflexivity. Qed.

Example parseRegister_31 : parseRegister (VStr "$31") = Ok 31.
Proof. reflexivity. Qed.

Example parseRegister_32 :
  parseRegister (VStr "$32") = Throw (Error "Invalid register: $32").
Proof. reflexivity. Qed.

Example parseImmediate_bin : parseImmediate (VStr "0b101") = Ok (JS.Num 5).
Proof. reflexivity. Qed.

Example parseLine_add :
  parseLine "loop: ADD $t0, $t1, $t2   # sum" =
  Some (ParsedInstruction "add" [VStr "$t0"; VStr "$t1"; VStr "$t2"] (Some "loop")).
Proof. reflexivity. Qed.

Example parseLine_lw :
  parseLine "  lw $t0, -4($sp)" =
  Some (ParsedInstruction "lw" [VStr "$t0"; VOffsetReg (JS.Num (-4)) "$sp"] None).
Proof. reflexivity. Qed.

Example parseLine_label : parseLine "end:  # done" = Some (ParsedLabel "end").
Proof. reflexivity. Qed.

Example parseLine_comment : parseLine "   # nothing" = None.
Proof. reflexivity. Qed.

Example encode_addi :
  encodeInstruction "addi" [VStr "$t0"; VStr "$zero"; VStr "1"] = Ok (EncWord 0x20080001).
Proof. reflexivity. Qed.

Example encode_sw :
  encodeInstruction "sw" [VStr "$t1"; VOffsetReg (JS.Num (-4)) "$sp"] = Ok (EncWord 0xAFA9FFFC).
Proof. reflexivity. Qed.

Example encode_arity :
  encodeInstruction "add" [VStr "$t0"] =
  Throw (ErrorEncoding "add" (Error "Invalid arguments for add")).
Proof. reflexivity. Qed.

(** [encodeIType] and [encodeJType] called with a name the opcode table
    only inherits: the read is not [undefined], nothing is thrown, and the
    opcode field of the word is 0. *)
Example encodeIType_inherited_name :
  encodeIType "constructor" (VStr "$t0") (VStr "$t1") (VStr "5") = Ok 0x01280005.
Proof. reflexivity. Qed.

Example encodeJType_inherited_name :
  encodeJType "toString" 0x00400000 = Ok 0x00100000.
Proof. reflexivity. Qed.

Example encodeIType_unknown_name :
  encodeIType "foo" (VStr "$t0") (VStr "$t1") (VStr "5")
  = Throw (Error "Unknown I-type instruction: foo").
Proof. reflexivity. Qed.

Example encodeJType_unknown_name :
  encodeJType "foo" 0x00400000 = Throw (Error "Unknown J-type instruction: foo").
Proof. reflexivity. Qed.

(** ** Which methods touch the register file *)

Section Frames.

Context {A B : Type}.

Lemma sameTrace_refl s : sameTrace s s.
Proof. split; reflexivity. Qed.

Lemma sameTrace_trans s1 s2 s3 :
  sameTrace s1 s2 -> sameTrace s2 s3 -> sameTrace s1 s3.
Proof. intros [? ?] [? ?]. split; congruence. Qed.

#[local] Hint Resolve sameTrace_refl : core.

Lemma keeps_ret (a : A) : keepsRegisters (ret a).
Proof. intros s r s' [= <- <-]. auto. Qed.

Lemma keeps_throw (e : error) : keepsRegisters (throw (A := A) e).
Proof. intros s r s' [= <- <-]. auto. Qed.

Lemma keeps_lift (x : result A) : keepsRegisters (lift x).
Proof. intros s r s' [= <- <-]. auto. Qed.

Lemma keeps_gets (f : MIPSSimulator -> A) : keepsRegisters (gets f).
Proof. intros s r s' [= <- <-]. auto. Qed.

Lemma keeps_modify (f : MIPSSimulator -> MIPSSimulator) :
  (forall s, registers (f s) = registers s /\ sameTrace s (f s)) ->
  keepsRegisters (modify f).
Proof. intros Hf s r s' [= <- <-]. apply Hf. Qed.

Lemma keeps_bind (m : M A) (f : A -> M B) :
  keepsRegisters m -> (forall a, keepsRegisters (f a)) ->
  keepsRegisters (bind m f).
Proof.
  intros Hm Hf s r s' H. unfold bind in H.
  destruct (m s) as [[a | e] s1] eqn:E; apply Hm in E as [E1 E2].
  - apply Hf in H as [H1 H2]. split; [congruence |].
    eapply sameTrace_trans; eassumption.
  - injection H as <- <-. auto.
Qed.

Lemma keeps_if (b : bool) (m1 m2 : M A) :
  keepsRegisters m1 -> keepsRegisters m2 ->
  keepsRegisters (if b then m1 else m2).
Proof. destruct b; auto. Qed.

Lemma writes_keeps (m : M A) : keepsRegisters m -> writesLast m.
Proof.
  intros Hm s r s' H. apply Hm in H as [H1 H2].
  split; [assumption |]. destruct r; congruence.
Qed.

Lemma writes_bind (m : M A) (f : A -> M B) :
  keepsRegisters m -> (forall a, writesLast (f a)) -> writesLast (bind m f).
Proof.
  intros Hm Hf s r s' H. unfold bind in H.
  destruct (m s) as [[a | e] s1] eqn:E; apply Hm in E as [E1 E2].
  - apply Hf in H as [H1 H2].
    split; [eapply sameTrace_trans; eassumption |].
    destruct r; congruence.
  - injection H as <- <-. auto.
Qed.

Lemma writes_if (b : bool) (m1 m2 : M A) :
  writesLast m1 -> writesLast m2 -> writesLast (if b then m1 else m2).
Proof. destruct b; auto. Qed.

Lemma writes_final (i : Z) (n : JS.number) (a : A) :
  writesLast (bind (writeReg i n) (fun _ => ret a)).
Proof.
  intros s r s' [= <- <-]. split; [split; reflexivity |].
  cbn. apply length_insert.
Qed.

End Frames.

Ltac keeps :=
  repeat first
    [ progress intros
    | apply keeps_ret | apply keeps_throw | apply keeps_lift | apply keeps_gets
    | apply keeps_bind | apply keeps_if
    | apply keeps_modify; intros; repeat split; reflexivity ].

Lemma keeps_regIndex v : keepsRegisters (regIndex v).
Proof. unfold regIndex. keeps. Qed.

Lemma keeps_readReg v : keepsRegisters (readReg v).
Proof. unfold readReg. keeps. Qed.

Lemma keeps_readMemory a : keepsRegisters (readMemory a).
Proof.
  intros s r s' H. unfold readMemory in H.
  destruct (_ <? _); injection H as <- <-; repeat split.
Qed.

Lemma keeps_writeMemory a v : keepsRegisters (writeMemory a v).
Proof.
  intros s r s' H. unfold writeMemory in H.
  destruct (_ <? _); injection H as <- <-; repeat split.
Qed.

Lemma keeps_readWord a : keepsRegisters (readWord a).
Proof. unfold readWord. keeps; try apply keeps_readMemory. Qed.

Lemma keeps_writeWord a v : keepsRegisters (writeWord a v).
Proof. unfold writeWord. keeps; try apply keeps_writeMemory. Qed.

Lemma keeps_effectiveAddress v : keepsRegisters (effectiveAddress v).
Proof. unfold effectiveAddress. keeps; try apply keeps_readReg. Qed.

Create HintDb frames.
#[local] Hint Resolve keeps_regIndex keeps_readReg keeps_readMemory
  keeps_writeMemory keeps_readWord keeps_writeWord keeps_effectiveAddress
  : frames.

Ltac keeps' := keeps; auto with frames.

Ltac writes :=
  repeat first
    [ progress intros
    | apply writes_final
    | apply writes_if
    | apply writes_bind; [solve [keeps'] |]
    | apply writes_keeps; solve [keeps'] ].

Lemma writes_executeCase op m a dec pc :
  writesLast (executeCase op m a dec pc).
Proof.
  destruct op as [[] |]; cbv beta iota zeta delta [executeCase]; writes.
Qed.

(** ** Sequencing *)

Lemma bind_inv {A B : Type} (m : M A) (f : A -> M B) s r s' :
  bind m f s = (r, s') ->
  (exists a s1, m s = (Ok a, s1) /\ f a s1 = (r, s'))
  \/ (exists e, m s = (Throw e, s') /\ r = Throw e).
Proof.
  unfold bind. destruct (m s) as [[a | e] s1]; intros H.
  - left. eauto.
  - right. injection H as <- <-. eauto.
Qed.

(** ** Register 0 *)

Lemma executeInstruction_registers ins addr s r s' :
  executeInstruction ins addr s = (r, s') ->
  length (registers s) = 32%nat ->
  debugLog s' = debugLog s
  /\ length (registers s') = 32%nat
  /\ match r with
     | Ok _ => registers s' !! 0%nat = Some 0
               /\ instructionCount s' = instructionCount s + 1
     | Throw _ => registers s' = registers s
                  /\ instructionCount s' = instructionCount s
     end.
Proof.
  intros H Hlen. destruct ins as [ins |]; unfold executeInstruction in H.
  2: { injection H as <- <-. auto. }
  apply bind_inv in H as [(pc & s0 & Hpc & H) | (e & Hpc & _)];
    [| discriminate Hpc].
  injection Hpc as <- <-.
  apply bind_inv in H as [(x & s1 & E & H) | (e & E & ->)];
    apply writes_executeCase in E as [[Hlog Hcount] Hregs].
  - unfold bind, writeReg, modify, ret in H. injection H as <- <-.
    cbn [registers debugLog instructionCount
         setRegisters setPC setCycle setInstructionCount].
    rewrite length_insert. repeat split; try congruence.
    apply list_lookup_insert_eq. lia.
  - repeat split; congruence.
Qed.

(** [step] executes one instruction when it returns a success, none
    otherwise. *)
Lemma step_spec s :
  zeroWired s ->
  zeroWired (after step s)
  /\ instructionCount (after step s)
     = instructionCount s + (if executed (fst (step s)) then 1 else 0).
Proof.
  intros (Hlen & H0 & Hlog). unfold after.
  destruct (step s) as [r s'] eqn:Hstep. cbn [fst snd]. unfold step in Hstep.
  destruct (negb (loaded s) || halted s).
  { injection Hstep as <- <-. split; [easy | cbn; lia]. }
  destruct (_ || _).
  { injection Hstep as <- <-. split; [easy | cbn; lia]. }
  destruct (nth_error _ _) as [ins |];
    apply bind_inv in Hstep as [(x & s1 & E & H) | (e & E & ->)].
  3: discriminate E.
  3: { injection E as _ <-. split; [easy | cbn; lia]. }
  all: apply executeInstruction_registers in E as (Elog & Elen & E0 & Ecount);
    try assumption.
  - apply bind_inv in H as [(dbg & s2 & Hd & H) | (e & Hd & _)];
      [| discriminate Hd].
    injection Hd as <- <-.
    apply bind_inv in H as [(u & s2 & Hl & H) | (e & Hl & ->)].
    + injection H as <- <-. destruct (debugMode s1).
      * unfold logDebug in Hl. destruct (_ || _); inversion Hl; subst.
        -- split; [repeat split; congruence | cbn; lia].
        -- cbn. split; [| lia]. repeat split; try assumption.
           rewrite Elog. apply Forall_app. split; [assumption |].
           repeat constructor. assumption.
      * inversion Hl; subst. split; [repeat split; congruence | cbn; lia].
    + destruct (debugMode s1); [unfold logDebug in Hl; destruct (_ || _) |];
        discriminate Hl.
  - split; [repeat split; congruence | cbn; lia].
Qed.

Lemma zeroWired_step s : zeroWired s -> zeroWired (after step s).
Proof. intros Hs. apply step_spec, Hs. Qed.

(** The loop of [run] executes [fuel] instructions at most. *)
Lemma runLoop_spec fuel : forall k s,
  zeroWired s ->
  zeroWired (after (runLoop fuel k) s)
  /\ instructionCount s <= instructionCount (after (runLoop fuel k) s)
     <= instructionCount s + Z.of_nat fuel.
Proof.
  assert (Hafter : forall k s, after (afterLoop k) s = s).
  { intros k s. unfold after, afterLoop. destruct (_ >=? _); reflexivity. }
  induction fuel as [| fuel IH]; intros k s Hs.
  - replace (after (runLoop 0 k) s) with s; [split; [exact Hs | lia] |].
    unfold after; cbn. destruct (_ && _); symmetry; apply Hafter.
  - unfold after; cbn [runLoop]. destruct (_ && _).
    + destruct (step_spec s Hs) as [Hz Hc]. unfold after in Hz, Hc.
      assert (Hc' : instructionCount s <= instructionCount (snd (step s))
                    <= instructionCount s + 1)
        by (destruct (executed _); lia).
      clear Hc. unfold bind.
      destruct (step s) as [[result | e] s1]; cbn [snd] in Hz, Hc'.
      * destruct (isSuccess result).
        -- destruct (IH (k + 1) s1 Hz) as [Hz' Hc'']. unfold after in Hz', Hc''.
           split; [exact Hz' | lia].
        -- cbn. split; [exact Hz | lia].
      * cbn. split; [exact Hz | lia].
    + fold (after (afterLoop k) s). rewrite Hafter. split; [exact Hs | lia].
Qed.

(** [run] executes [maxSteps] instructions at most. *)
Lemma run_spec s :
  zeroWired s ->
  zeroWired (after run s)
  /\ instructionCount s <= instructionCount (after run s)
     <= instructionCount s + maxSteps.
Proof.
  intros Hs. unfold after, run.
  destruct (_ || _); [split; [exact Hs | cbn; unfold maxSteps; lia] |].
  apply (runLoop_spec (Z.to_nat maxSteps) 0 s Hs).
Qed.

Lemma zeroWired_run s : zeroWired s -> zeroWired (after run s).
Proof. intros Hs. apply run_spec, Hs. Qed.

Lemma zeroWired_reset s : zeroWired s -> zeroWired (after reset s).
Proof.
  intros (Hlen & H0 & Hlog). unfold after, reset, bind, modify, gets; cbn.
  destruct (loaded s); cbn; rewrite Hlen; repeat split; constructor.
Qed.

(** ** What [loadProgram] changes *)

Lemma setInstructions_same s : setInstructions s (instructions s) = s.
Proof. destruct s; reflexivity. Qed.

(** One round of the second loop pushes one record, or throws and leaves
    the object as it is. *)
Lemma secondPassEntry_spec lines lbls i entry s r s' :
  secondPassEntry lines lbls i entry s = (r, s') ->
  match r with
  | Ok _ => exists rec,
      s' = setInstructions s (instructions s ++ [rec])%list
      /\ source rec = entry
      /\ address rec = PC s + Z.of_nat i * 4
  | Throw _ => s' = s
  end.
Proof.
  destruct entry as [[m a] l]. unfold secondPassEntry. intros H.
  apply bind_inv in H as [(enc & s0 & He & H) | (e & He & ->)];
    injection He as He <-; [| reflexivity].
  apply bind_inv in H as [(w & s0 & Hw & H) | (e & Hw & ->)];
    injection Hw as Hw <-; [| reflexivity].
  injection H as <- <-. eexists. repeat split.
Qed.

(** The second loop appends the records of a prefix of the program, the
    whole of it unless it throws; record [k] gets the address [PC + 4 * k]
    for the [PC] of the moment. *)
Lemma secondPass_spec lines lbls prog : forall i s r s',
  secondPass lines lbls i prog s = (r, s') ->
  exists recs,
    s' = setInstructions s (instructions s ++ recs)%list
    /\ map source recs = take (length recs) prog
    /\ (forall k rec, recs !! k = Some rec ->
          address rec = PC s + Z.of_nat (i + k) * 4)
    /\ match r with
       | Ok _ => length recs = length prog
       | Throw _ => (length recs < length prog)%nat
       end.
Proof.
  induction prog as [| entry prog IH]; intros i s r s' H; cbn in H.
  - injection H as <- <-. exists []. rewrite app_nil_r, setInstructions_same.
    repeat split. intros k rec Hk. discriminate Hk.
  - apply bind_inv in H as [(u & s1 & He & H) | (e & He & ->)];
      apply secondPassEntry_spec in He.
    + destruct He as (rec & -> & Hsrc & Haddr).
      apply IH in H as (recs & -> & Hmap & Hk & Hr).
      exists (rec :: recs). cbn [instructions setInstructions].
      rewrite <- app_assoc. repeat split.
      * cbn. congruence.
      * intros [| k] rec' Hrec; cbn in Hrec.
        -- injection Hrec as <-. rewrite Nat.add_0_r. exact Haddr.
        -- apply Hk in Hrec. rewrite Hrec. cbn [PC setInstructions].
           f_equal. lia.
      * destruct r; cbn; lia.
    + subst s'. exists []. rewrite app_nil_r, setInstructions_same.
      repeat split; cbn; [| lia]. intros k rec Hk. discriminate Hk.
Qed.

(** [loadProgram] in full: the object when it throws, and when it returns. *)
Lemma loadProgram_spec text s r s' :
  loadProgram text s = (r, s') ->
  let lines := Str.split "010" text in
  exists recs,
    map source recs = take (length recs) (fst (fst (firstPass lines)))
    /\ (forall k rec, recs !! k = Some rec ->
          address rec = PC s + Z.of_nat k * 4)
    /\ match r with
       | Throw _ =>
           s' = setInstructions s recs
           /\ (length recs < length (fst (fst (firstPass lines))))%nat
       | Ok n =>
           n = Z.of_nat (length recs)
           /\ length recs = length (fst (fst (firstPass lines)))
           /\ s' = setUsedMemoryAddresses (setDebugLog (setInstructionCount
                  (setCycle (setHalted (setLoaded (setLabels
                    (setInstructions s recs)
                    (Some (snd (fst (firstPass lines))))) true) false) 0) 0)
                  []) []
       end.
Proof.
  intros H lines. unfold loadProgram in H. fold lines in H.
  destruct (firstPass lines) as [[prog lbls] n0]. cbn [fst snd].
  apply bind_inv in H as [(u & s0 & H0 & H) | (e & H0 & _)];
    [| discriminate H0].
  injection H0 as _ <-.
  apply bind_inv in H as [(u' & s1 & H1 & H) | (e & H1 & ->)];
    apply secondPass_spec in H1 as (recs & Hs1 & Hmap & Haddr & Hlen);
    cbn [instructions setInstructions app] in Hs1;
    exists recs; (split; [exact Hmap |]); (split; [exact Haddr |]).
  - unfold bind, modify, gets in H. injection H as <- <-. subst s1.
    repeat split. exact Hlen.
  - split; assumption.
Qed.

(** One round of the second loop is [recordOf] at the PC of the moment: its
    record is pushed, or its error thrown with the object as it is. *)
Lemma secondPassEntry_recordOf lines lbls i entry s :
  secondPassEntry lines lbls i entry s
  = match recordOf lines lbls (PC s) i entry with
    | Ok rec => (Ok tt, setInstructions s (instructions s ++ [rec])%list)
    | Throw e => (Throw e, s)
    end.
Proof.
  destruct entry as [[m a] l]. unfold secondPassEntry, recordOf, bind, lift.
  destruct (encodeInstruction m a) as [enc | e]; cbn [bindResult];
    [| reflexivity].
  match goal with
  | |- context [bindResult ?w _] => destruct w as [word | e]
  end; reflexivity.
Qed.

(** The second loop, record by record: the records appended are those of
    the entries it went through, in order, and the error it throws is that
    of the entry that follows them. *)
Lemma secondPass_records lines lbls prog : forall i s r s',
  secondPass lines lbls i prog s = (r, s') ->
  exists recs,
    s' = setInstructions s (instructions s ++ recs)%list
    /\ (forall k rec, recs !! k = Some rec ->
          exists entry,
            prog !! k = Some entry
            /\ recordOf lines lbls (PC s) (i + k) entry = Ok rec)
    /\ match r with
       | Ok _ => length recs = length prog
       | Throw e =>
           exists entry,
             prog !! length recs = Some entry
             /\ recordOf lines lbls (PC s) (i + length recs) entry = Throw e
       end.
Proof.
  induction prog as [| entry prog IH]; intros i s r s' H; cbn [secondPass] in H.
  - injection H as <- <-. exists []. rewrite app_nil_r, setInstructions_same.
    repeat split. intros k rec Hk. discriminate Hk.
  - unfold bind in H. rewrite secondPassEntry_recordOf in H.
    destruct (recordOf lines lbls (PC s) i entry) as [rec | e] eqn:E.
    + apply IH in H as (recs & -> & Hk & Hr).
      cbn [PC instructions setInstructions] in Hk, Hr |- *.
      exists (rec :: recs). rewrite <- app_assoc.
      split; [reflexivity |]. split.
      * intros [| k] rec' Hrec; cbn in Hrec.
        -- injection Hrec as <-. exists entry. rewrite Nat.add_0_r.
           split; [reflexivity | exact E].
        -- apply Hk in Hrec as (entry' & He' & Hrec). exists entry'.
           replace (i + S k)%nat with (S i + k)%nat by lia.
           split; [exact He' | exact Hrec].
      * destruct r as [u | e].
        -- cbn [length]. congruence.
        -- destruct Hr as (entry' & He' & Hrec). exists entry'.
           cbn [length].
           replace (i + S (length recs))%nat with (S i + length recs)%nat by lia.
           split; [exact He' | exact Hrec].
    + injection H as <- <-. exists [].
      rewrite app_nil_r, setInstructions_same.
      split; [reflexivity |]. split.
      * intros k rec Hk. discriminate Hk.
      * exists entry. cbn [length]. rewrite Nat.add_0_r.
        split; [reflexivity | exact E].
Qed.

(** A record of [recordOf] has the fields of its entry. *)
Lemma recordOf_source lines lbls pc i entry rec :
  recordOf lines lbls pc i entry = Ok rec -> source rec = entry.
Proof.
  destruct entry as [[m a] l]. unfold recordOf. intros H.
  destruct (encodeInstruction m a) as [enc | e]; cbn [bindResult] in H;
    [| discriminate H].
  match type of H with
  | bindResult ?w _ = _ => destruct w as [word | e]
  end; cbn [bindResult] in H; [| discriminate H].
  injection H as <-. reflexivity.
Qed.

(** [loadProgram] when it throws: [instructions] is replaced by the records
    of the entries before the one whose encoding throws, and nothing else
    is assigned. *)
Lemma loadProgram_throws text s e s' :
  loadProgram text s = (Throw e, s') ->
  let lines := Str.split "010" text in
  let prog := fst (fst (firstPass lines)) in
  let lbls := snd (fst (firstPass lines)) in
  exists recs entry,
    s' = setInstructions s recs
    /\ (forall k rec, recs !! k = Some rec ->
          exists entry',
            prog !! k = Some entry'
            /\ recordOf lines lbls (PC s) k entry' = Ok rec)
    /\ prog !! length recs = Some entry
    /\ recordOf lines lbls (PC s) (length recs) entry = Throw e.
Proof.
  intros H lines prog lbls. unfold loadProgram in H. fold lines in H.
  subst prog lbls.
  destruct (firstPass lines) as [[prog lbls] n0]. cbn [fst snd].
  apply bind_inv in H as [(u & s0 & H0 & H) | (e0 & H0 & _)];
    [| discriminate H0].
  injection H0 as _ <-.
  apply bind_inv in H as [(u' & s1 & H1 & H) | (e0 & H1 & He0)].
  - unfold bind, modify, gets in H. discriminate H.
  - injection He0 as ->.
    apply secondPass_records in H1 as (recs & Hs1 & Hk & entry & He & Hrec).
    cbn [PC instructions setInstructions app] in Hs1, Hk, Hrec.
    exists recs, entry. auto.
Qed.

Lemma zeroWired_loadProgram text s :
  zeroWired s -> zeroWired (after (loadProgram text) s).
Proof.
  intros (Hlen & H0 & Hlog). unfold after.
  destruct (loadProgram text s) as [r s'] eqn:E.
  apply loadProgram_spec in E as (recs & _ & _ & Hr).
  destruct r as [n | e].
  - destruct Hr as (_ & _ & ->). repeat split; [assumption .. | constructor].
  - destruct Hr as (-> & _). repeat split; assumption.
Qed.

Lemma zeroWired_constructor : zeroWired MIPSSimulator_constructor.
Proof. repeat split. constructor. Qed.

Lemma zeroWired_perform s c : zeroWired s -> zeroWired (perform s c).
Proof.
  intros Hs. destruct c; cbn [perform].
  - apply zeroWired_loadProgram, Hs.
  - apply zeroWired_step, Hs.
  - apply zeroWired_run, Hs.
  - apply zeroWired_reset, Hs.
  - exact Hs.
Qed.

Lemma zeroWired_session calls : zeroWired (session calls).
Proof.
  unfold session. generalize zeroWired_constructor.
  generalize MIPSSimulator_constructor.
  induction calls as [| c calls IH]; intros s Hs; cbn.
  - exact Hs.
  - apply IH, zeroWired_perform, Hs.
Qed.

(** The session that loads a text and steps [n] times. *)
Lemma session_load_steps text n :
  session (CallLoadProgram text :: repeat CallStep n)
  = steps n (after (loadProgram text) MIPSSimulator_constructor).
Proof.
  unfold session. cbn [fold_left perform].
  generalize (after (loadProgram text) MIPSSimulator_constructor).
  induction n as [| n IH]; intros s; cbn; [reflexivity | apply IH].
Qed.

(** ** What the code computes for [sub], [div], [run] and the addresses *)

Lemma shr_zero (z : Z) : JS.shr z 0 = z mod JS.two32.
Proof. unfold JS.shr. change (JS.shiftCount 0) with 0. apply Z.shiftr_0_r. Qed.

Lemma toUint32_mod (z : Z) : JS.toUint32 (z mod JS.two32) = z mod JS.two32.
Proof. unfold JS.toUint32. apply Z.mod_mod. unfold JS.two32. lia. Qed.

(** [sub] and [subu] on any state: the register named first receives the
    value of the register named third minus that of the register named
    second, modulo 2^32; then register 0 is cleared. *)
Lemma executeInstruction_sub s m d rs rt di si ti lbl w addr orig pc :
  m = "sub" \/ m = "subu" ->
  parseRegister d = Ok di -> parseRegister rs = Ok si -> parseRegister rt = Ok ti ->
  registers (after (executeInstruction
     (Some {| mnemonic := m; args := [d; rs; rt]; label := lbl; binary := w;
              address := addr; originalLine := orig |}) pc) s)
  = <[0%nat := 0]>
      (<[Z.to_nat di := (nth (Z.to_nat ti) (registers s) 0
                         - nth (Z.to_nat si) (registers s) 0) mod JS.two32]>
         (registers s)).
Proof.
  intros Hm Hd Hs Ht. unfold after, executeInstruction.
  cbn [mnemonic args binary].
  assert (Hcase : switchOn m = Some SUB \/ switchOn m = Some SUBU)
    by (destruct Hm as [-> | ->]; [left | right]; reflexivity).
  destruct Hcase as [-> | ->];
    cbv beta iota zeta delta [executeCase];
    unfold readReg, regIndex, bind, lift, gets, writeReg, modify, ret;
    cbn [argAt nth]; rewrite Hd, Ht, Hs;
    cbn [fst snd registers setRegisters setPC setCycle setInstructionCount];
    rewrite shr_zero, toUint32_mod; reflexivity.
Qed.

(** [div] on any state: nothing is assigned when the divisor is 0; otherwise
    LO is the quotient rounded down and HI the remainder of truncating
    division, both modulo 2^32.  [Math.floor (rsVal / rtVal)] is exact on
    32-bit operands: the double nearest to the quotient lies on the same side
    of every integer as the quotient. *)
Lemma executeInstruction_div s rs rt si ti lbl w addr orig pc :
  parseRegister rs = Ok si -> parseRegister rt = Ok ti ->
  let rsVal := JS.or (nth (Z.to_nat si) (registers s) 0) 0 in
  let rtVal := JS.or (nth (Z.to_nat ti) (registers s) 0) 0 in
  let s' := after (executeInstruction
     (Some {| mnemonic := "div"; args := [rs; rt]; label := lbl; binary := w;
              address := addr; originalLine := orig |}) pc) s in
  (LO s', HI s') =
  if rtVal =? 0 then (LO s, HI s)
  else ((rsVal / rtVal) mod JS.two32, Some (Z.rem rsVal rtVal mod JS.two32)).
Proof.
  intros Hs Ht. unfold after, executeInstruction.
  cbn [mnemonic args binary]. change (switchOn "div") with (Some DIV).
  cbv beta iota zeta delta [executeCase].
  unfold readReg, regIndex, bind, lift, gets, writeReg, modify, ret.
  cbn [argAt nth]. rewrite Hs, Ht.
  destruct (_ =? 0); cbn [fst snd LO HI setRegisters setPC setCycle
                         setInstructionCount setLO setHI];
    rewrite ?shr_zero; reflexivity.
Qed.

(** The record of index [k] of a successful load has address [PC + 4 * k],
    for the PC the object had when [loadProgram] was called. *)
Lemma loadProgram_addresses text s n s' :
  loadProgram text s = (Ok n, s') ->
  forall k rec, instructions s' !! k = Some rec ->
    address rec = PC s + Z.of_nat k * 4.
Proof.
  intros H. apply loadProgram_spec in H as (recs & _ & Haddr & _ & _ & ->).
  exact Haddr.
Qed.

(** What [step] can return. *)
Lemma step_outcome s r s' :
  step s = (Ok r, s') ->
  match r with
  | Failure m _ => m = "Program not loaded or halted" \/ m = "PC out of bounds"
  | StepSuccess _ _ => True
  | RunSuccess _ => False
  end.
Proof.
  unfold step. destruct (negb (loaded s) || halted s).
  { intros [= <- <-]. auto. }
  destruct (_ || _).
  { intros [= <- <-]. auto. }
  destruct (nth_error _ _) as [ins |]; intros H;
    apply bind_inv in H as [(x & s1 & E & H) | (e & _ & [=])];
    [| discriminate E].
  apply bind_inv in H as [(dbg & s2 & _ & H) | (e & _ & [=])].
  apply bind_inv in H as [(u & s3 & _ & H) | (e & _ & [=])].
  injection H as <- <-. exact I.
Qed.

Lemma afterLoop_success k s n s' :
  afterLoop k s = (Ok (RunSuccess n), s') -> n = k /\ s' = s /\ k < maxSteps.
Proof.
  unfold afterLoop. destruct (Z.geb_spec k maxSteps) as [Hk | Hk]; intros H.
  - discriminate H.
  - injection H as <- <-. auto.
Qed.

Lemma afterLoop_limit k s h s' :
  afterLoop k s = (Ok (Failure "Maximum step limit reached" h), s') ->
  s' = s /\ maxSteps <= k.
Proof.
  unfold afterLoop. destruct (Z.geb_spec k maxSteps) as [Hk | Hk]; intros H.
  - injection H as _ <-. auto.
  - discriminate H.
Qed.

(** With the fuel [run] gives it, the loop returns a success only for a
    halted program, with a step count below the limit. *)
Lemma runLoop_success fuel : forall k s n s',
  maxSteps - k <= Z.of_nat fuel ->
  runLoop fuel k s = (Ok (RunSuccess n), s') ->
  halted s' = true /\ k <= n < maxSteps.
Proof.
  induction fuel as [| fuel IH]; intros k s n s' Hfuel H; cbn [runLoop] in H;
    destruct (halted s) eqn:Hh; destruct (Z.ltb_spec k maxSteps) as [Hk | Hk];
    cbn [negb andb] in H;
    try (apply afterLoop_success in H as (-> & -> & Hlt);
         split; [assumption || lia | lia]).
  apply bind_inv in H as [(result & s1 & Hstep & H) | (e & _ & [=])].
  destruct (isSuccess result) eqn:Hr.
  - apply IH in H as [Hhalt Hn]; [| lia]. split; [exact Hhalt | lia].
  - injection H as -> <-. discriminate Hr.
Qed.

Lemma run_success s n s' :
  run s = (Ok (RunSuccess n), s') -> halted s' = true /\ 0 <= n < maxSteps.
Proof.
  unfold run. destruct (_ || _); [discriminate |].
  apply runLoop_success. rewrite Z2Nat.id; unfold maxSteps; lia.
Qed.

(** The loop returns the step-limit error only after it has executed all
    the instructions up to the limit. *)
Lemma runLoop_limit fuel : forall k s h s',
  zeroWired s -> k <= maxSteps -> maxSteps - k <= Z.of_nat fuel ->
  runLoop fuel k s = (Ok (Failure "Maximum step limit reached" h), s') ->
  instructionCount s' = instructionCount s + (maxSteps - k).
Proof.
  induction fuel as [| fuel IH]; intros k s h s' Hs Hmax Hfuel H;
    cbn [runLoop] in H;
    destruct (halted s) eqn:Hh; destruct (Z.ltb_spec k maxSteps) as [Hk | Hk];
    cbn [negb andb] in H;
    try (apply afterLoop_limit in H as (-> & Hle); lia).
  apply bind_inv in H as [(result & s1 & Hstep & H) | (e & _ & [=])].
  destruct (step_spec s Hs) as [Hz Hc]. unfold after in Hz, Hc.
  pose proof (step_outcome _ _ _ Hstep) as Hout.
  rewrite Hstep in Hz, Hc. cbn [fst snd] in Hz, Hc.
  destruct result as [m hf | ins x | n]; cbn [isSuccess executed] in H, Hc.
  - injection H as -> _ _. destruct Hout as [Hm | Hm]; discriminate Hm.
  - apply IH in H; [lia | assumption | lia | lia].
  - destruct Hout.
Qed.

Lemma run_limit s h s' :
  zeroWired s ->
  run s = (Ok (Failure "Maximum step limit reached" h), s') ->
  instructionCount s' = instructionCount s + maxSteps.
Proof.
  intros Hs. unfold run. destruct (_ || _); [discriminate |].
  intros H. apply runLoop_limit in H; [lia | assumption | ..];
    rewrite ?Z2Nat.id; unfold maxSteps; lia.
Qed.

(** ** The claims *)

(** C1.  The claim: [sub $d, $s, $t] (and [subu]) leaves in [$d] the value of
    the second operand minus the value of the third, modulo 2^32.  The code
    computes [registers[args[2]] - registers[args[1]]], the third operand
    minus the second: with [$t1 = 5] and [$t2 = 3], [sub $t0, $t1, $t2]
    leaves 3 - 5 = 0xFFFFFFFE in [$t0], where the claim has 2; the claimed
    value is what the operands in the other order give. *)
Theorem sub_subtracts_second_operand_from_third :
  reg "$t0" (steps 3 (load ["addi $t1, $zero, 5"; "addi $t2, $zero, 3";
                            "sub $t0, $t1, $t2"])) = Some 0xFFFFFFFE
  /\ reg "$t0" (steps 3 (load ["addi $t1, $zero, 5"; "addi $t2, $zero, 3";
                               "subu $t0, $t1, $t2"])) = Some 0xFFFFFFFE
  /\ reg "$t0" (steps 3 (load ["addi $t1, $zero, 5"; "addi $t2, $zero, 3";
                               "sub $t0, $t2, $t1"])) = Some 2.
Proof. vm_compute. repeat split. Qed.

(** C2.  The claim: encoding the parsed text gives the canonical word,
    0x012A4020 for [add $t0, $t1, $t2], 0x20080001 for [addi $t0, $zero, 1]
    and 0x08100000 for [j 0x00400000].  On the code [addi] is as claimed;
    [add $t0, $t1, $t2] is stored as 0x01494020, the [rs] and [rt] fields
    exchanged (the canonical word is what [add $t0, $t2, $t1] gives); and
    [j 0x00400000] is rejected, a numeric target being looked up as a
    label. *)
Theorem encoding_of_the_three_examples :
  map binary (instructions (load ["add $t0, $t1, $t2"])) = [0x01494020]
  /\ map binary (instructions (load ["add $t0, $t2, $t1"])) = [0x012A4020]
  /\ map binary (instructions (load ["addi $t0, $zero, 1"])) = [0x20080001]
  /\ fst (loadProgram "j 0x00400000" MIPSSimulator_constructor)
     = Throw (Error "Undefined label: 0x00400000").
Proof. vm_compute. repeat split. Qed.

(** C3.  Whatever calls the host makes on a new simulator (loading any text,
    stepping or running any number of times, resetting, switching the trace
    on or off), register 0 holds 0 when a call has returned or thrown, and it
    holds 0 in the register snapshot of every trace entry, which is taken
    after each executed instruction. *)
Theorem register_zero_reads_zero (calls : list call) :
  registers (session calls) !! 0%nat = Some 0
  /\ Forall (fun e => LogEntry.registers e !! 0%nat = Some 0)
            (debugLog (session calls)).
Proof. destruct (zeroWired_session calls) as (_ & H0 & Hlog). auto. Qed.

(** Register 0 named as the write target. *)
Example write_to_register_zero :
  reg "$zero" (steps 1 (load ["addi $zero, $zero, 5"])) = Some 0.
Proof. vm_compute. reflexivity. Qed.

(** C4, as stated, fails: with [nop] loaded, a load of the text [foo] throws
    and the instruction stream is empty afterwards. *)
Lemma load_failure_drops_loaded_program :
  let s := load ["nop"] in
  fst (loadProgram "foo" s)
    = Throw (ErrorEncoding "foo" (Error "Unknown instruction: foo"))
  /\ after (loadProgram "foo") s <> s.
Proof.
  split; [vm_compute; reflexivity |].
  intros H. apply (f_equal (fun s => length (instructions s))) in H.
  vm_compute in H. discriminate H.
Qed.

(** C4, amended.  When [loadProgram] throws, every field of the object but
    [instructions] is as before the call (registers, memory, PC, HI, LO, the
    symbol table, the flags, the counters, the trace, the touched
    addresses); [instructions] holds the records of the instructions of the
    new text that come before the first one whose encoding throws, each with
    the word, the address and the line the second loop gives it, and the
    error thrown is that of this first failing instruction. *)
Theorem load_failure_changes_instructions_only text s e :
  fst (loadProgram text s) = Throw e ->
  let lines := Str.split "010" text in
  let labels := snd (fst (firstPass lines)) in
  exists recs entry,
    after (loadProgram text) s = setInstructions s recs
    /\ map source recs = take (length recs) (parsedProgram text)
    /\ (length recs < length (parsedProgram text))%nat
    /\ (forall k rec, recs !! k = Some rec ->
          exists entry',
            parsedProgram text !! k = Some entry'
            /\ recordOf lines labels (PC s) k entry' = Ok rec)
    /\ parsedProgram text !! length recs = Some entry
    /\ recordOf lines labels (PC s) (length recs) entry = Throw e.
Proof.
  intros H lines labels. unfold after.
  destruct (loadProgram text s) as [r s'] eqn:E.
  cbn [fst snd] in H |- *. subst r.
  pose proof E as E'.
  apply loadProgram_spec in E as (recs & Hmap & _ & -> & Hlen).
  apply loadProgram_throws in E' as (recs' & entry & Hs & Hk & He & Hrec).
  fold lines in Hmap, Hlen, Hk, He, Hrec. fold labels in Hk, Hrec.
  assert (recs' = recs) as ->
    by exact (f_equal instructions (eq_sym Hs)).
  exists recs, entry. unfold parsedProgram. fold lines. auto 10.
Qed.

(** The amended C4 on a failing load: [nop] is loaded, then the text of
    [nop] and [foo], whose second line has no known mnemonic. *)
Lemma load_failure_changes_instructions_only_witness :
  let text := program ["nop"; "foo"] in
  let lines := Str.split "010" text in
  let labels := snd (fst (firstPass lines)) in
  exists recs entry,
    after (loadProgram text) (load ["nop"]) = setInstructions (load ["nop"]) recs
    /\ map source recs = take (length recs) (parsedProgram text)
    /\ (length recs < length (parsedProgram text))%nat
    /\ (forall k rec, recs !! k = Some rec ->
          exists entry',
            parsedProgram text !! k = Some entry'
            /\ recordOf lines labels (PC (load ["nop"])) k entry' = Ok rec)
    /\ parsedProgram text !! length recs = Some entry
    /\ recordOf lines labels (PC (load ["nop"])) (length recs) entry
       = Throw (ErrorEncoding "foo" (Error "Unknown instruction: foo")).
Proof.
  apply (load_failure_changes_instructions_only
           (program ["nop"; "foo"]) (load ["nop"])
           (ErrorEncoding "foo" (Error "Unknown instruction: foo"))).
  vm_compute. reflexivity.
Defined.

(** ** Sign extension of a byte *)

Lemma signExtend16_byte (b : Z) : 0 <= b < 256 -> signExtend16 b = b.
Proof.
  intros Hb. unfold signExtend16, JS.sar, JS.shl, JS.shiftCount.
  change (Z.land (JS.toUint32 16) 31) with 16.
  assert (Hi : JS.toInt32 b = b).
  { unfold JS.toInt32, JS.two32, JS.two31. rewrite Z.mod_small by lia.
    destruct (Z.ltb_spec b 2147483648); lia. }
  rewrite Hi, Z.shiftl_mul_pow2 by lia.
  assert (Hs : JS.toInt32 (b * 2 ^ 16) = b * 2 ^ 16).
  { unfold JS.toInt32, JS.two32, JS.two31. rewrite Z.mod_small by lia.
    destruct (Z.ltb_spec (b * 2 ^ 16) 2147483648); lia. }
  rewrite !Hs, Z.shiftr_div_pow2 by lia.
  apply Z.div_mul. lia.
Qed.

(** C5.  The claim: [lb] sign-extends the byte from bit 7, so that a byte
    0x80..0xFF gives 0xFFFFFF80..0xFFFFFFFF.  The code passes the byte through
    [signExtend16], which returns every byte unchanged: the byte 0x80 stored
    at address 256 is loaded as 0x00000080. *)
Theorem lb_leaves_the_byte_unextended :
  (forall b : Z, signExtend16 (b mod 256) = b mod 256)
  /\ reg "$t0" (steps 3 (load ["addi $t1, $zero, 128"; "sb $t1, 256($zero)";
                               "lb $t0, 256($zero)"])) = Some 0x80.
Proof.
  split; [| vm_compute; reflexivity].
  intros b. apply signExtend16_byte. apply Z.mod_pos_bound. lia.
Qed.

(** C6.  The claim: [div] leaves in LO the truncating signed quotient and in
    HI the remainder, with rs = LO * rt + HI.  The code takes the quotient
    with [Math.floor]: for rs = -7 and rt = 2 it leaves LO = -4 (0xFFFFFFFC)
    and HI = -1 (0xFFFFFFFF), where truncating division has LO = -3, and
    -4 * 2 + -1 is not -7. *)
Theorem div_rounds_the_quotient_down :
  let s := steps 3 (load ["addi $t1, $zero, -7"; "addi $t2, $zero, 2";
                          "div $t1, $t2"]) in
  (reg "$t1" s, reg "$t2" s, LO s, HI s)
  = (Some 0xFFFFFFF9, Some 2, 0xFFFFFFFC, Some 0xFFFFFFFF).
Proof. vm_compute. reflexivity. Qed.

(** C7.  The claim: [run] returns success with the step count when the
    program halts within 10,000 instructions, and the step-limit error only
    when 10,000 steps complete without a halt, [halted] staying false.  On a
    program whose halting [syscall] is the 10,000th instruction the code
    returns the error although the program has halted: the test after the
    loop looks at the step count alone. *)
Theorem run_reports_the_limit_after_a_halt_on_the_last_step :
  let r := run (load countdown) in
  (fst r, halted (snd r), instructionCount (snd r), reg "$v0" (snd r))
  = (Ok (Failure "Maximum step limit reached" None), true, 10000, Some 10).
Proof. vm_compute. reflexivity. Qed.

(** C8.  The claim: a new simulator has every register, every memory byte,
    HI and LO equal to 0 and PC equal to 0x00400000.  The constructor assigns
    all of these but HI, which stays [undefined] until [reset], [mult] or
    [div] assigns it: the field read by the host and copied into the state
    snapshot and the trace is [undefined], not 0 (only [mfhi], which stores
    it into a [Uint32Array], turns it into 0). *)
Theorem constructor_leaves_HI_unassigned :
  registers MIPSSimulator_constructor = replicate 32 0
  /\ memory MIPSSimulator_constructor = replicate (Z.to_nat 0x10000) 0
  /\ LO MIPSSimulator_constructor = 0
  /\ PC MIPSSimulator_constructor = 0x00400000
  /\ HI MIPSSimulator_constructor = None
  /\ HI (after reset MIPSSimulator_constructor) = Some 0
  /\ (HI (steps 1 (load ["mfhi $t0"])), reg "$t0" (steps 1 (load ["mfhi $t0"])))
     = (None, Some 0).
Proof. repeat split. Qed.

(** C9.  The claim: after a successful load the record of index [i] has the
    address [0x00400000 + 4 * i] whatever PC was.  The code stores
    [this.PC + i * 4]: a load made after one step has run stores 0x00400004
    for its first instruction. *)
Theorem load_address_starts_at_PC :
  let s := steps 1 (load ["nop"; "nop"]) in
  let r := loadProgram "nop" s in
  (PC s, fst r, map address (instructions (snd r)))
  = (0x00400004, Ok 1, [0x00400004]).
Proof. vm_compute. reflexivity. Qed.

(** C10.  The claim: [lh] and [sh] at an odd effective address clear the low
    address bit, as word accesses clear the low two.  The code uses the
    address as it is: [sh] at 257 writes bytes 257 and 258, and [lh] at 257
    reads bytes 257 and 258, while [sw] at 257 writes bytes 256 to 259. *)
Theorem halfword_access_keeps_the_odd_address :
  let s := steps 3 (load ["addi $t1, $zero, 0x1234"; "sh $t1, 257($zero)";
                          "lh $t0, 257($zero)"]) in
  let w := steps 4 (load ["lui $t1, 0x1122"; "ori $t1, $t1, 0x3344";
                          "sw $t1, 257($zero)"; "lh $t0, 257($zero)"]) in
  (memory s !! 256%nat, memory s !! 257%nat, memory s !! 258%nat,
   usedMemoryAddresses s, reg "$t0" s)
  = (Some 0, Some 0x12, Some 0x34, [257; 258], Some 0x1234)
  /\ (memory w !! 256%nat, memory w !! 257%nat, memory w !! 258%nat,
      memory w !! 259%nat, usedMemoryAddresses w, reg "$t0" w)
     = (Some 0x11, Some 0x22, Some 0x33, Some 0x44, [256; 257; 258; 259],
        Some 0x2233).
Proof. vm_compute. split; reflexivity. Qed.

(** * Further properties *)

(** ** Arithmetic of the 32-bit operators *)

Lemma toUint32_range (n : JS.number) : 0 <= JS.toUint32 n < JS.two32.
Proof.
  destruct n as [| z]; cbn; unfold JS.two32; [lia |].
  apply Z.mod_pos_bound. lia.
Qed.

Lemma toUint32_exact (z : Z) : 0 <= z < JS.two32 -> JS.toUint32 z = z.
Proof. intros H. cbn. apply Z.mod_small, H. Qed.

Lemma toInt32_range (n : JS.number) : - JS.two31 <= JS.toInt32 n < JS.two31.
Proof.
  destruct n as [| z]; cbn; unfold JS.two31, JS.two32; [lia |].
  pose proof (Z.mod_pos_bound z 4294967296 ltac:(lia)).
  destruct (Z.ltb_spec (z mod 4294967296) 2147483648); lia.
Qed.

Lemma toInt32_exact (z : Z) : - JS.two31 <= z < JS.two31 -> JS.toInt32 z = z.
Proof.
  unfold JS.toInt32, JS.two31, JS.two32. intros H.
  destruct (Z.ltb_spec (z mod 4294967296) 2147483648) as [Hlt | Hge].
  - destruct (Z.le_gt_cases 0 z).
    + apply Z.mod_small. lia.
    + exfalso. rewrite <- (Z.mod_add z 1) in Hlt by lia.
      rewrite Z.mod_small in Hlt; lia.
  - destruct (Z.le_gt_cases 0 z).
    + rewrite Z.mod_small in Hge; lia.
    + rewrite <- (Z.mod_add z 1) by lia. rewrite Z.mod_small; lia.
Qed.

(** [ToInt32] and [ToUint32] agree modulo 2^32 with the integer. *)
Lemma toInt32_mod (z : Z) : JS.toInt32 z mod JS.two32 = z mod JS.two32.
Proof.
  unfold JS.toInt32, JS.two31, JS.two32.
  destruct (_ <? _).
  - apply Z.mod_mod. lia.
  - rewrite <- (Z.mod_add (z mod 4294967296 - 4294967296) 1) by lia.
    replace (z mod 4294967296 - 4294967296 + 1 * 4294967296)
      with (z mod 4294967296) by lia.
    apply Z.mod_mod. lia.
Qed.

(** Bits that do not overlap add up. *)
Lemma lor_disjoint (hi lo k : Z) :
  0 <= k -> 0 <= lo < 2 ^ k -> Z.lor (hi * 2 ^ k) lo = hi * 2 ^ k + lo.
Proof.
  intros Hk Hlo.
  assert (Hland : Z.land (hi * 2 ^ k) lo = 0).
  { apply Z.bits_inj'. intros n Hn. rewrite Z.land_spec, Z.bits_0.
    destruct (Z.lt_ge_cases n k).
    - rewrite Z.mul_pow2_bits_low by lia. reflexivity.
    - rewrite <- (Z.mod_small lo (2 ^ k)) by lia.
      rewrite Z.mod_pow2_bits_high by lia. apply andb_false_r. }
  rewrite <- Z.lxor_lor by exact Hland.
  symmetry. apply Z.add_nocarry_lxor, Hland.
Qed.

Lemma pow2_le_two31 (k : Z) : 0 <= k <= 31 -> 0 < 2 ^ k <= JS.two31.
Proof.
  intros Hk. split; [apply Z.pow_pos_nonneg; lia |].
  change JS.two31 with (2 ^ 31). apply Z.pow_le_mono_r; lia.
Qed.

Lemma or_disjoint (hi lo k : Z) :
  0 <= k <= 31 -> 0 <= lo < 2 ^ k ->
  - JS.two31 <= hi * 2 ^ k -> hi * 2 ^ k + lo < JS.two31 ->
  JS.or (hi * 2 ^ k) lo = hi * 2 ^ k + lo.
Proof.
  intros Hk Hlo H1 H2. unfold JS.or.
  pose proof (pow2_le_two31 k Hk).
  rewrite !toInt32_exact by lia.
  apply lor_disjoint; lia.
Qed.

Lemma shiftCount_exact (k : Z) : 0 <= k < 32 -> JS.shiftCount k = k.
Proof.
  intros Hk. unfold JS.shiftCount.
  rewrite toUint32_exact by (unfold JS.two32; lia).
  change 31 with (Z.ones 5). rewrite Z.land_ones by lia.
  apply Z.mod_small. change (2 ^ 5) with 32. lia.
Qed.

Lemma shl_exact (x k : Z) :
  0 <= k < 32 -> - JS.two31 <= x < JS.two31 ->
  - JS.two31 <= x * 2 ^ k < JS.two31 ->
  JS.shl x k = x * 2 ^ k.
Proof.
  intros Hk Hx Hr. unfold JS.shl. rewrite shiftCount_exact by assumption.
  rewrite (toInt32_exact x) by assumption.
  rewrite Z.shiftl_mul_pow2 by lia. apply toInt32_exact, Hr.
Qed.

Lemma shr_exact (w k : Z) :
  0 <= k < 32 -> 0 <= w < JS.two32 -> JS.shr w k = w / 2 ^ k.
Proof.
  intros Hk Hw. unfold JS.shr. rewrite shiftCount_exact by assumption.
  rewrite (toUint32_exact w) by assumption.
  apply Z.shiftr_div_pow2. lia.
Qed.

(** [z & (2^j - 1)] keeps the low [j] bits, whatever the integer. *)
Lemma and_ones (z j : Z) :
  0 <= j <= 30 -> JS.and z (Z.ones j) = z mod 2 ^ j.
Proof.
  intros Hj. unfold JS.and.
  assert (Hpow : 0 < 2 ^ j <= 2 ^ 30)
    by (split; [apply Z.pow_pos_nonneg | apply Z.pow_le_mono_r]; lia).
  change (2 ^ 30) with 1073741824 in Hpow.
  rewrite (toInt32_exact (Z.ones j))
    by (rewrite Z.ones_equiv; unfold JS.two31; lia).
  rewrite Z.land_ones by lia.
  assert (Hdiv : (2 ^ j | JS.two32)).
  { exists (2 ^ (32 - j)). rewrite <- Z.pow_add_r by lia.
    replace (32 - j + j) with 32 by lia. reflexivity. }
  rewrite <- (Z.mod_mod_divide (JS.toInt32 z) JS.two32) by exact Hdiv.
  rewrite toInt32_mod. apply Z.mod_mod_divide, Hdiv.
Qed.

(** ** Registers *)

Lemma tableGet_Forall {A : Type} (P : A -> Prop) (table : list (string * A)) key v :
  Forall (fun kv => P (snd kv)) table -> tableGet table key = Some v -> P v.
Proof.
  induction 1 as [| [k x] table Hx _ IH]; cbn; [discriminate |].
  destruct (String.eqb k key); [intros [= <-]; exact Hx | exact IH].
Qed.

Lemma regNames_range key n : tableGet regNames key = Some n -> 0 <= n < 32.
Proof.
  apply (tableGet_Forall (fun n => 0 <= n < 32)).
  unfold regNames. repeat constructor; cbn; lia.
Qed.

Lemma parseRegister_range (v : value) (n : Z) :
  parseRegister v = Ok n -> 0 <= n < 32.
Proof.
  unfold parseRegister.
  set (reg := Str.dropFinalComma (Str.trim (valueToString v))).
  assert (Hnamed : forall r : result Z,
    r = match tableGet regNames (Str.toLowerCase reg) with
        | Some n => Ok n
        | None => Throw (Error ("Invalid register: " +:+ reg))
        end -> r = Ok n -> 0 <= n < 32).
  { intros r -> H. destruct (tableGet regNames _) eqn:E; [| discriminate H].
    injection H as ->. eapply regNames_range, E. }
  destruct reg as [| c numStr]; [discriminate |].
  destruct c as [[] [] [] [] [] [] [] []]; try discriminate.
  destruct (Str.parseInt numStr 10) as [| num]; [apply Hnamed; reflexivity |].
  match goal with |- (if ?c then _ else _) = _ -> _ => destruct c eqn:Hc end;
    [| apply Hnamed; reflexivity].
  intros [= <-].
  apply andb_prop in Hc as [Hc _]. apply andb_prop in Hc as [Hc _].
  apply andb_prop in Hc as [H0 H1]. lia.
Qed.

Ltac range := unfold JS.two31, JS.two32 in *; lia.

Lemma or_add (a b k : Z) :
  0 <= k <= 31 -> (2 ^ k | a) -> 0 <= b < 2 ^ k ->
  - JS.two31 <= a -> a + b < JS.two31 ->
  JS.or a b = a + b.
Proof.
  intros Hk [hi ->] Hb H1 H2. apply or_disjoint; assumption.
Qed.

Lemma or_zero_l (x : Z) : - JS.two31 <= x < JS.two31 -> JS.or 0 x = x.
Proof. intros Hx. unfold JS.or. rewrite (toInt32_exact x) by assumption. reflexivity. Qed.

Lemma functCodes_range key f : tableGet functCodes key = Some f -> 0 <= f < 64.
Proof.
  apply (tableGet_Forall (fun f => 0 <= f < 64)).
  unfold functCodes. repeat constructor; cbn; lia.
Qed.

Lemma opcodes_range key f : tableGet opcodes key = Some f -> 0 <= f < 64.
Proof.
  apply (tableGet_Forall (fun f => 0 <= f < 64)).
  unfold opcodes. repeat constructor; cbn; lia.
Qed.

Lemma encodeRType_word m rd rs rt (shamt w : Z) :
  encodeRType m rd rs rt shamt = Ok w -> 0 <= shamt < 32 ->
  exists d s t,
    parseRegister rd = Ok d /\ parseRegister rs = Ok s /\ parseRegister rt = Ok t
    /\ w = s * 2 ^ 21 + t * 2 ^ 16 + d * 2 ^ 11 + shamt * 2 ^ 6
           + default 0 (tableGet functCodes m).
Proof.
  unfold encodeRType. intros H Hsh.
  destruct (parseRegister rd) as [d |] eqn:Hd; [| discriminate].
  destruct (parseRegister rs) as [s |] eqn:Hs; [| discriminate].
  destruct (parseRegister rt) as [t |] eqn:Ht; [| discriminate].
  cbn [bindResult] in H. injection H as <-.
  apply parseRegister_range in Hd, Hs, Ht.
  exists d, s, t. repeat split.
  assert (Hf : 0 <= default 0 (tableGet functCodes m) < 64).
  { destruct (tableGet functCodes m) eqn:E; cbn; [| lia].
    eapply functCodes_range, E. }
  set (f := default 0 (tableGet functCodes m)) in *.
  change (default 0 (tableGet opcodes "R")) with 0.
  change (JS.or 0 (JS.shl 0 26)) with 0.
  rewrite (shl_exact s 21), (shl_exact t 16), (shl_exact d 11),
    (shl_exact shamt 6) by (unfold JS.two31; lia).
  unfold JS.two31 in *.
  rewrite (or_add 0 (s * 2 ^ 21) 31); [| lia | exists 0; lia | range ..].
  rewrite (or_add (0 + s * 2 ^ 21) (t * 2 ^ 16) 21);
    [| lia | exists s; lia | range ..].
  rewrite (or_add _ (d * 2 ^ 11) 16);
    [| lia | exists (s * 32 + t); lia | range ..].
  rewrite (or_add _ (shamt * 2 ^ 6) 11);
    [| lia | exists ((s * 32 + t) * 32 + d); lia | range ..].
  rewrite (or_add _ f 6);
    [| lia | exists (((s * 32 + t) * 32 + d) * 32 + shamt); lia | range ..].
  rewrite shr_zero. unfold JS.two32. rewrite Z.mod_small; lia.
Qed.

(** ** The decoder *)

Lemma decodeInstruction_fields (w : Z) :
  0 <= w < JS.two32 ->
  let d := decodeInstruction w in
  Decoded.opcode d = w / 2 ^ 26
  /\ Decoded.rs d = (w / 2 ^ 21) mod 32
  /\ Decoded.rt d = (w / 2 ^ 16) mod 32
  /\ Decoded.rd d = (w / 2 ^ 11) mod 32
  /\ Decoded.shamt d = (w / 2 ^ 6) mod 32
  /\ Decoded.funct d = w mod 64
  /\ Decoded.immediate d = w mod 2 ^ 16
  /\ Decoded.address d = w mod 2 ^ 26.
Proof.
  intros Hw. cbn [decodeInstruction Decoded.opcode Decoded.rs Decoded.rt
                  Decoded.rd Decoded.shamt Decoded.funct Decoded.immediate
                  Decoded.address].
  rewrite !shr_exact by (unfold JS.two32 in *; lia).
  change 0x3f with (Z.ones 6). change 0x1f with (Z.ones 5).
  change 0xffff with (Z.ones 16). change 0x3ffffff with (Z.ones 26).
  rewrite !and_ones by lia.
  repeat split.
  apply Z.mod_small. unfold JS.two32 in Hw.
  split; [apply Z.div_pos; lia | apply Z.div_lt_upper_bound; lia].
Qed.

(** ** Encoding and decoding *)

(** X2.  Decoding an R-type word gives back what [encodeRType] was given:
    opcode 0, the numbers of the three registers, the shift amount and the
    function code of the mnemonic. *)
Theorem decode_encodeRType m rd rs rt (shamt w : Z) :
  encodeRType m rd rs rt shamt = Ok w -> 0 <= shamt < 32 ->
  let d := decodeInstruction w in
  0 <= w < JS.two32
  /\ Decoded.opcode d = 0
  /\ parseRegister rs = Ok (Decoded.rs d)
  /\ parseRegister rt = Ok (Decoded.rt d)
  /\ parseRegister rd = Ok (Decoded.rd d)
  /\ Decoded.shamt d = shamt
  /\ Decoded.funct d = default 0 (tableGet functCodes m).
Proof.
  intros H Hsh d.
  destruct (encodeRType_word _ _ _ _ _ _ H Hsh)
    as (nd & ns & nt & Hd & Hs & Ht & Hw).
  assert (Hf : 0 <= default 0 (tableGet functCodes m) < 64).
  { destruct (tableGet functCodes m) eqn:E; cbn; [| lia].
    eapply functCodes_range, E. }
  set (f := default 0 (tableGet functCodes m)) in *.
  pose proof (parseRegister_range _ _ Hd). pose proof (parseRegister_range _ _ Hs).
  pose proof (parseRegister_range _ _ Ht).
  assert (Hr : 0 <= w < JS.two32) by range.
  destruct (decodeInstruction_fields w Hr) as (E1 & E2 & E3 & E4 & E5 & E6 & _).
  fold d in E1, E2, E3, E4, E5, E6.
  rewrite E1, E2, E3, E4, E5, E6, Hd, Hs, Ht.
  change (2 ^ 26) with 67108864. change (2 ^ 21) with 2097152 in *.
  change (2 ^ 16) with 65536 in *. change (2 ^ 11) with 2048 in *.
  change (2 ^ 6) with 64 in *.
  repeat split; try lia; try (f_equal); subst w;
    Z.div_mod_to_equations; lia.
Qed.

Lemma decode_encodeRType_witness :
  let d := decodeInstruction 0x012A4020 in
  0 <= 0x012A4020 < JS.two32
  /\ Decoded.opcode d = 0
  /\ parseRegister (VStr "$t1") = Ok (Decoded.rs d)
  /\ parseRegister (VStr "$t2") = Ok (Decoded.rt d)
  /\ parseRegister (VStr "$t0") = Ok (Decoded.rd d)
  /\ Decoded.shamt d = 0
  /\ Decoded.funct d = default 0 (tableGet functCodes "add").
Proof.
  apply (decode_encodeRType "add" (VStr "$t0") (VStr "$t1") (VStr "$t2") 0);
    [vm_compute; reflexivity | lia].
Defined.

Lemma toInt32_period (z k : Z) : JS.toInt32 (z + k * JS.two32) = JS.toInt32 z.
Proof.
  unfold JS.toInt32. rewrite Z.mod_add by (unfold JS.two32; lia). reflexivity.
Qed.

(** The opcode field: [opcode << 26] is negative for an opcode above 31. *)
Lemma shl_opcode (op : Z) :
  0 <= op < 64 ->
  JS.shl op 26 = (if op <? 32 then op else op - 64) * 2 ^ 26.
Proof.
  intros Hop. unfold JS.shl. rewrite shiftCount_exact by lia.
  rewrite (toInt32_exact op) by range.
  rewrite Z.shiftl_mul_pow2 by lia.
  destruct (Z.ltb_spec op 32).
  - apply toInt32_exact. range.
  - replace (op * 2 ^ 26) with ((op - 64) * 2 ^ 26 + 1 * JS.two32) by range.
    rewrite toInt32_period. apply toInt32_exact. range.
Qed.

Lemma immediate_bits (imm : JS.number) :
  JS.and (if JS.ltb imm 0 then JS.Num (JS.and imm 0xffff) else imm) 0xffff
  = low16 imm.
Proof.
  assert (Hdiv : (2 ^ 16 | JS.two32)) by (exists (2 ^ 16); reflexivity).
  destruct imm as [| z]; [reflexivity |].
  unfold low16. cbn [JS.toUint32]. rewrite Z.mod_mod_divide by exact Hdiv.
  change 0xffff with (Z.ones 16).
  destruct (JS.ltb z 0); rewrite !and_ones by lia; [| reflexivity].
  apply Z.mod_mod. lia.
Qed.

(** The opcode field of a mnemonic: its own entry of the table, and 0 for a
    name the table only inherits, which [<<] takes as [NaN]. *)
Lemma opcode_field (m : string) :
  JS.shl (propertyNumber (tableProperty opcodes m)) 26
  = JS.shl (default 0 (tableGet opcodes m)) 26
  /\ 0 <= default 0 (tableGet opcodes m) < 64.
Proof.
  unfold tableProperty. destruct (tableGet opcodes m) as [op |] eqn:Hop.
  - split; [reflexivity |]. eapply opcodes_range, Hop.
  - split; [destruct (existsb _ _); reflexivity | cbn; lia].
Qed.

Lemma encodeIType_word m rt rs imm (w : Z) :
  encodeIType m rt rs imm = Ok w ->
  exists t s n,
    parseRegister rt = Ok t
    /\ parseRegister rs = Ok s /\ parseImmediate imm = Ok n
    /\ w = default 0 (tableGet opcodes m) * 2 ^ 26
           + s * 2 ^ 21 + t * 2 ^ 16 + low16 n.
Proof.
  unfold encodeIType. intros H.
  destruct (opcode_field m) as [Hshl Hop].
  set (op := default 0 (tableGet opcodes m)) in *.
  assert (H' : (let* rtNum := parseRegister rt in
                let* rsNum := parseRegister rs in
                let* imm0 := parseImmediate imm in
                Ok (JS.shr
                      (JS.or (JS.or (JS.or (JS.or 0 (JS.shl op 26))
                                           (JS.shl rsNum 21))
                                    (JS.shl rtNum 16))
                             (JS.and (if JS.ltb imm0 0
                                      then JS.Num (JS.and imm0 0xffff)
                                      else imm0) 0xffff)) 0)) = Ok w).
  { rewrite <- Hshl. destruct (tableProperty opcodes m);
      [discriminate H | exact H | exact H]. }
  clear H Hshl. rename H' into H.
  destruct (parseRegister rt) as [t |] eqn:Ht; [| discriminate].
  destruct (parseRegister rs) as [s |] eqn:Hs; [| discriminate].
  destruct (parseImmediate imm) as [n |] eqn:Hn; [| discriminate].
  cbn [bindResult] in H. injection H as <-.
  exists t, s, n. repeat split.
  apply parseRegister_range in Ht, Hs.
  rewrite immediate_bits.
  assert (Hl : 0 <= low16 n < 2 ^ 16)
    by (unfold low16; apply Z.mod_pos_bound; lia).
  set (l := low16 n) in *.
  rewrite shl_opcode by assumption.
  rewrite (shl_exact s 21), (shl_exact t 16) by range.
  set (hi := if op <? 32 then op else op - 64).
  assert (Hhi : -32 <= hi < 32 /\ (hi = op \/ hi = op - 64))
    by (unfold hi; destruct (Z.ltb_spec op 32); lia).
  clearbody hi. rewrite (or_zero_l (hi * 2 ^ 26)) by range.
  rewrite (or_add _ (s * 2 ^ 21) 26); [| lia | exists hi; lia | range ..].
  rewrite (or_add _ (t * 2 ^ 16) 21);
    [| lia | exists (hi * 32 + s); lia | range ..].
  rewrite (or_add _ l 16);
    [| lia | exists ((hi * 32 + s) * 32 + t); lia | range ..].
  rewrite shr_zero. destruct Hhi as [Hhi [-> | ->]].
  - rewrite Z.mod_small; range.
  - rewrite <- (Z.mod_add _ 1) by range. rewrite Z.mod_small; range.
Qed.

(** A number in the signed 16-bit range comes back from its low 16 bits. *)
Lemma signExtend16_low16 (z : Z) :
  - 2 ^ 15 <= z < 2 ^ 15 -> signExtend16 (low16 z) = z.
Proof.
  intros Hz. unfold signExtend16, JS.sar, low16. cbn [JS.toUint32].
  assert (Hdiv : (2 ^ 16 | JS.two32)) by (exists (2 ^ 16); reflexivity).
  rewrite Z.mod_mod_divide by exact Hdiv.
  rewrite shiftCount_exact by lia.
  assert (Hl : 0 <= z mod 2 ^ 16 < 2 ^ 16) by (apply Z.mod_pos_bound; lia).
  unfold JS.shl. rewrite shiftCount_exact by lia.
  rewrite (toInt32_exact (z mod 2 ^ 16)) by range.
  rewrite Z.shiftl_mul_pow2 by lia.
  assert (Hs : JS.toInt32 (z mod 2 ^ 16 * 2 ^ 16) = z * 2 ^ 16).
  { destruct (Z.le_gt_cases 0 z).
    - rewrite Z.mod_small by lia. apply toInt32_exact. range.
    - rewrite <- (Z.mod_add z 1) by lia. rewrite Z.mod_small by lia.
      replace ((z + 1 * 2 ^ 16) * 2 ^ 16) with (z * 2 ^ 16 + 1 * JS.two32)
        by range.
      rewrite toInt32_period. apply toInt32_exact. range. }
  rewrite Hs, toInt32_exact by range.
  rewrite Z.shiftr_div_pow2 by lia. apply Z.div_mul. lia.
Qed.

Lemma decode_encodeIType m rt rs imm (w : Z) :
  encodeIType m rt rs imm = Ok w ->
  let d := decodeInstruction w in
  0 <= w < JS.two32
  /\ Decoded.opcode d = default 0 (tableGet opcodes m)
  /\ parseRegister rs = Ok (Decoded.rs d)
  /\ parseRegister rt = Ok (Decoded.rt d)
  /\ exists n, parseImmediate imm = Ok n /\ Decoded.immediate d = low16 n.
Proof.
  intros H d.
  destruct (encodeIType_word _ _ _ _ _ H) as (t & s & n & Ht & Hs & Hn & Hw).
  destruct (opcode_field m) as [_ Hop].
  set (op := default 0 (tableGet opcodes m)) in *.
  pose proof (parseRegister_range _ _ Ht).
  pose proof (parseRegister_range _ _ Hs).
  assert (Hl : 0 <= low16 n < 2 ^ 16)
    by (unfold low16; apply Z.mod_pos_bound; lia).
  set (l := low16 n) in *.
  assert (Hr : 0 <= w < JS.two32) by range.
  destruct (decodeInstruction_fields w Hr) as (E1 & E2 & E3 & _ & _ & _ & E7 & _).
  fold d in E1, E2, E3, E7.
  rewrite E1, E2, E3, Hs, Ht.
  change (2 ^ 26) with 67108864 in *. change (2 ^ 21) with 2097152 in *.
  change (2 ^ 16) with 65536 in *.
  repeat split; try lia; try f_equal; try (subst w; Z.div_mod_to_equations; lia).
  exists n. split; [assumption |]. rewrite E7. subst w.
  Z.div_mod_to_equations; lia.
Qed.

(** The offset a resolved branch carries. *)
Lemma resolveBranch_offset lbls (i : Z) m ra rb key t w :
  (m = "beq" \/ m = "bne") ->
  resolveBranch lbls i m [ra; rb; VStr key] = Ok w ->
  labelsGet lbls key = Own t ->
  - 2 ^ 15 <= t - i - 1 < 2 ^ 15 ->
  0 <= w < JS.two32
  /\ signExtend16 (Decoded.immediate (decodeInstruction w)) = t - i - 1
  /\ (exists x, parseRegister ra = Ok x) /\ (exists y, parseRegister rb = Ok y).
Proof.
  intros Hm H Hl Hr. unfold resolveBranch in H.
  cbn [length Nat.sub argAt nth] in H. rewrite Hl in H.
  replace (String.eqb m "beq" || String.eqb m "bne") with true in H
    by (destruct Hm as [-> | ->]; reflexivity).
  cbn in H.
  destruct (decode_encodeIType _ _ _ _ _ H) as (Hw & _ & Hs & Ht & n & Hn & Hi).
  injection Hn as <-. rewrite Hi.
  split; [exact Hw |]. split; [apply signExtend16_low16, Hr |]. eauto.
Qed.

Lemma fetch_index (s : MIPSSimulator) (i : nat) ins :
  PC s = 0x00400000 + Z.of_nat i * 4 ->
  Z.of_nat i < 2 ^ 30 ->
  nth_error (instructions s) i = Some ins ->
  JS.shr (PC s - 0x00400000) 2 = Z.of_nat i
  /\ ((Z.of_nat i <? 0) || (Z.of_nat i >=? Z.of_nat (length (instructions s)))) = false.
Proof.
  intros HPC Hi Hins. split.
  - rewrite HPC. replace (0x00400000 + Z.of_nat i * 4 - 0x00400000)
      with (Z.of_nat i * 4) by lia.
    rewrite shr_exact by range. change (2 ^ 2) with 4. apply Z.div_mul. lia.
  - assert (i < length (instructions s))%nat
      by (apply nth_error_Some; congruence).
    apply orb_false_iff. split; [apply Z.ltb_ge; lia |].
    rewrite Z.geb_leb. apply Z.leb_gt. lia.
Qed.

Lemma logDebug_frame ins r pc s :
  fst (logDebug ins r pc s) = Ok tt
  /\ PC (snd (logDebug ins r pc s)) = PC s
  /\ registers (snd (logDebug ins r pc s)) = registers s.
Proof. unfold logDebug. destruct (_ || _); repeat split. Qed.

(** [step] on a loaded, running simulator whose PC points at instruction
    [i]: it executes that instruction; PC and the registers are what the
    instruction left. *)
Lemma step_fetches s (i : nat) ins :
  loaded s = true -> halted s = false ->
  PC s = 0x00400000 + Z.of_nat i * 4 -> Z.of_nat i < 2 ^ 30 ->
  nth_error (instructions s) i = Some ins ->
  PC (after step s) = PC (after (executeInstruction (Some ins) (PC s)) s)
  /\ registers (after step s)
     = registers (after (executeInstruction (Some ins) (PC s)) s).
Proof.
  intros Hl Hh HPC Hi Hins.
  destruct (fetch_index _ _ _ HPC Hi Hins) as [Hidx Hin].
  unfold after. destruct (step s) as [r s'] eqn:Hstep. unfold step in Hstep.
  rewrite Hl, Hh in Hstep. cbn [negb orb] in Hstep.
  rewrite Hidx, Hin, Nat2Z.id, Hins in Hstep.
  apply bind_inv in Hstep as [(x & s1 & E & H) | (e & E & _)]; rewrite E;
    [| split; reflexivity].
  apply bind_inv in H as [(dbg & s2 & [= <- <-] & H) | (e & [=] & _)].
  destruct (logDebug_frame ins x (PC s) s1) as (H1 & H2 & H3).
  apply bind_inv in H as [(u & s2 & Hlog & [= _ <-]) | (e & Hlog & _)];
    destruct (debugMode s1);
    try (injection Hlog as _ <-; split; reflexivity);
    try discriminate Hlog;
    rewrite Hlog in H1, H2, H3; cbn in *;
    first [split; assumption | discriminate H1].
Qed.

(** X5.  A [beq] or [bne] whose condition holds moves PC to the instruction
    its label stands for: the word [loadProgram] stored for instruction [i]
    carries the offset [t - i - 1], and [step] adds it, times 4, to PC + 4. *)
Theorem taken_branch_reaches_label
    s (i : nat) m ra rb key lbl w addr orig lbls t x y :
  loaded s = true -> halted s = false ->
  PC s = 0x00400000 + Z.of_nat i * 4 -> Z.of_nat i < 2 ^ 30 ->
  nth_error (instructions s) i
    = Some {| mnemonic := m; args := [ra; rb; VStr key]; label := lbl;
              binary := w; address := addr; originalLine := orig |} ->
  (m = "beq" \/ m = "bne") ->
  resolveBranch lbls (Z.of_nat i) m [ra; rb; VStr key] = Ok w ->
  labelsGet lbls key = Own t ->
  - 2 ^ 15 <= t - Z.of_nat i - 1 < 2 ^ 15 ->
  parseRegister ra = Ok x -> parseRegister rb = Ok y ->
  (if String.eqb m "beq"
   then nth (Z.to_nat x) (registers s) 0 =? nth (Z.to_nat y) (registers s) 0
   else negb (nth (Z.to_nat x) (registers s) 0 =? nth (Z.to_nat y) (registers s) 0))
  = true ->
  PC (after step s) = 0x00400000 + t * 4.
Proof.
  intros Hl Hh HPC Hi Hins Hm Hres Hlab Hoff Hx Hy Htaken.
  destruct (resolveBranch_offset _ _ _ _ _ _ _ _ Hm Hres Hlab Hoff)
    as (_ & Himm & _).
  destruct (step_fetches _ _ _ Hl Hh HPC Hi Hins) as [-> _].
  unfold after, executeInstruction. cbn [mnemonic args binary].
  assert (Hcase : switchOn m = Some BEQ /\ String.eqb m "beq" = true
                  \/ switchOn m = Some BNE /\ String.eqb m "beq" = false)
    by (destruct Hm as [-> | ->]; [left | right]; split; reflexivity).
  destruct Hcase as [[-> Hb] | [-> Hb]]; rewrite Hb in Htaken;
    cbv beta iota zeta delta [executeCase];
    unfold readReg, regIndex, bind, lift, gets, writeReg, modify, ret;
    cbn [argAt nth]; rewrite Hx, Hy, Htaken, Himm;
    cbn [fst snd PC setRegisters setPC setCycle setInstructionCount];
    rewrite shl_exact by range; rewrite HPC; change (2 ^ 2) with 4; lia.
Qed.

(** The second instruction of a two-line loop, whose [beq] compares two
    registers that hold 0. *)
Lemma taken_branch_reaches_label_witness :
  PC (after step (steps 1 (load ["loop: addi $t0, $zero, 0";
                                 "beq $t0, $zero, loop"])))
  = 0x00400000 + 0 * 4.
Proof.
  apply (taken_branch_reaches_label
           (steps 1 (load ["loop: addi $t0, $zero, 0"; "beq $t0, $zero, loop"]))
           1 "beq" (VStr "$t0") (VStr "$zero") "loop" None 269025278
           0x00400004 "beq $t0, $zero, loop"
           (labelsSet (∅ : gmap string Z) "loop" 0) 0 8 0);
    first [ lia | left; reflexivity | vm_compute; reflexivity ].
Defined.

(** ** Jumps *)

Lemma and_upper_bits (x : Z) : 0 <= x < 2 ^ 28 -> JS.and x 0xf0000000 = 0.
Proof.
  intros Hx. unfold JS.and. rewrite (toInt32_exact x) by range.
  change (JS.toInt32 0xf0000000) with (-1 * 2 ^ 28).
  apply Z.bits_inj'. intros n Hn. rewrite Z.land_spec, Z.bits_0.
  destruct (Z.lt_ge_cases n 28).
  - rewrite Z.mul_pow2_bits_low by lia. apply andb_false_r.
  - rewrite <- (Z.mod_small x (2 ^ 28)) by lia.
    rewrite Z.mod_pow2_bits_high by lia. reflexivity.
Qed.

Lemma encodeJType_word m (addr w : Z) :
  encodeJType m addr = Ok w -> 0 <= addr < 2 ^ 28 ->
  exists op,
    op = default 0 (tableGet opcodes m) /\ 0 <= op < 64
    /\ w = op * 2 ^ 26 + addr / 4.
Proof.
  unfold encodeJType. intros H Ha.
  destruct (opcode_field m) as [Hshl Hop].
  set (op := default 0 (tableGet opcodes m)) in *.
  assert (H' : Ok (JS.shr (JS.or (JS.or 0 (JS.shl op 26))
                                 (JS.and (JS.shr addr 2) 0x3ffffff)) 0)
               = Ok w).
  { rewrite <- Hshl. destruct (tableProperty opcodes m);
      [discriminate H | exact H | exact H]. }
  clear H Hshl. injection H' as <-. exists op.
  split; [reflexivity |]. split; [exact Hop |]. clearbody op.
  rewrite (shr_exact addr 2) by range. change (2 ^ 2) with 4.
  change 0x3ffffff with (Z.ones 26). rewrite and_ones by lia.
  assert (Hq : 0 <= addr / 4 < 2 ^ 26)
    by (change (2 ^ 28) with 268435456 in Ha; change (2 ^ 26) with 67108864;
        Z.div_mod_to_equations; lia).
  rewrite (Z.mod_small (addr / 4)) by exact Hq.
  set (q := addr / 4) in *. clearbody q.
  rewrite shl_opcode by assumption.
  set (hi := if op <? 32 then op else op - 64).
  assert (Hhi : -32 <= hi < 32 /\ (hi = op \/ hi = op - 64))
    by (unfold hi; destruct (Z.ltb_spec op 32); lia).
  clearbody hi. rewrite (or_zero_l (hi * 2 ^ 26)) by range.
  rewrite (or_add _ q 26); [| lia | exists hi; lia | range ..].
  rewrite shr_zero. destruct Hhi as [Hhi [-> | ->]].
  - rewrite Z.mod_small; range.
  - rewrite <- (Z.mod_add _ 1) by range. rewrite Z.mod_small; range.
Qed.

(** The target a resolved jump carries. *)
Lemma resolveJump_target lbls m key t w :
  resolveJump lbls m [VStr key] = Ok w ->
  labelsGet lbls key = Own t ->
  0 <= t -> 0x00400000 + t * 4 < 2 ^ 28 ->
  0 <= w < JS.two32
  /\ JS.shl (Decoded.address (decodeInstruction w)) 2 = 0x00400000 + t * 4.
Proof.
  intros H Hl Ht Hr. unfold resolveJump in H. cbn [argAt nth] in H.
  rewrite Hl in H. cbn [propertyNumber JS.mul JS.add] in H.
  apply encodeJType_word in H as (op & _ & Hop & ->); [| lia].
  assert (Hq : (0x00400000 + t * 4) / 4 = 0x00100000 + t)
    by (Z.div_mod_to_equations; lia).
  rewrite Hq.
  assert (Hw : 0 <= op * 2 ^ 26 + (1048576 + t) < JS.two32) by range.
  split; [exact Hw |].
  destruct (decodeInstruction_fields _ Hw) as (_ & _ & _ & _ & _ & _ & _ & ->).
  replace ((op * 2 ^ 26 + (1048576 + t)) mod 2 ^ 26) with (1048576 + t).
  - rewrite shl_exact by range. change (2 ^ 2) with 4. lia.
  - change (2 ^ 26) with 67108864. Z.div_mod_to_equations. range.
Qed.

(** X6.  [j] and [jal] move PC to the instruction their label stands for,
    when code lies below 2^28; [jal] leaves the address of the next
    instruction in register 31. *)
Theorem jump_reaches_label s (i : nat) m key lbl w addr orig lbls t :
  loaded s = true -> halted s = false ->
  PC s = 0x00400000 + Z.of_nat i * 4 -> PC s + 4 < 2 ^ 28 ->
  nth_error (instructions s) i
    = Some {| mnemonic := m; args := [VStr key]; label := lbl;
              binary := w; address := addr; originalLine := orig |} ->
  (m = "j" \/ m = "jal") ->
  resolveJump lbls m [VStr key] = Ok w ->
  labelsGet lbls key = Own t ->
  0 <= t -> 0x00400000 + t * 4 < 2 ^ 28 ->
  PC (after step s) = 0x00400000 + t * 4
  /\ registers (after step s)
     = <[0%nat := 0]>
         (if String.eqb m "jal" then <[31%nat := PC s + 4]> (registers s)
          else registers s).
Proof.
  intros Hl Hh HPC Hpc Hins Hm Hres Hlab Ht Hr.
  destruct (resolveJump_target _ _ _ _ _ Hres Hlab Ht Hr) as [_ Htarget].
  assert (Hi : Z.of_nat i < 2 ^ 30) by range.
  destruct (step_fetches _ _ _ Hl Hh HPC Hi Hins) as [-> ->].
  unfold after, executeInstruction. cbn [mnemonic args binary].
  assert (Hup : JS.and (PC s + 4) 0xf0000000 = 0)
    by (apply and_upper_bits; lia).
  destruct Hm as [-> | ->].
  - change (switchOn "j") with (Some J).
    cbv beta iota zeta delta [executeCase].
    unfold bind, gets, writeReg, modify, ret.
    cbn [fst snd PC registers setRegisters setPC setCycle setInstructionCount].
    rewrite Hup, Htarget. split; [| reflexivity].
    apply or_zero_l. range.
  - change (switchOn "jal") with (Some JAL).
    cbv beta iota zeta delta [executeCase].
    unfold bind, gets, writeReg, modify, ret.
    cbn [fst snd PC registers setRegisters setPC setCycle setInstructionCount].
    rewrite Hup, Htarget. split; [apply or_zero_l; range |].
    change (String.eqb "jal" "jal") with true.
    rewrite shr_zero, toUint32_mod, Z.mod_small by range. reflexivity.
Qed.

(** A [jal] over one instruction. *)
Lemma jump_reaches_label_witness :
  let s := steps 1 (load ["nop"; "jal end"; "nop"; "end: nop"]) in
  PC (after step s) = 0x00400000 + 3 * 4
  /\ registers (after step s)
     = <[0%nat := 0]>
         (if String.eqb "jal" "jal" then <[31%nat := PC s + 4]> (registers s)
          else registers s).
Proof.
  apply (jump_reaches_label
           (steps 1 (load ["nop"; "jal end"; "nop"; "end: nop"]))
           1 "jal" "end" None 202375171 0x00400004 "jal end"
           (labelsSet (∅ : gmap string Z) "end" 3) 3);
    first [ lia | right; reflexivity | vm_compute; reflexivity ].
Defined.

(** ** Memory *)

Lemma shr_range (n k : JS.number) : 0 <= JS.shr n k < JS.two32.
Proof.
  unfold JS.shr. pose proof (toUint32_range n) as Hn.
  assert (Hk : 0 <= JS.shiftCount k).
  { unfold JS.shiftCount. apply Z.land_nonneg. right. lia. }
  rewrite Z.shiftr_div_pow2 by exact Hk.
  assert (0 < 2 ^ JS.shiftCount k) by (apply Z.pow_pos_nonneg; lia).
  split; [apply Z.div_pos; lia |].
  apply Z.le_lt_trans with (JS.toUint32 n); [| lia].
  apply Z.div_le_upper_bound; nia.
Qed.

Lemma and_byte (z : Z) : JS.and z 0xff = z mod 256.
Proof. change 0xff with (Z.ones 8). rewrite and_ones by lia. reflexivity. Qed.

Lemma and_byte_range (n : JS.number) : 0 <= JS.and n 0xff < 256.
Proof.
  destruct n as [| z]; [change (JS.and JS.NaN 0xff) with 0; lia |].
  rewrite and_byte.
  apply Z.mod_pos_bound. lia.
Qed.

(** X8.  [readMemory] after [writeMemory] at the same address returns the
    low 8 bits of the value when the address is inside the array, and 0 when
    it is outside: the write was dropped, and nothing is thrown. *)
Theorem readMemory_writeMemory (a : JS.number) (v : Z) s :
  fst (readMemory a (after (writeMemory a v) s))
  = Ok (if JS.shr a 0 <? Z.of_nat (length (memory s)) then v mod 256 else 0).
Proof.
  unfold after, writeMemory, readMemory. pose proof (shr_range a 0) as Ha.
  destruct (Z.ltb_spec (JS.shr a 0) (Z.of_nat (length (memory s)))) as [Hin | Hout];
    cbn [fst snd memory setMemory setUsedMemoryAddresses].
  - rewrite length_insert.
    destruct (Z.ltb_spec (JS.shr a 0) (Z.of_nat (length (memory s)))); [| lia].
    cbn [fst]. f_equal. rewrite nth_lookup, list_lookup_insert_eq by lia.
    cbn. rewrite and_byte. apply Z.mod_mod. lia.
  - destruct (Z.ltb_spec (JS.shr a 0) (Z.of_nat (length (memory s)))); [lia |].
    reflexivity.
Qed.

(** A write outside the array changes nothing. *)
Lemma writeMemory_outside (a v : JS.number) s :
  Z.of_nat (length (memory s)) <= JS.shr a 0 ->
  writeMemory a v s = (Ok tt, s).
Proof.
  intros H. unfold writeMemory.
  destruct (Z.ltb_spec (JS.shr a 0) (Z.of_nat (length (memory s)))); [lia |].
  reflexivity.
Qed.

Lemma readMemory_outside (a : JS.number) s :
  Z.of_nat (length (memory s)) <= JS.shr a 0 ->
  readMemory a s = (Ok 0, s).
Proof.
  intros H. unfold readMemory.
  destruct (Z.ltb_spec (JS.shr a 0) (Z.of_nat (length (memory s)))); [lia |].
  reflexivity.
Qed.

(** [writeMemory] leaves the other bytes as they are. *)
Lemma writeMemory_other (a v : JS.number) (k : nat) s :
  Z.of_nat k <> JS.shr a 0 ->
  memory (after (writeMemory a v) s) !! k = memory s !! k.
Proof.
  intros Hk. unfold after, writeMemory. destruct (_ <? _); [| reflexivity].
  cbn [snd memory setMemory setUsedMemoryAddresses].
  apply list_lookup_insert_ne. pose proof (shr_range a 0). lia.
Qed.

Lemma shr_div (v k : Z) : 0 <= k < 32 -> JS.shr v k = (v mod JS.two32) / 2 ^ k.
Proof.
  intros Hk. unfold JS.shr. rewrite shiftCount_exact by assumption.
  apply Z.shiftr_div_pow2. lia.
Qed.

Lemma toInt32_cases (z : Z) :
  JS.toInt32 z = z mod JS.two32 \/ JS.toInt32 z = z mod JS.two32 - JS.two32.
Proof. unfold JS.toInt32. destruct (_ <? _); auto. Qed.

(** Four bytes, most significant first, make the signed word back. *)
Lemma word_of_bytes (u : Z) :
  0 <= u < JS.two32 ->
  JS.or (JS.or (JS.or (JS.shl (u / 2 ^ 24) 24)
                      (JS.shl ((u / 2 ^ 16) mod 256) 16))
               (JS.shl ((u / 2 ^ 8) mod 256) 8))
        (u mod 256)
  = JS.toInt32 u.
Proof.
  intros Hu. unfold JS.two32 in Hu.
  change (2 ^ 24) with 16777216. change (2 ^ 16) with 65536.
  change (2 ^ 8) with 256.
  assert (H0 : 0 <= u / 16777216 < 256) by (Z.div_mod_to_equations; lia).
  assert (H1 : 0 <= (u / 65536) mod 256 < 256) by (apply Z.mod_pos_bound; lia).
  assert (H2 : 0 <= (u / 256) mod 256 < 256) by (apply Z.mod_pos_bound; lia).
  assert (H3 : 0 <= u mod 256 < 256) by (apply Z.mod_pos_bound; lia).
  assert (Hsum : u = u / 16777216 * 16777216 + (u / 65536) mod 256 * 65536
                     + (u / 256) mod 256 * 256 + u mod 256)
    by (Z.div_mod_to_equations; lia).
  set (b0 := u / 16777216) in *. set (b1 := (u / 65536) mod 256) in *.
  set (b2 := (u / 256) mod 256) in *. set (b3 := u mod 256) in *.
  clearbody b0 b1 b2 b3.
  assert (Hshl : JS.shl b0 24 = (if b0 <? 128 then b0 else b0 - 256) * 2 ^ 24).
  { unfold JS.shl. rewrite shiftCount_exact by lia.
    rewrite (toInt32_exact b0) by range. rewrite Z.shiftl_mul_pow2 by lia.
    destruct (Z.ltb_spec b0 128).
    - apply toInt32_exact. range.
    - replace (b0 * 2 ^ 24) with ((b0 - 256) * 2 ^ 24 + 1 * JS.two32) by range.
      rewrite toInt32_period. apply toInt32_exact. range. }
  rewrite Hshl, (shl_exact b1 16), (shl_exact b2 8) by range.
  set (hi := if b0 <? 128 then b0 else b0 - 256).
  assert (Hhi : hi = b0 /\ b0 < 128 \/ hi = b0 - 256 /\ 128 <= b0)
    by (unfold hi; destruct (Z.ltb_spec b0 128); lia).
  clearbody hi.
  rewrite (or_add _ (b1 * 2 ^ 16) 24); [| lia | exists hi; lia | range ..].
  rewrite (or_add _ (b2 * 2 ^ 8) 16);
    [| lia | exists (hi * 256 + b1); lia | range ..].
  rewrite (or_add _ b3 8);
    [| lia | exists ((hi * 256 + b1) * 256 + b2); lia | range ..].
  destruct Hhi as [[-> Hlt] | [-> Hge]].
  - rewrite toInt32_exact by range. range.
  - rewrite <- (toInt32_period u (-1)), toInt32_exact by range. range.
Qed.

Lemma writeMemory_inside (a : JS.number) (v : Z) s :
  JS.shr a 0 < Z.of_nat (length (memory s)) ->
  writeMemory a v s
  = (Ok tt,
     setUsedMemoryAddresses
       (setMemory s (<[Z.to_nat (JS.shr a 0) := v mod 256]> (memory s)))
       (setAdd (JS.shr a 0) (usedMemoryAddresses s))).
Proof.
  intros H. unfold writeMemory.
  destruct (Z.ltb_spec (JS.shr a 0) (Z.of_nat (length (memory s)))); [| lia].
  rewrite and_byte, Z.mod_mod by lia. reflexivity.
Qed.

Lemma readMemory_inside (a : JS.number) s :
  JS.shr a 0 < Z.of_nat (length (memory s)) ->
  readMemory a s
  = (Ok (nth (Z.to_nat (JS.shr a 0)) (memory s) 0),
     setUsedMemoryAddresses s (setAdd (JS.shr a 0) (usedMemoryAddresses s))).
Proof.
  intros H. unfold readMemory.
  destruct (Z.ltb_spec (JS.shr a 0) (Z.of_nat (length (memory s)))); [| lia].
  reflexivity.
Qed.

Lemma readWord_after_writeWord (a : JS.number) (v : Z) s :
  let A := JS.and a (JS.not 3) in
  0 <= A -> A + 3 < Z.of_nat (length (memory s)) ->
  Z.of_nat (length (memory s)) <= JS.two32 ->
  fst (readWord a (after (writeWord a v) s)) = Ok (JS.toInt32 v)
  /\ let u := v mod JS.two32 in
     let m := memory (after (writeWord a v) s) in
     m !! Z.to_nat A = Some (u / 2 ^ 24)
     /\ m !! Z.to_nat (A + 1) = Some ((u / 2 ^ 16) mod 256)
     /\ m !! Z.to_nat (A + 2) = Some ((u / 2 ^ 8) mod 256)
     /\ m !! Z.to_nat (A + 3) = Some (u mod 256).
Proof.
  intros A HA Hin Hlen.
  assert (Haddr : forall k, 0 <= k <= 3 -> JS.shr (A + k) 0 = A + k)
    by (intros k Hk; rewrite shr_zero; apply Z.mod_small; lia).
  unfold after, writeWord, readWord. fold A. unfold bind.
  replace (JS.Num A) with (JS.Num (A + 0)) by (f_equal; lia).
  rewrite !and_byte, !shr_div by lia.
  repeat (rewrite writeMemory_inside;
          cbn [memory setMemory setUsedMemoryAddresses];
          rewrite ?length_insert, ?Haddr by lia; [| lia]).
  cbn [snd].
  repeat (rewrite readMemory_inside;
          cbn [memory setMemory setUsedMemoryAddresses];
          rewrite ?length_insert, ?Haddr by lia; [| lia]).
  cbn [fst snd memory setMemory setUsedMemoryAddresses].
  set (u := v mod JS.two32).
  assert (Hu : 0 <= u < JS.two32) by (apply Z.mod_pos_bound; range).
  assert (H0 : (u / 2 ^ 24) mod 256 = u / 2 ^ 24).
  { apply Z.mod_small. change (2 ^ 24) with 16777216. unfold JS.two32 in Hu.
    Z.div_mod_to_equations; lia. }
  assert (H3 : v mod 256 = u mod 256).
  { unfold u. symmetry. apply Z.mod_mod_divide. exists (2 ^ 24). reflexivity. }
  rewrite !Z.mod_mod by lia. rewrite H0, H3.
  rewrite !nth_lookup.
  repeat (rewrite ?list_lookup_insert_eq, ?list_lookup_insert_ne
            by (rewrite ?length_insert; lia)).
  cbn [default from_option]. unfold id.
  split.
  - unfold ret. cbn [fst]. f_equal. rewrite word_of_bytes by exact Hu.
    unfold JS.toInt32 at 1. cbn [JS.toInt32]. unfold u.
    rewrite Z.mod_mod by range. reflexivity.
  - replace (A + 0) with A by lia.
    repeat split;
      repeat (rewrite ?list_lookup_insert_eq, ?list_lookup_insert_ne
                by (rewrite ?length_insert; lia));
      reflexivity.
Qed.

(** X9.  [readWord] after [writeWord] at the same address returns the value
    as a signed 32-bit number; the four bytes lie at the address rounded
    down to a multiple of 4, most significant first. *)
Theorem readWord_writeWord (a : JS.number) (v : Z) s :
  let A := JS.and a (JS.not 3) in
  0 <= A -> A + 3 < Z.of_nat (length (memory s)) ->
  Z.of_nat (length (memory s)) <= JS.two32 ->
  fst (readWord a (after (writeWord a v) s)) = Ok (JS.toInt32 v)
  /\ let u := v mod JS.two32 in
     let m := memory (after (writeWord a v) s) in
     m !! Z.to_nat A = Some (u / 2 ^ 24)
     /\ m !! Z.to_nat (A + 1) = Some ((u / 2 ^ 16) mod 256)
     /\ m !! Z.to_nat (A + 2) = Some ((u / 2 ^ 8) mod 256)
     /\ m !! Z.to_nat (A + 3) = Some (u mod 256).
Proof. intros A H0 H3 Hlen. apply readWord_after_writeWord; assumption. Qed.

Lemma readWord_writeWord_witness :
  let A := JS.and 258 (JS.not 3) in
  let s := MIPSSimulator_constructor in
  fst (readWord 258 (after (writeWord 258 0x89ABCDEF) s))
  = Ok (JS.toInt32 0x89ABCDEF)
  /\ let u := 0x89ABCDEF mod JS.two32 in
     let m := memory (after (writeWord 258 0x89ABCDEF) s) in
     m !! Z.to_nat A = Some (u / 2 ^ 24)
     /\ m !! Z.to_nat (A + 1) = Some ((u / 2 ^ 16) mod 256)
     /\ m !! Z.to_nat (A + 2) = Some ((u / 2 ^ 8) mod 256)
     /\ m !! Z.to_nat (A + 3) = Some (u mod 256).
Proof.
  apply (readWord_writeWord 258 0x89ABCDEF MIPSSimulator_constructor);
    vm_compute; first [reflexivity | discriminate].
Defined.

(** ** Relations kept by the execution engine *)

Section Preserves.

Variable R : MIPSSimulator -> MIPSSimulator -> Prop.

Hypothesis R_refl : forall s, R s s.
Hypothesis R_trans : forall s1 s2 s3, R s1 s2 -> R s2 s3 -> R s1 s3.
Hypothesis R_register : forall s i (n : JS.number),
  R s (setRegisters s (<[Z.to_nat i := JS.toUint32 n]> (registers s))).
Hypothesis R_touch : forall s a,
  0 <= a < Z.of_nat (length (memory s)) ->
  R s (setUsedMemoryAddresses s (setAdd a (usedMemoryAddresses s))).
Hypothesis R_store : forall s a b,
  0 <= a < Z.of_nat (length (memory s)) -> 0 <= b < 256 ->
  R s (setMemory s (<[Z.to_nat a := b]> (memory s))).
Hypothesis R_HI : forall s v, R s (setHI s v).
Hypothesis R_LO : forall s v, R s (setLO s v).
Hypothesis R_halted : forall s b, R s (setHalted s b).
Hypothesis R_log : forall s l, R s (setDebugLog s l).
Hypothesis R_tick : forall s pc,
  R s (setInstructionCount (setCycle (setPC s pc) (cycle s + 1))
         (instructionCount s + 1)).

Lemma preserves_ret {A : Type} (a : A) : preserves R (ret a).
Proof. intros s r s' [= <- <-]. apply R_refl. Qed.

Lemma preserves_throw {A : Type} (e : error) : preserves R (throw (A := A) e).
Proof. intros s r s' [= <- <-]. apply R_refl. Qed.

Lemma preserves_lift {A : Type} (x : result A) : preserves R (lift x).
Proof. intros s r s' [= <- <-]. apply R_refl. Qed.

Lemma preserves_gets {A : Type} (f : MIPSSimulator -> A) : preserves R (gets f).
Proof. intros s r s' [= <- <-]. apply R_refl. Qed.

Lemma preserves_modify (f : MIPSSimulator -> MIPSSimulator) :
  (forall s, R s (f s)) -> preserves R (modify f).
Proof. intros Hf s r s' [= <- <-]. apply Hf. Qed.

Lemma preserves_bind {A B : Type} (m : M A) (f : A -> M B) :
  preserves R m -> (forall a, preserves R (f a)) -> preserves R (bind m f).
Proof.
  intros Hm Hf s r s' H.
  apply bind_inv in H as [(a & s1 & E & H) | (e & E & _)].
  - eapply R_trans; [eapply Hm, E | eapply Hf, H].
  - eapply Hm, E.
Qed.

Lemma preserves_if {A : Type} (b : bool) (m1 m2 : M A) :
  preserves R m1 -> preserves R m2 -> preserves R (if b then m1 else m2).
Proof. destruct b; auto. Qed.

Lemma preserves_writeReg i (n : JS.number) : preserves R (writeReg i n).
Proof. apply preserves_modify. intros s. apply R_register. Qed.

Lemma preserves_readMemory a : preserves R (readMemory a).
Proof.
  intros s r s' H. unfold readMemory in H. pose proof (shr_range a 0).
  destruct (Z.ltb_spec (JS.shr a 0) (Z.of_nat (length (memory s))));
    injection H as _ <-; [| apply R_refl].
  apply R_touch. lia.
Qed.

Lemma preserves_writeMemory a v : preserves R (writeMemory a v).
Proof.
  intros s r s' H. unfold writeMemory in H. pose proof (shr_range a 0).
  destruct (Z.ltb_spec (JS.shr a 0) (Z.of_nat (length (memory s))));
    injection H as _ <-; [| apply R_refl].
  eapply R_trans; [apply R_store | apply (R_touch (setMemory s _))].
  - lia.
  - apply Z.mod_pos_bound. lia.
  - cbn [memory setMemory]. rewrite length_insert. lia.
Qed.

Ltac pres :=
  repeat first
    [ progress intros
    | apply preserves_ret | apply preserves_throw | apply preserves_lift
    | apply preserves_gets | apply preserves_writeReg
    | apply preserves_readMemory | apply preserves_writeMemory
    | apply preserves_bind | apply preserves_if
    | apply preserves_modify; intros;
      first [apply R_HI | apply R_LO | apply R_halted | apply R_log] ].

Lemma preserves_regIndex v : preserves R (regIndex v).
Proof. unfold regIndex. pres. Qed.

Lemma preserves_readReg v : preserves R (readReg v).
Proof. unfold readReg, regIndex. pres. Qed.

Lemma preserves_readWord a : preserves R (readWord a).
Proof. unfold readWord. pres. Qed.

Lemma preserves_writeWord a v : preserves R (writeWord a v).
Proof. unfold writeWord. pres. Qed.

Lemma preserves_effectiveAddress v : preserves R (effectiveAddress v).
Proof. unfold effectiveAddress. pres. Qed.

Lemma preserves_executeCase op m a dec pc :
  preserves R (executeCase op m a dec pc).
Proof.
  destruct op as [[] |]; cbv beta iota zeta delta [executeCase];
    repeat first
      [ apply preserves_regIndex | apply preserves_readReg
      | apply preserves_readWord | apply preserves_writeWord
      | apply preserves_effectiveAddress | progress pres ].
Qed.

Lemma preserves_executeInstruction ins addr :
  preserves R (executeInstruction ins addr).
Proof.
  intros s r s' H. destruct ins as [ins |]; unfold executeInstruction in H.
  2: { injection H as _ <-. apply R_refl. }
  apply bind_inv in H as [(pc & s0 & [= <- <-] & H) | (e & [=] & _)].
  apply bind_inv in H as [(x & s1 & E & H) | (e & E & _)];
    apply preserves_executeCase in E; [| exact E].
  apply bind_inv in H as [(u & s2 & W & H) | (e & [=] & _)].
  apply preserves_writeReg in W.
  unfold bind, modify, ret in H. injection H as _ <-.
  eapply R_trans; [exact E |]. eapply R_trans; [exact W |]. apply R_tick.
Qed.

Lemma preserves_logDebug ins r pc : preserves R (logDebug ins r pc).
Proof. unfold logDebug. pres. Qed.

Lemma preserves_step : preserves R step.
Proof.
  intros s r s' H. unfold step in H.
  destruct (negb (loaded s) || halted s); [injection H as _ <-; apply R_refl |].
  destruct (_ || _); [injection H as _ <-; apply R_halted |].
  destruct (nth_error _ _) as [ins |]; revert H; apply preserves_bind;
    try apply preserves_executeInstruction; pres.
Qed.

Lemma preserves_afterLoop k : preserves R (afterLoop k).
Proof. unfold afterLoop. pres. Qed.

Lemma preserves_runLoop fuel : forall k, preserves R (runLoop fuel k).
Proof.
  induction fuel as [| fuel IH]; intros k s r s' H; cbn [runLoop] in H;
    destruct (_ && _); try (eapply preserves_afterLoop, H).
  revert H. apply preserves_bind; [apply preserves_step |].
  intros x. apply preserves_if; [apply IH | apply preserves_ret].
Qed.

Lemma preserves_run : preserves R run.
Proof.
  intros s r s' H. unfold run in H.
  destruct (_ || _); [injection H as _ <-; apply R_refl |].
  eapply preserves_runLoop, H.
Qed.

End Preserves.

(** ** The shape of the object *)

Lemma setAdd_spec (a : Z) (used : list Z) :
  NoDup used -> NoDup (setAdd a used) /\ forall x, x ∈ setAdd a used <-> x = a \/ x ∈ used.
Proof.
  intros Hnd. unfold setAdd. destruct (existsb (Z.eqb a) used) eqn:E.
  - split; [exact Hnd |]. intros x. split; [auto |].
    intros [-> | H]; [| exact H].
    apply existsb_exists in E as (y & Hy & Heq). apply Z.eqb_eq in Heq.
    subst y. apply list_elem_of_In, Hy.
  - assert (Hnot : a ∉ used).
    { intros Hin. apply list_elem_of_In in Hin.
      assert (existsb (Z.eqb a) used = true)
        by (apply existsb_exists; exists a; split; [exact Hin | apply Z.eqb_refl]).
      congruence. }
    split.
    + apply NoDup_app. split; [exact Hnd |]. split; [| apply NoDup_singleton].
      intros x Hx Hx'. apply list_elem_of_singleton in Hx'. congruence.
    + intros x. rewrite elem_of_app, list_elem_of_singleton. tauto.
Qed.

Lemma wellFormed_touch s (a : Z) :
  0 <= a < Z.of_nat (length (memory s)) -> wellFormed s ->
  wellFormed (setUsedMemoryAddresses s (setAdd a (usedMemoryAddresses s))).
Proof.
  intros Ha (H1 & H2 & H3 & H4 & H5 & H6 & H7).
  destruct (setAdd_spec a _ H6) as [Hnd Hin].
  repeat split; try assumption; try apply H7; cbn.
  apply Forall_forall. intros x Hx. apply Hin in Hx as [-> | Hx].
  - rewrite H3 in Ha. lia.
  - rewrite Forall_forall in H5. apply H5, Hx.
Qed.

Lemma keepsWellFormed_refl s : keepsWellFormed s s.
Proof. intros Hs. exact Hs. Qed.

Lemma keepsWellFormed_trans s1 s2 s3 : keepsWellFormed s1 s2 -> keepsWellFormed s2 s3 -> keepsWellFormed s1 s3.
Proof. unfold keepsWellFormed. auto. Qed.

Lemma keepsWellFormed_register s i (n : JS.number) :
  keepsWellFormed s (setRegisters s (<[Z.to_nat i := JS.toUint32 n]> (registers s))).
Proof.
  intros (H1 & H2 & H3). repeat split; try apply H3; cbn.
  - rewrite length_insert. exact H1.
  - apply Forall_insert; [exact H2 | apply toUint32_range].
Qed.

Lemma keepsWellFormed_touch s a :
  0 <= a < Z.of_nat (length (memory s)) ->
  keepsWellFormed s (setUsedMemoryAddresses s (setAdd a (usedMemoryAddresses s))).
Proof. intros Ha Hs. apply wellFormed_touch; assumption. Qed.

Lemma keepsWellFormed_store s a b :
  0 <= a < Z.of_nat (length (memory s)) -> 0 <= b < 256 ->
  keepsWellFormed s (setMemory s (<[Z.to_nat a := b]> (memory s))).
Proof.
  intros Ha Hb (R1 & R2 & R3 & R4 & R5).
  repeat split; try apply R5; try assumption; cbn.
  - rewrite length_insert. exact R3.
  - apply Forall_insert; [exact R4 | exact Hb].
Qed.

Lemma keepsWellFormed_HI s v : keepsWellFormed s (setHI s v).
Proof. intros (? & ? & ? & ? & ? & ? & ? & ?). repeat split; assumption. Qed.

Lemma keepsWellFormed_LO s v : keepsWellFormed s (setLO s v).
Proof. intros (? & ? & ? & ? & ? & ? & ? & ?). repeat split; assumption. Qed.

Lemma keepsWellFormed_halted s b : keepsWellFormed s (setHalted s b).
Proof. intros (? & ? & ? & ? & ? & ? & ? & ?). repeat split; assumption. Qed.

Lemma keepsWellFormed_log s l : keepsWellFormed s (setDebugLog s l).
Proof. intros (? & ? & ? & ? & ? & ? & ? & ?). repeat split; assumption. Qed.

Lemma keepsWellFormed_tick s pc :
  keepsWellFormed s (setInstructionCount (setCycle (setPC s pc) (cycle s + 1))
         (instructionCount s + 1)).
Proof.
  intros (H1 & H2 & H3 & H4 & H5 & H6 & H7 & H8).
  repeat split; try assumption. cbn. lia.
Qed.

Ltac wellFormedness :=
  first
    [ exact keepsWellFormed_refl | exact keepsWellFormed_trans
    | exact keepsWellFormed_register | exact keepsWellFormed_touch
    | exact keepsWellFormed_store | exact keepsWellFormed_HI
    | exact keepsWellFormed_LO | exact keepsWellFormed_halted
    | exact keepsWellFormed_log | exact keepsWellFormed_tick ].

Lemma keepsWellFormed_step : preserves keepsWellFormed step.
Proof.
  apply preserves_step;
    wellFormedness.
Qed.

Lemma keepsWellFormed_run : preserves keepsWellFormed run.
Proof.
  apply preserves_run;
    wellFormedness.
Qed.

Lemma reset_spec s :
  reset s = (Ok tt,
    let s1 := setUsedMemoryAddresses (setDebugLog (setInstructionCount (setCycle
      (setHalted (setLO (setHI (setPC (setMemory (setRegisters s
        (replicate (length (registers s)) 0)) (replicate (length (memory s)) 0))
        0x00400000) (Some 0)) 0) false) 0) 0) []) [] in
    if loaded s then s1 else setLabels (setInstructions s1 []) (Some ∅)).
Proof.
  unfold reset, bind, modify, gets.
  cbn [loaded setRegisters setMemory setPC setHI setLO setHalted setCycle
       setInstructionCount setDebugLog setUsedMemoryAddresses].
  destruct (loaded s); reflexivity.
Qed.

Ltac fields :=
  cbn [registers memory PC HI LO instructions loaded halted cycle
       instructionCount debugMode debugLog usedMemoryAddresses labels
       setRegisters setMemory setPC setHI setLO setInstructions setLoaded
       setHalted setCycle setInstructionCount setDebugModeField setDebugLog
       setUsedMemoryAddresses setLabels].

Lemma keepsWellFormed_reset : preserves keepsWellFormed reset.
Proof.
  intros s r s' H (H1 & H2 & H3 & H4 & H5 & H6 & H7 & H8).
  rewrite reset_spec in H. injection H as _ <-.
  destruct (loaded s);
    (split; [| split; [| split; [| split; [| split; [| split; [| split]]]]]]);
    fields; rewrite ?length_replicate; try assumption; try reflexivity;
    try (apply Forall_replicate; unfold JS.two32; lia); constructor.
Qed.

Lemma encodeRType_range m rd rs rt sh w :
  encodeRType m rd rs rt sh = Ok w -> 0 <= w < JS.two32.
Proof.
  unfold encodeRType. intros H.
  destruct (parseRegister rd); [| discriminate].
  destruct (parseRegister rs); [| discriminate].
  destruct (parseRegister rt); [| discriminate].
  cbn [bindResult] in H. injection H as <-. apply shr_range.
Qed.

Lemma encodeIType_range m rt rs imm w :
  encodeIType m rt rs imm = Ok w -> 0 <= w < JS.two32.
Proof.
  unfold encodeIType. intros H.
  destruct (tableProperty opcodes m); [discriminate | ..];
    (destruct (parseRegister rt); [| discriminate]);
    (destruct (parseRegister rs); [| discriminate]);
    (destruct (parseImmediate imm); [| discriminate]);
    cbn [bindResult] in H; injection H as <-; apply shr_range.
Qed.

Lemma encodeJType_range m addr w :
  encodeJType m addr = Ok w -> 0 <= w < JS.two32.
Proof.
  unfold encodeJType. intros H.
  destruct (tableProperty opcodes m); [discriminate | ..];
    injection H as <-; apply shr_range.
Qed.

Lemma encodeInstruction_range m a w :
  encodeInstruction m a = Ok (EncWord w) -> 0 <= w < JS.two32.
Proof.
  unfold encodeInstruction. intros H.
  match type of H with
  | match ?b with _ => _ end = _ => destruct b as [e |] eqn:E; [| discriminate]
  end.
  injection H as ->.
  destruct (switchOn m) as [[] |]; try discriminate;
    repeat match type of E with
    | bindResult ?x _ = _ => destruct x eqn:?; cbn [bindResult] in E; try discriminate
    | match ?x with _ => _ end = _ => destruct x eqn:?; try discriminate
    end;
    try (injection E as <-; unfold JS.two32; lia);
    injection E as <-;
    eauto using encodeRType_range, encodeIType_range.
Qed.

Lemma resolveBranch_range lbls i m a w :
  resolveBranch lbls i m a = Ok w -> 0 <= w < JS.two32.
Proof.
  unfold resolveBranch. intros H.
  destruct (argAt a _); try discriminate.
  destruct (labelsGet lbls _); try discriminate;
    destruct (_ || _); eauto using encodeIType_range.
Qed.

Lemma resolveJump_range lbls m a w :
  resolveJump lbls m a = Ok w -> 0 <= w < JS.two32.
Proof.
  unfold resolveJump. intros H.
  destruct (argAt a _); try discriminate.
  destruct (labelsGet lbls _); try discriminate; eauto using encodeJType_range.
Qed.

Lemma secondPassEntry_words lines lbls i entry s r s' :
  secondPassEntry lines lbls i entry s = (r, s') ->
  words32 s -> words32 s'.
Proof.
  destruct entry as [[m a] l]. unfold secondPassEntry. intros H Hs.
  apply bind_inv in H as [(enc & s0 & He & H) | (e & He & ->)];
    injection He as He <-; [| exact Hs].
  apply bind_inv in H as [(w & s0 & Hw & H) | (e & Hw & ->)];
    injection Hw as Hw <-; [| exact Hs].
  injection H as _ <-. unfold words32. cbn [instructions setInstructions].
  apply Forall_app. split; [exact Hs |]. constructor; [| constructor].
  cbn [binary]. destruct enc.
  - injection Hw as <-. eapply encodeInstruction_range, He.
  - eapply resolveBranch_range, Hw.
  - eapply resolveJump_range, Hw.
Qed.

Lemma secondPass_words lines lbls prog : forall i s r s',
  secondPass lines lbls i prog s = (r, s') -> words32 s -> words32 s'.
Proof.
  induction prog as [| entry prog IH]; intros i s r s' H Hs; cbn [secondPass] in H.
  - injection H as _ <-. exact Hs.
  - apply bind_inv in H as [(u & s1 & He & H) | (e & He & ->)];
      apply secondPassEntry_words in He; eauto.
Qed.

Lemma secondPass_frame lines lbls prog i s r s' :
  secondPass lines lbls i prog s = (r, s') ->
  exists recs, s' = setInstructions s recs.
Proof.
  intros H. apply secondPass_spec in H as (recs & -> & _). eauto.
Qed.

Lemma keepsWellFormed_loadProgram text :
  preserves keepsWellFormed (loadProgram text).
Proof.
  intros s r s' H (H1 & H2 & H3 & H4 & H5 & H6 & H7 & H8).
  unfold loadProgram in H.
  destruct (firstPass _) as [[prog lbls] n0].
  apply bind_inv in H as [(u & s0 & H0 & H) | (e & H0 & _)];
    [| discriminate H0].
  injection H0 as _ <-.
  apply bind_inv in H as [(u' & s1 & E & H) | (e & E & ->)];
    pose proof (secondPass_words _ _ _ _ _ _ _ E) as W;
    apply secondPass_frame in E as (recs & ->);
    specialize (W (List.Forall_nil _)); unfold words32 in W;
    cbn [instructions setInstructions] in W.
  - unfold bind, modify, gets in H. injection H as _ <-.
    split; [| split; [| split; [| split; [| split; [| split; [| split]]]]]];
      fields; try assumption; try reflexivity; constructor.
  - split; [| split; [| split; [| split; [| split; [| split; [| split]]]]]];
      fields; assumption.
Qed.

Lemma keepsWellFormed_setDebugMode b :
  preserves keepsWellFormed (setDebugMode b).
Proof.
  intros s r s' H Hs. unfold setDebugMode, modify in H. injection H as _ <-.
  exact Hs.
Qed.

Lemma wellFormed_constructor : wellFormed MIPSSimulator_constructor.
Proof.
  split; [| split; [| split; [| split; [| split; [| split; [| split]]]]]];
    cbn [registers memory usedMemoryAddresses cycle instructionCount
         instructions MIPSSimulator_constructor].
  - reflexivity.
  - apply Forall_replicate. unfold JS.two32. lia.
  - apply length_replicate.
  - apply Forall_replicate. lia.
  - constructor.
  - constructor.
  - reflexivity.
  - constructor.
Qed.

Lemma wellFormed_after {A : Type} (m : M A) s :
  preserves keepsWellFormed m -> wellFormed s -> wellFormed (after m s).
Proof.
  intros Hm Hs. unfold after. destruct (m s) as [r s'] eqn:E.
  exact (Hm _ _ _ E Hs).
Qed.

Lemma wellFormed_perform s c : wellFormed s -> wellFormed (perform s c).
Proof.
  intros Hs. destruct c; cbn [perform]; apply wellFormed_after;
    auto using keepsWellFormed_loadProgram, keepsWellFormed_step,
      keepsWellFormed_run, keepsWellFormed_reset, keepsWellFormed_setDebugMode.
Qed.

Lemma wellFormed_session calls : wellFormed (session calls).
Proof.
  unfold session. generalize wellFormed_constructor.
  generalize MIPSSimulator_constructor.
  induction calls as [| c calls IH]; intros s Hs; cbn [fold_left].
  - exact Hs.
  - apply IH, wellFormed_perform, Hs.
Qed.

(** ** What executing instructions leaves alone *)

Lemma sameProgram_refl s : sameProgram s s.
Proof. repeat split. Qed.

Lemma sameProgram_trans s1 s2 s3 :
  sameProgram s1 s2 -> sameProgram s2 s3 -> sameProgram s1 s3.
Proof.
  intros (A1 & A2 & A3 & A4) (B1 & B2 & B3 & B4). repeat split; congruence.
Qed.

Ltac sameness :=
  first [ exact sameProgram_refl | exact sameProgram_trans
        | intros; repeat split ].

Lemma sameProgram_step : preserves sameProgram step.
Proof. apply preserves_step; sameness. Qed.

Lemma sameProgram_run : preserves sameProgram run.
Proof. apply preserves_run; sameness. Qed.

(** ** [run] as a sequence of [step]s *)

Lemma after_afterLoop k s : after (afterLoop k) s = s.
Proof. unfold after, afterLoop. destruct (_ >=? _); reflexivity. Qed.

Lemma runLoop_steps fuel : forall k s,
  exists n, (n <= fuel)%nat /\ after (runLoop fuel k) s = steps n s.
Proof.
  induction fuel as [| fuel IH]; intros k s; unfold after; cbn [runLoop].
  - exists 0%nat. split; [lia |]. destruct (_ && _); apply after_afterLoop.
  - destruct (_ && _); [| exists 0%nat; split; [lia | apply after_afterLoop]].
    unfold bind. destruct (step s) as [[result | e] s1] eqn:E.
    + destruct (isSuccess result).
      * destruct (IH (k + 1) s1) as (n & Hn & Hs). exists (S n).
        split; [lia |]. cbn [steps]. unfold after in *. rewrite E. exact Hs.
      * exists 1%nat. split; [lia |]. cbn [steps]. unfold after. rewrite E.
        reflexivity.
    + exists 1%nat. split; [lia |]. cbn [steps]. unfold after. rewrite E.
      reflexivity.
Qed.

Lemma runLoop_count fuel : forall k s n,
  zeroWired s ->
  fst (runLoop fuel k s) = Ok (RunSuccess n) ->
  instructionCount (after (runLoop fuel k) s) = instructionCount s + (n - k).
Proof.
  induction fuel as [| fuel IH]; intros k s n Hs H; unfold after;
    destruct (runLoop _ k s) as [r s'] eqn:E; cbn [fst snd] in *; subst r;
    cbn [runLoop] in E; destruct (_ && _);
    try (apply afterLoop_success in E as (-> & -> & _); lia).
  apply bind_inv in E as [(result & s1 & Hstep & E) | (e & _ & [=])].
  destruct (step_spec s Hs) as [Hz Hc]. unfold after in Hz, Hc.
  pose proof (step_outcome _ _ _ Hstep) as Hout.
  rewrite Hstep in Hz, Hc. cbn [fst snd] in Hz, Hc.
  destruct result as [m hf | ins x | n']; cbn [isSuccess executed] in E, Hc.
  - discriminate E.
  - specialize (IH (k + 1) s1 n Hz). unfold after in IH. rewrite E in IH.
    cbn [fst snd] in IH. specialize (IH eq_refl). lia.
  - destruct Hout.
Qed.

(** X14.  [run] changes the object as some number of [step] calls, at most
    [maxSteps] of them, would. *)
Theorem run_is_a_sequence_of_steps s :
  exists n, Z.of_nat n <= maxSteps /\ after run s = steps n s.
Proof.
  unfold after, run. destruct (_ || _).
  - exists 0%nat. split; [unfold maxSteps; lia | reflexivity].
  - destruct (runLoop_steps (Z.to_nat maxSteps) 0 s) as (n & Hn & Hs).
    exists n. split; [| exact Hs]. unfold maxSteps in *. lia.
Qed.

(** X15.  The [steps] a successful [run] returns is the number of
    instructions it executed, whatever the calls made before. *)
Theorem run_counts_its_steps calls n :
  fst (run (session calls)) = Ok (RunSuccess n) ->
  instructionCount (after run (session calls))
  = instructionCount (session calls) + n.
Proof.
  pose proof (zeroWired_session calls) as Hz. revert Hz.
  generalize (session calls). intros s Hz H. unfold after, run in *.
  destruct (_ || _); [discriminate H |].
  pose proof (runLoop_count _ 0 s n Hz H) as Hc. unfold after in Hc. lia.
Qed.

Lemma run_counts_its_steps_witness :
  let calls :=
    [CallLoadProgram (program ["addi $v0, $zero, 10"; "syscall"])] in
  instructionCount (after run (session calls))
  = instructionCount (session calls) + 2.
Proof.
  apply (run_counts_its_steps
           [CallLoadProgram (program ["addi $v0, $zero, 10"; "syscall"])] 2).
  vm_compute. reflexivity.
Defined.

(** ** A halted or empty simulator *)

Lemma idle_perform s c :
  negb (loaded s) || halted s = true -> executes c = true -> perform s c = s.
Proof.
  intros Hs Hc. destruct c; try discriminate Hc; cbn [perform];
    unfold after, step, run; rewrite Hs; reflexivity.
Qed.

(** X16.  Without a program, or once halted, [step] and [run] change
    nothing, however often they are called. *)
Theorem step_and_run_do_nothing_when_idle s calls :
  negb (loaded s) || halted s = true ->
  forallb executes calls = true ->
  fold_left perform calls s = s.
Proof.
  intros Hs. induction calls as [| c calls IH]; cbn [fold_left forallb];
    [reflexivity |].
  intros [Hc Hcs]%andb_prop. rewrite idle_perform by assumption. auto.
Qed.

Lemma step_and_run_do_nothing_when_idle_witness :
  fold_left perform [CallStep; CallRun; CallStep] MIPSSimulator_constructor
  = MIPSSimulator_constructor.
Proof.
  apply (step_and_run_do_nothing_when_idle MIPSSimulator_constructor
           [CallStep; CallRun; CallStep]); reflexivity.
Defined.

(** ** [reset] and [loadProgram] *)

Lemma MIPSSimulator_eq s1 s2 :
  registers s1 = registers s2 -> memory s1 = memory s2 -> PC s1 = PC s2 ->
  HI s1 = HI s2 -> LO s1 = LO s2 -> instructions s1 = instructions s2 ->
  loaded s1 = loaded s2 -> halted s1 = halted s2 -> cycle s1 = cycle s2 ->
  instructionCount s1 = instructionCount s2 -> debugMode s1 = debugMode s2 ->
  debugLog s1 = debugLog s2 ->
  usedMemoryAddresses s1 = usedMemoryAddresses s2 -> labels s1 = labels s2 ->
  s1 = s2.
Proof. destruct s1, s2. cbn. intros. subst. reflexivity. Qed.

Lemma sameProgram_perform s c : executes c = true -> sameProgram s (perform s c).
Proof.
  intros Hc. destruct c; try discriminate Hc; cbn [perform]; unfold after.
  - destruct (step s) as [r s'] eqn:E. eapply sameProgram_step, E.
  - destruct (run s) as [r s'] eqn:E. eapply sameProgram_run, E.
Qed.

Lemma sameProgram_calls calls : forall s,
  forallb executes calls = true -> sameProgram s (fold_left perform calls s).
Proof.
  induction calls as [| c calls IH]; intros s; cbn [fold_left forallb].
  - intros _. apply sameProgram_refl.
  - intros [Hc Hcs]%andb_prop. eapply sameProgram_trans;
      [apply sameProgram_perform, Hc | apply IH, Hcs].
Qed.

Lemma wellFormed_calls calls : forall s,
  wellFormed s -> wellFormed (fold_left perform calls s).
Proof.
  induction calls as [| c calls IH]; intros s Hs; cbn [fold_left];
    [exact Hs | apply IH, wellFormed_perform, Hs].
Qed.

(** X17.  What a successful [loadProgram] assigns and what it keeps: the
    registers, the memory, PC, HI, LO and the debug mode are those of before;
    the flags, the counters, the trace and the touched set are reset; the
    records are those of the parsed instructions, whose number is returned. *)
Theorem loadProgram_loads_without_resetting text s n :
  fst (loadProgram text s) = Ok n ->
  let s' := after (loadProgram text) s in
  (registers s', memory s', PC s', HI s', LO s', debugMode s')
  = (registers s, memory s, PC s, HI s, LO s, debugMode s)
  /\ (loaded s', halted s', cycle s', instructionCount s')
     = (true, false, 0, 0)
  /\ debugLog s' = [] /\ usedMemoryAddresses s' = []
  /\ map source (instructions s') = parsedProgram text
  /\ n = Z.of_nat (length (parsedProgram text)).
Proof.
  intros H s'. subst s'. unfold after.
  destruct (loadProgram text s) as [r s'] eqn:E. cbn [fst snd] in *. subst r.
  apply loadProgram_spec in E as (recs & Hmap & _ & -> & Hlen & ->).
  fields. repeat split.
  - rewrite Hmap, Hlen. apply firstn_all.
  - unfold parsedProgram. congruence.
Qed.

(** A load on a simulator that has run another program to its end. *)
Lemma loadProgram_loads_without_resetting_witness :
  let text := program ["nop"; "nop"] in
  let s := steps 2 (load ["addi $v0, $zero, 10"; "syscall"]) in
  let s' := after (loadProgram text) s in
  (registers s', memory s', PC s', HI s', LO s', debugMode s')
  = (registers s, memory s, PC s, HI s, LO s, debugMode s)
  /\ (loaded s', halted s', cycle s', instructionCount s')
     = (true, false, 0, 0)
  /\ debugLog s' = [] /\ usedMemoryAddresses s' = []
  /\ map source (instructions s') = parsedProgram text
  /\ 2 = Z.of_nat (length (parsedProgram text)).
Proof.
  apply (loadProgram_loads_without_resetting (program ["nop"; "nop"])
           (steps 2 (load ["addi $v0, $zero, 10"; "syscall"])) 2).
  vm_compute. reflexivity.
Defined.

(** X18.  [reset] after a successful load on a new simulator and any number
    of [step] and [run] calls gives back the object as it was after the load,
    with HI now 0. *)
Theorem reset_restores_the_loaded_state text calls :
  let s0 := after (loadProgram text) MIPSSimulator_constructor in
  loaded s0 = true ->
  forallb executes calls = true ->
  after reset (fold_left perform calls s0) = setHI s0 (Some 0).
Proof.
  intros s0 Hl Hc.
  assert (W0 : wellFormed s0)
    by (apply wellFormed_after;
        [apply keepsWellFormed_loadProgram | apply wellFormed_constructor]).
  pose proof (wellFormed_calls calls s0 W0) as (H1 & _ & H3 & _).
  pose proof (sameProgram_calls calls s0 Hc) as (P1 & P2 & P3 & P4).
  assert (Hs0 : exists recs lbls, s0 = setUsedMemoryAddresses (setDebugLog
            (setInstructionCount (setCycle (setHalted (setLoaded (setLabels
              (setInstructions MIPSSimulator_constructor recs) lbls) true)
              false) 0) 0) []) []).
  { subst s0. unfold after in *.
    destruct (loadProgram text _) as [r s'] eqn:E. cbn [snd] in *.
    apply loadProgram_spec in E as (recs & _ & _ & Hr).
    destruct r as [n | e].
    - destruct Hr as (_ & _ & ->). eauto.
    - destruct Hr as (-> & _). discriminate Hl. }
  destruct Hs0 as (recs & lbls & Hs0).
  unfold after. rewrite reset_spec. cbn [snd]. rewrite P3, Hl.
  apply MIPSSimulator_eq; fields; rewrite ?H1, ?H3; try assumption;
    try reflexivity; rewrite Hs0; reflexivity.
Qed.

Lemma reset_restores_the_loaded_state_witness :
  let s0 := after (loadProgram (program ["addi $t0, $zero, 5"; "sw $t0, 0($zero)";
                                         "addi $v0, $zero, 10"; "syscall"]))
              MIPSSimulator_constructor in
  after reset (fold_left perform [CallStep; CallRun] s0) = setHI s0 (Some 0).
Proof.
  apply (reset_restores_the_loaded_state
           (program ["addi $t0, $zero, 5"; "sw $t0, 0($zero)";
                     "addi $v0, $zero, 10"; "syscall"])
           [CallStep; CallRun]);
    vm_compute; reflexivity.
Defined.

(** X19.  A second [reset] changes nothing. *)
Theorem reset_twice s : after reset (after reset s) = after reset s.
Proof.
  unfold after. rewrite !reset_spec. cbn [snd]. cbv zeta.
  destruct (loaded s) eqn:Hl; fields; rewrite ?Hl;
    apply MIPSSimulator_eq; fields; rewrite ?length_replicate; reflexivity.
Qed.

(** ** Sequential execution *)

Section Yields.

Context {A B : Type} (P : B -> Prop).

Lemma yields_ret (b : B) : P b -> yields P (ret b).
Proof. intros Hb s r s' [= <- _]. exact Hb. Qed.

Lemma yields_throw (e : error) : yields P (throw e).
Proof. intros s r s' [=]. Qed.

Lemma yields_bind (m : M A) (f : A -> M B) :
  (forall a, yields P (f a)) -> yields P (bind m f).
Proof.
  intros Hf s r s' H.
  apply bind_inv in H as [(a & s1 & _ & H) | (e & _ & [=])].
  eapply Hf, H.
Qed.

Lemma yields_if (b : bool) (m1 m2 : M B) :
  yields P m1 -> yields P m2 -> yields P (if b then m1 else m2).
Proof. destruct b; auto. Qed.

End Yields.

Lemma executeCase_next op m a dec pc :
  match op with Some (J | JAL | JR) => False | _ => True end ->
  yields (fun r => snd r = false -> fst r = pc + 4) (executeCase op m a dec pc).
Proof.
  destruct op as [[] |]; intros Hop; try destruct Hop;
    cbv beta iota zeta delta [executeCase];
    repeat first
      [ apply yields_throw
      | apply yields_ret; cbn [fst snd]; first [reflexivity | discriminate]
      | apply yields_bind; intros
      | apply yields_if ].
Qed.

(** A successful [step] has executed the instruction it returns. *)
Lemma step_success s ins r :
  fst (step s) = Ok (StepSuccess ins r) ->
  exists s1,
    executeInstruction (Some ins) (PC s) s = (Ok r, s1)
    /\ PC (after step s) = PC s1 /\ registers (after step s) = registers s1.
Proof.
  unfold after. destruct (step s) as [o s'] eqn:Hstep. cbn [fst snd].
  intros ->. unfold step in Hstep.
  destruct (negb (loaded s) || halted s); [discriminate Hstep |].
  destruct (_ || _); [discriminate Hstep |].
  destruct (nth_error _ _) as [ins' |];
    apply bind_inv in Hstep as [(x & s1 & E & H) | (e & E & [=])];
    [| discriminate H].
  apply bind_inv in H as [(dbg & s2 & [= <- <-] & H) | (e & [=] & _)].
  destruct (logDebug_frame ins' x (PC s) s1) as (H1 & H2 & H3).
  apply bind_inv in H as [(u & s2 & Hlog & [= <- <- <-]) | (e & _ & [=])].
  exists s1. split; [exact E |].
  destruct (debugMode s1).
  - rewrite Hlog in H2, H3. auto.
  - injection Hlog as _ <-. auto.
Qed.

(** X7.  Unless it is a jump or a taken branch, the instruction a [step]
    executes moves PC to the next word. *)
Theorem step_moves_to_the_next_instruction s ins r :
  fst (step s) = Ok (StepSuccess ins r) ->
  jumps (mnemonic ins) = false -> branchTaken r = false ->
  PC (after step s) = PC s + 4 /\ nextPC r = PC s + 4.
Proof.
  intros H Hj Hb. apply step_success in H as (s1 & E & -> & _).
  unfold executeInstruction in E.
  apply bind_inv in E as [(pc & s0 & [= <- <-] & E) | (e & [=] & _)].
  apply bind_inv in E as [(x & s2 & Hx & E) | (e & _ & [=])].
  apply executeCase_next in Hx.
  2: { unfold jumps in Hj. destruct (switchOn _) as [[] |];
         first [exact I | discriminate Hj]. }
  unfold bind, writeReg, modify, ret in E. injection E as <- <-.
  cbn in *. auto.
Qed.

Lemma step_moves_to_the_next_instruction_witness :
  PC (after step (load ["nop"])) = PC (load ["nop"]) + 4
  /\ nextPC {| decoded := decodeInstruction 0;
               control := generateControlSignals (decodeInstruction 0);
               branchTaken := false; nextPC := 0x00400004 |}
     = PC (load ["nop"]) + 4.
Proof.
  apply (step_moves_to_the_next_instruction (load ["nop"])
           {| mnemonic := "nop"; args := []; label := None; binary := 0;
              address := 0x00400000; originalLine := "nop" |});
    vm_compute; reflexivity.
Defined.

(** ** Multiplication and unsigned division *)

Ltac execute H :=
  unfold after, executeInstruction; rewrite H;
  cbv beta iota zeta delta [executeCase];
  unfold readReg, regIndex, bind, lift, gets, writeReg, modify, ret.

Lemma or_zero_r (n : JS.number) : JS.or n 0 = JS.toInt32 n.
Proof. unfold JS.or. change (JS.toInt32 0) with 0. apply Z.lor_0_r. Qed.

Lemma split64 (z : Z) :
  JS.shr (Z.shiftr z 32) 0 * 2 ^ 32 + JS.shr (Z.land z 0xffffffff) 0
  = z mod 2 ^ 64.
Proof.
  rewrite !shr_zero, Z.shiftr_div_pow2 by lia.
  change 0xffffffff with (Z.ones 32). rewrite Z.land_ones by lia.
  unfold JS.two32. change 4294967296 with (2 ^ 32).
  rewrite Z.mod_mod by lia.
  change (2 ^ 64) with (2 ^ 32 * 2 ^ 32). rewrite Z.rem_mul_r by lia. lia.
Qed.

(** X20.  [mult] and [multu] leave the 64-bit product of the two registers
    in HI (upper word) and LO (lower word); [mult] reads the registers as
    signed numbers. *)
Theorem mult_leaves_the_product_in_HI_and_LO s ins pc rs rt :
  mnemonic ins = "mult" \/ mnemonic ins = "multu" ->
  parseRegister (argAt (args ins) 0) = Ok rs ->
  parseRegister (argAt (args ins) 1) = Ok rt ->
  let x := nth (Z.to_nat rs) (registers s) 0 in
  let y := nth (Z.to_nat rt) (registers s) 0 in
  let product :=
    if String.eqb (mnemonic ins) "mult" then JS.toInt32 x * JS.toInt32 y
    else x * y in
  let s' := after (executeInstruction (Some ins) pc) s in
  exists hi,
    HI s' = Some hi /\ 0 <= hi < 2 ^ 32 /\ 0 <= LO s' < 2 ^ 32
    /\ hi * 2 ^ 32 + LO s' = product mod 2 ^ 64.
Proof.
  intros Hm Hs Ht x y product s'. subst s' product.
  destruct Hm as [Hm | Hm]; execute Hm;
    [change (switchOn _) with (Some MULT); change (String.eqb _ _) with true
    | change (switchOn _) with (Some MULTU); change (String.eqb _ _) with false];
    rewrite Hs, Ht; fold x y;
    cbn [fst snd HI LO setRegisters setPC setCycle
         setInstructionCount setLO setHI];
    eexists; (split; [reflexivity |]);
    (split; [apply shr_range |]); (split; [apply shr_range |]);
    rewrite ?or_zero_r; apply split64.
Qed.

(** [mult] of -3 and 5. *)
Lemma mult_leaves_the_product_in_HI_and_LO_witness :
  let s := steps 2 (load ["addi $t1, $zero, -3"; "addi $t2, $zero, 5"]) in
  let ins := instructionOf "mult" [VStr "$t1"; VStr "$t2"] in
  let x := nth (Z.to_nat 9) (registers s) 0 in
  let y := nth (Z.to_nat 10) (registers s) 0 in
  let product :=
    if String.eqb (mnemonic ins) "mult" then JS.toInt32 x * JS.toInt32 y
    else x * y in
  let s' := after (executeInstruction (Some ins) 0x00400008) s in
  exists hi,
    HI s' = Some hi /\ 0 <= hi < 2 ^ 32 /\ 0 <= LO s' < 2 ^ 32
    /\ hi * 2 ^ 32 + LO s' = product mod 2 ^ 64.
Proof.
  apply (mult_leaves_the_product_in_HI_and_LO
           (steps 2 (load ["addi $t1, $zero, -3"; "addi $t2, $zero, 5"]))
           (instructionOf "mult" [VStr "$t1"; VStr "$t2"]) 0x00400008 9 10);
    first [left; reflexivity | vm_compute; reflexivity].
Defined.

(** X21.  [divu] with a divisor other than 0 leaves the quotient in LO and
    the remainder in HI: the dividend is LO * divisor + HI, with HI below the
    divisor.  With divisor 0 it assigns neither. *)
Theorem divu_leaves_quotient_and_remainder s ins pc rs rt :
  mnemonic ins = "divu" ->
  parseRegister (argAt (args ins) 0) = Ok rs ->
  parseRegister (argAt (args ins) 1) = Ok rt ->
  let x := nth (Z.to_nat rs) (registers s) 0 in
  let y := nth (Z.to_nat rt) (registers s) 0 in
  0 <= x < 2 ^ 32 -> 0 <= y < 2 ^ 32 ->
  let s' := after (executeInstruction (Some ins) pc) s in
  if y =? 0 then LO s' = LO s /\ HI s' = HI s
  else exists hi,
    HI s' = Some hi /\ x = LO s' * y + hi /\ 0 <= hi < y.
Proof.
  intros Hm Hs Ht x y Hx Hy s'. subst s'. execute Hm.
  change (switchOn _) with (Some DIVU). rewrite Hs, Ht. fold x y.
  destruct (Z.eqb_spec y 0) as [H0 | H0];
    cbn [fst snd HI LO setRegisters setPC setCycle setInstructionCount
         setLO setHI]; [split; reflexivity |].
  eexists. split; [reflexivity |]. rewrite !shr_zero.
  rewrite Z.rem_mod_nonneg by lia.
  assert (0 <= x / y <= x) by (split; [apply Z.div_pos | apply Z.div_le_upper_bound]; nia).
  assert (0 <= x mod y < y) by (apply Z.mod_pos_bound; lia).
  unfold JS.two32. rewrite !Z.mod_small by lia.
  split; [| assumption]. rewrite (Z.div_mod x y) at 1 by lia. lia.
Qed.

(** [divu] of 17 by 5. *)
Lemma divu_leaves_quotient_and_remainder_witness :
  let s := steps 2 (load ["addi $t1, $zero, 17"; "addi $t2, $zero, 5"]) in
  let ins := instructionOf "divu" [VStr "$t1"; VStr "$t2"] in
  let x := nth (Z.to_nat 9) (registers s) 0 in
  let y := nth (Z.to_nat 10) (registers s) 0 in
  let s' := after (executeInstruction (Some ins) 0x00400008) s in
  if y =? 0 then LO s' = LO s /\ HI s' = HI s
  else exists hi,
    HI s' = Some hi /\ x = LO s' * y + hi /\ 0 <= hi < y.
Proof.
  apply (divu_leaves_quotient_and_remainder
           (steps 2 (load ["addi $t1, $zero, 17"; "addi $t2, $zero, 5"]))
           (instructionOf "divu" [VStr "$t1"; VStr "$t2"]) 0x00400008 9 10);
    vm_compute; first [reflexivity | split; [discriminate | reflexivity]].
Defined.

(** ** Sign extension, immediates and bitwise instructions *)

Lemma toInt32_unique (a b : Z) :
  - JS.two31 <= b < JS.two31 -> a mod JS.two32 = b mod JS.two32 ->
  JS.toInt32 a = b.
Proof.
  intros Hb Hab.
  replace a with (b + (a / JS.two32 - b / JS.two32) * JS.two32).
  - rewrite toInt32_period. apply toInt32_exact, Hb.
  - pose proof (Z.div_mod a JS.two32). pose proof (Z.div_mod b JS.two32).
    unfold JS.two32 in *. lia.
Qed.

Lemma signExtend16_spec (z : Z) :
  signExtend16 z
  = let u := z mod 2 ^ 16 in if u <? 2 ^ 15 then u else u - 2 ^ 16.
Proof.
  cbv zeta. set (u := z mod 2 ^ 16).
  assert (Hu : 0 <= u < 2 ^ 16) by (apply Z.mod_pos_bound; lia).
  set (v := if u <? 2 ^ 15 then u else u - 2 ^ 16).
  assert (Hv : - 2 ^ 15 <= v < 2 ^ 15)
    by (subst v; destruct (Z.ltb_spec u (2 ^ 15)); lia).
  assert (Hzv : (z * 2 ^ 16) mod JS.two32 = (v * 2 ^ 16) mod JS.two32).
  { assert (Hz : z = 2 ^ 16 * (z / 2 ^ 16) + u) by (apply Z.div_mod; lia).
    assert (Hk : exists k, z * 2 ^ 16 = v * 2 ^ 16 + k * JS.two32).
    { subst v. destruct (u <? 2 ^ 15);
        [exists (z / 2 ^ 16) | exists (z / 2 ^ 16 + 1)]; unfold JS.two32; lia. }
    destruct Hk as (k & ->). apply Z.mod_add. unfold JS.two32. lia. }
  unfold signExtend16, JS.sar, JS.shl. rewrite !shiftCount_exact by lia.
  rewrite Z.shiftl_mul_pow2 by lia.
  assert (Hs : JS.toInt32 (JS.toInt32 z * 2 ^ 16) = v * 2 ^ 16).
  { apply toInt32_unique; [range |]. rewrite <- Hzv.
    rewrite <- Z.mul_mod_idemp_l, toInt32_mod, Z.mul_mod_idemp_l
      by (unfold JS.two32; lia).
    reflexivity. }
  rewrite Hs, toInt32_exact by range.
  rewrite Z.shiftr_div_pow2 by lia. apply Z.div_mul. lia.
Qed.

Ltac bitwise_mod a b :=
  rewrite <- (toInt32_mod a), <- (toInt32_mod b);
  generalize (JS.toInt32 a) (JS.toInt32 b); intros x y;
  unfold JS.two32; change 4294967296 with (2 ^ 32);
  rewrite <- !Z.land_ones by lia;
  apply Z.bits_inj'; intros n Hn;
  rewrite ?Z.land_spec, ?Z.lor_spec, ?Z.lxor_spec, ?Z.land_spec;
  destruct (Z.testbit x n), (Z.testbit y n), (Z.testbit (Z.ones 32) n);
  reflexivity.

Lemma and_mod (a b : Z) :
  JS.and a b mod JS.two32 = Z.land (a mod JS.two32) (b mod JS.two32).
Proof. unfold JS.and. bitwise_mod a b. Qed.

Lemma or_mod (a b : Z) :
  JS.or a b mod JS.two32 = Z.lor (a mod JS.two32) (b mod JS.two32).
Proof. unfold JS.or. bitwise_mod a b. Qed.

Lemma xor_mod (a b : Z) :
  JS.xor a b mod JS.two32 = Z.lxor (a mod JS.two32) (b mod JS.two32).
Proof. unfold JS.xor. bitwise_mod a b. Qed.

Lemma not_mod (a : Z) :
  JS.not a mod JS.two32 = JS.two32 - 1 - a mod JS.two32.
Proof.
  unfold JS.not. rewrite <- (toInt32_mod a). generalize (JS.toInt32 a).
  intros x. unfold Z.lnot, JS.two32.
  pose proof (Z.div_mod x 4294967296).
  pose proof (Z.mod_pos_bound x 4294967296).
  symmetry. apply (Z.mod_unique _ _ (- (x / 4294967296) - 1)); lia.
Qed.

(** X22.  [and], [or], [xor] and [nor] put in the register named first the
    bitwise operation of the two others, as an unsigned 32-bit number, then
    clear register 0. *)
Theorem bitwise_instructions_combine_the_bits s ins pc op rd rs rt v :
  switchOn (mnemonic ins) = Some op ->
  parseRegister (argAt (args ins) 0) = Ok rd ->
  parseRegister (argAt (args ins) 1) = Ok rs ->
  parseRegister (argAt (args ins) 2) = Ok rt ->
  let x := nth (Z.to_nat rs) (registers s) 0 in
  let y := nth (Z.to_nat rt) (registers s) 0 in
  0 <= x < JS.two32 -> 0 <= y < JS.two32 ->
  match op with
  | AND => v = Z.land x y
  | OR => v = Z.lor x y
  | XOR => v = Z.lxor x y
  | NOR => v = JS.two32 - 1 - Z.lor x y
  | _ => False
  end ->
  registers (after (executeInstruction (Some ins) pc) s)
  = <[0%nat := 0]> (<[Z.to_nat rd := v]> (registers s)).
Proof.
  intros Hop Hd Hs Ht x y Hx Hy Hv. unfold after, executeInstruction.
  rewrite Hop.
  destruct op; try (exfalso; exact Hv); subst v;
    cbv beta iota zeta delta [executeCase];
    unfold readReg, regIndex, bind, lift, gets, writeReg, modify, ret;
    rewrite Hd, Hs, Ht; fold x y;
    cbn [fst snd registers setRegisters setPC setCycle setInstructionCount];
    unfold JS.toUint32 at 2;
    rewrite ?and_mod, ?or_mod, ?xor_mod, ?not_mod, ?or_mod,
      !(Z.mod_small x), !(Z.mod_small y) by assumption;
    rewrite 1?Z.land_comm, 1?Z.lor_comm, 1?Z.lxor_comm; reflexivity.
Qed.

(** [xor] of 12 and 10. *)
Lemma bitwise_instructions_combine_the_bits_witness :
  let s := steps 2 (load ["addi $t1, $zero, 12"; "addi $t2, $zero, 10"]) in
  registers (after (executeInstruction
     (Some (instructionOf "xor" [VStr "$t0"; VStr "$t1"; VStr "$t2"]))
     0x00400008) s)
  = <[0%nat := 0]> (<[Z.to_nat 8 := 6]> (registers s)).
Proof.
  apply (bitwise_instructions_combine_the_bits
           (steps 2 (load ["addi $t1, $zero, 12"; "addi $t2, $zero, 10"]))
           (instructionOf "xor" [VStr "$t0"; VStr "$t1"; VStr "$t2"])
           0x00400008 XOR 8 9 10 6);
    vm_compute; first [reflexivity | split; [discriminate | reflexivity]].
Defined.

(** X23.  [sll], [srl] and [sra] by a constant of 0 to 31 bits: the register
    named first receives the value of the second shifted; [sra] shifts the
    value read as a signed number. *)
Theorem shift_instructions_shift s ins pc op rd rt (n v : Z) :
  switchOn (mnemonic ins) = Some op ->
  parseRegister (argAt (args ins) 0) = Ok rd ->
  parseRegister (argAt (args ins) 1) = Ok rt ->
  parseImmediate (argAt (args ins) 2) = Ok (JS.Num n) ->
  0 <= n < 32 ->
  let x := nth (Z.to_nat rt) (registers s) 0 in
  0 <= x < JS.two32 ->
  match op with
  | SLL => v = (x * 2 ^ n) mod JS.two32
  | SRL => v = x / 2 ^ n
  | SRA => v = (JS.toInt32 x / 2 ^ n) mod JS.two32
  | _ => False
  end ->
  registers (after (executeInstruction (Some ins) pc) s)
  = <[0%nat := 0]> (<[Z.to_nat rd := v]> (registers s)).
Proof.
  intros Hop Hd Ht Hn Hr x Hx Hv. unfold after, executeInstruction.
  rewrite Hop.
  assert (Hp : 0 < 2 ^ n) by (apply Z.pow_pos_nonneg; lia).
  destruct op; try (exfalso; exact Hv); subst v;
    cbv beta iota zeta delta [executeCase];
    unfold readReg, regIndex, bind, lift, gets, writeReg, modify, ret;
    rewrite Hd, Ht, Hn; fold x;
    cbn [fst snd registers setRegisters setPC setCycle setInstructionCount];
    rewrite shr_zero, toUint32_mod; do 2 f_equal.
  - unfold JS.shl. rewrite shiftCount_exact, Z.shiftl_mul_pow2 by lia.
    rewrite toInt32_mod, <- Z.mul_mod_idemp_l, toInt32_mod, Z.mul_mod_idemp_l
      by (unfold JS.two32; lia).
    reflexivity.
  - unfold JS.shr. rewrite shiftCount_exact, Z.shiftr_div_pow2 by lia.
    rewrite toUint32_exact by assumption. apply Z.mod_small.
    split; [apply Z.div_pos; lia |].
    apply Z.le_lt_trans with x; [| lia].
    apply Z.div_le_upper_bound; nia.
  - unfold JS.sar. rewrite shiftCount_exact, Z.shiftr_div_pow2 by lia.
    reflexivity.
Qed.

(** [sra] of -16 by 2 bits. *)
Lemma shift_instructions_shift_witness :
  let s := steps 1 (load ["addi $t1, $zero, -16"]) in
  registers (after (executeInstruction
     (Some (instructionOf "sra" [VStr "$t0"; VStr "$t1"; VStr "2"]))
     0x00400004) s)
  = <[0%nat := 0]> (<[Z.to_nat 8 := 0xFFFFFFFC]> (registers s)).
Proof.
  apply (shift_instructions_shift
           (steps 1 (load ["addi $t1, $zero, -16"]))
           (instructionOf "sra" [VStr "$t0"; VStr "$t1"; VStr "2"])
           0x00400004 SRA 8 9 2 0xFFFFFFFC);
    vm_compute; first [reflexivity | split; [discriminate | reflexivity]].
Defined.

(** X24.  [addi] and [addiu] add the immediate, read as a signed 16-bit
    number, to the register named second, modulo 2^32: neither detects
    overflow. *)
Theorem addi_adds_the_sign_extended_immediate s ins pc rt rs (imm : Z) :
  mnemonic ins = "addi" \/ mnemonic ins = "addiu" ->
  parseRegister (argAt (args ins) 0) = Ok rt ->
  parseRegister (argAt (args ins) 1) = Ok rs ->
  parseImmediate (argAt (args ins) 2) = Ok (JS.Num imm) ->
  let x := nth (Z.to_nat rs) (registers s) 0 in
  registers (after (executeInstruction (Some ins) pc) s)
  = <[0%nat := 0]>
      (<[Z.to_nat rt := (x + signExtend16 imm) mod JS.two32]> (registers s)).
Proof.
  intros Hm Hd Hs Hn x.
  destruct Hm as [Hm | Hm]; execute Hm;
    [change (switchOn _) with (Some ADDI)
    | change (switchOn _) with (Some ADDIU)];
    rewrite Hd, Hs, Hn; fold x;
    cbn [fst snd registers setRegisters setPC setCycle setInstructionCount];
    rewrite shr_zero, toUint32_mod; [| reflexivity].
  rewrite or_zero_r, <- Z.add_mod_idemp_l, toInt32_mod, Z.add_mod_idemp_l
    by (unfold JS.two32; lia).
  reflexivity.
Qed.

(** [addi] of the immediate 0xFFFF, which is read as -1, to 5. *)
Lemma addi_adds_the_sign_extended_immediate_witness :
  let s := steps 1 (load ["addi $t1, $zero, 5"]) in
  let x := nth (Z.to_nat 9) (registers s) 0 in
  registers (after (executeInstruction
     (Some (instructionOf "addi" [VStr "$t0"; VStr "$t1"; VStr "0xFFFF"]))
     0x00400004) s)
  = <[0%nat := 0]>
      (<[Z.to_nat 8 := (x + signExtend16 0xFFFF) mod JS.two32]> (registers s)).
Proof.
  apply (addi_adds_the_sign_extended_immediate
           (steps 1 (load ["addi $t1, $zero, 5"]))
           (instructionOf "addi" [VStr "$t0"; VStr "$t1"; VStr "0xFFFF"])
           0x00400004 8 9 0xFFFF);
    first [left; reflexivity | vm_compute; reflexivity].
Defined.

(** ** The range of touched addresses *)

Lemma StronglySorted_nth (l : list Z) :
  StronglySorted Z.le l ->
  forall i j, (i <= j < length l)%nat -> nth i l 0 <= nth j l 0.
Proof.
  induction 1 as [| x l Hs IH Hx]; intros i j Hij; cbn [length] in Hij;
    [lia |].
  destruct i as [| i], j as [| j]; cbn [nth]; try lia.
  - rewrite List.Forall_forall in Hx. apply Hx, nth_In. lia.
  - apply IH. lia.
Qed.

Lemma StronglySorted_bounds (l : list Z) :
  StronglySorted Z.le l -> forall a, a ∈ l ->
  nth 0 l 0 <= a <= nth (length l - 1) l 0.
Proof.
  intros Hs a Ha. apply list_elem_of_In in Ha.
  apply (In_nth _ _ 0) in Ha as (k & Hk & <-).
  split; apply StronglySorted_nth; try assumption; lia.
Qed.

Lemma wordDown (a : Z) :
  0 <= a < 0x10000 + 3 -> JS.shl (JS.shr a 2) 2 = a - a mod 4.
Proof.
  intros Ha. rewrite shr_exact by range. change (2 ^ 2) with 4.
  assert (0 <= a / 4 < 0x10000) by (split; [apply Z.div_pos | apply Z.div_lt_upper_bound]; lia).
  rewrite shl_exact by range. change (2 ^ 2) with 4.
  pose proof (Z.div_mod a 4). lia.
Qed.

(** X25.  After any sequence of calls, [getUsedMemoryRange] reports no data
    exactly when no address was touched; otherwise its [addresses] are the
    touched addresses in ascending order, [min] is the lowest of them rounded
    down to a multiple of 4 and [max] the highest rounded up to one, so that
    every touched address lies between the two. *)
Theorem used_range_covers_the_touched_addresses calls :
  let s := session calls in
  let r := getUsedMemoryRange s in
  match usedMemoryAddresses s with
  | [] => r = {| UsedRange.min := 0; UsedRange.max := 0;
                 UsedRange.addresses := None; UsedRange.hasData := false |}
  | _ :: _ =>
      UsedRange.hasData r = true
      /\ exists l lo hi,
        UsedRange.addresses r = Some l
        /\ l ≡ₚ usedMemoryAddresses s /\ StronglySorted Z.le l
        /\ lo ∈ l /\ hi ∈ l
        /\ Forall (fun a => lo <= a <= hi) l
        /\ UsedRange.min r = lo - lo mod 4
        /\ UsedRange.max r = hi + 3 - (hi + 3) mod 4
        /\ Forall (fun a => UsedRange.min r <= a <= UsedRange.max r)
             (usedMemoryAddresses s)
  end.
Proof.
  intros s r. subst r.
  pose proof (wellFormed_session calls) as (_ & _ & _ & _ & Hused & _).
  fold s in Hused. unfold getUsedMemoryRange.
  destruct (usedMemoryAddresses s) as [| a0 used] eqn:E; cbn [length Nat.eqb].
  { reflexivity. }
  split; [reflexivity |].
  set (l := merge_sort Z.le (a0 :: used)).
  assert (Hperm : l ≡ₚ a0 :: used) by apply merge_sort_Permutation.
  assert (Hsorted : StronglySorted Z.le l) by (apply StronglySorted_merge_sort; apply _).
  assert (Hlen : (0 < length l)%nat) by (rewrite Hperm; cbn; lia).
  assert (Hin : forall a, a ∈ l -> 0 <= a < 0x10000).
  { intros a Ha. rewrite Hperm in Ha. rewrite Forall_forall in Hused.
    apply Hused, Ha. }
  assert (Hlo : nth 0 l 0 ∈ l) by (apply list_elem_of_In, nth_In; lia).
  assert (Hhi : nth (length l - 1) l 0 ∈ l)
    by (apply list_elem_of_In, nth_In; lia).
  exists l, (nth 0 l 0), (nth (length l - 1) l 0).
  cbn [UsedRange.addresses UsedRange.min UsedRange.max].
  assert (Hb : forall a, a ∈ l ->
            nth 0 l 0 <= a <= nth (length l - 1) l 0)
    by (intros a Ha; apply StronglySorted_bounds; assumption).
  assert (Hmin : JS.shl (JS.shr (nth 0 l 0) 2) 2 = nth 0 l 0 - nth 0 l 0 mod 4)
    by (apply wordDown; apply Hin in Hlo; lia).
  assert (Hmax : JS.shl (JS.shr (nth (length l - 1) l 0 + 3) 2) 2
                 = nth (length l - 1) l 0 + 3
                   - (nth (length l - 1) l 0 + 3) mod 4)
    by (apply wordDown; apply Hin in Hhi; lia).
  repeat split; try assumption.
  - apply Forall_forall. exact Hb.
  - rewrite Hmin, Hmax. apply Forall_forall. intros a Ha.
    rewrite <- Hperm in Ha. apply Hb in Ha.
    pose proof (Z.mod_pos_bound (nth 0 l 0) 4).
    pose proof (Z.div_mod (nth (length l - 1) l 0 + 3) 4).
    pose proof (Z.mod_pos_bound (nth (length l - 1) l 0 + 3) 4).
    lia.
Qed.

(** ** Control signals *)

(** X26.  Whatever the word, at most one of [MemRead], [MemWrite], [Branch]
    and [Jump] is set in its control signals; [MemToReg] goes with [MemRead],
    a load writes a register, and a store or a branch never does. *)
Theorem control_signals_are_exclusive (w : Z) :
  let c := generateControlSignals (decodeInstruction w) in
  (Nat.b2n (Control.MemRead c) + Nat.b2n (Control.MemWrite c)
   + Nat.b2n (Control.Branch c) + Nat.b2n (Control.Jump c) <= 1)%nat
  /\ Control.MemToReg c = Control.MemRead c
  /\ Control.MemRead c && negb (Control.RegWrite c) = false
  /\ (Control.MemWrite c || Control.Branch c) && Control.RegWrite c = false.
Proof.
  cbv zeta. unfold generateControlSignals.
  generalize (Decoded.opcode (decodeInstruction w)). intros op.
  repeat match goal with
         | |- context [if ?b then _ else _] => destruct b eqn:?
         end;
    cbn; repeat split; intros; try lia; congruence.
Qed.

(** ** Comments *)

Lemma split_head (sep c : ascii) (r : string) :
  hd "" (Str.split sep (String c r))
  = if Ascii.eqb c sep then "" else String c (hd "" (Str.split sep r)).
Proof.
  cbn [Str.split]. destruct (Ascii.eqb c sep); [reflexivity |].
  destruct (Str.split sep r) as [| x xs] eqn:E; [| reflexivity].
  destruct r; cbn in E; [discriminate |].
  destruct (Ascii.eqb _ _); [discriminate |].
  destruct (Str.split sep r); discriminate.
Qed.

Lemma split_head_without (sep : ascii) (line rest : string) :
  Str.forallb (fun c => negb (Ascii.eqb c sep)) line = true ->
  hd "" (Str.split sep (line +:+ String sep rest)) = line.
Proof.
  induction line as [| c line IH]; intros H.
  - change ("" +:+ String sep rest) with (String sep rest).
    rewrite split_head, Ascii.eqb_refl. reflexivity.
  - cbn [Str.forallb] in H. apply andb_prop in H as [Hc H].
    change (String c line +:+ String sep rest)
      with (String c (line +:+ String sep rest)).
    rewrite split_head. apply negb_true_iff in Hc. rewrite Hc.
    f_equal. apply IH, H.
Qed.

Lemma split_head_prefix (sep : ascii) (line : string) :
  exists rest,
    line = hd "" (Str.split sep line) +:+ rest
    /\ (rest = "" \/ exists r, rest = String sep r)
    /\ Str.forallb (fun c => negb (Ascii.eqb c sep))
         (hd "" (Str.split sep line)) = true.
Proof.
  induction line as [| c line (rest & IH & Hrest & Hall)].
  - exists "". repeat split. left. reflexivity.
  - rewrite split_head. destruct (Ascii.eqb c sep) eqn:E.
    + apply Ascii.eqb_eq in E as ->. exists (String sep line).
      repeat split. right. eauto.
    + exists rest. split; [| split; [exact Hrest |]].
      * change (String c (hd "" (Str.split sep line)) +:+ rest)
          with (String c (hd "" (Str.split sep line) +:+ rest)).
        f_equal. exact IH.
      * cbn [Str.forallb]. rewrite E. exact Hall.
Qed.

Lemma append_assoc (a b c : string) : (a +:+ b) +:+ c = a +:+ b +:+ c.
Proof.
  induction a as [| x a IH]; [reflexivity |].
  change (String x a +:+ b) with (String x (a +:+ b)).
  change (String x (a +:+ b) +:+ c) with (String x ((a +:+ b) +:+ c)).
  rewrite IH. reflexivity.
Qed.

(** X27.  [parseLine] reads a line up to its first number sign: whatever
    follows is a comment and changes nothing. *)
Theorem parseLine_ignores_the_comment (line comment : string) :
  parseLine (line +:+ "#" +:+ comment) = parseLine line.
Proof.
  assert (H : hd "" (Str.split "#" (line +:+ "#" +:+ comment))
              = hd "" (Str.split "#" line)).
  { destruct (split_head_prefix "#" line) as (rest & Hl & Hrest & Hall).
    rewrite Hl at 1. rewrite append_assoc.
    destruct Hrest as [-> | (r & ->)].
    - change ("" +:+ "#" +:+ comment) with (String "#" comment).
      apply split_head_without, Hall.
    - change (String "#" r +:+ "#" +:+ comment)
        with (String "#" (r +:+ "#" +:+ comment)).
      apply split_head_without, Hall. }
  unfold parseLine. rewrite H. reflexivity.
Qed.

(** ** Formatting and parsing *)

Lemma digitChar_spec (radix v : Z) (g : ascii -> ascii) :
  (g = id \/ g = upperChar) ->
  0 <= v < radix -> radix <= 16 ->
  Str.digitValue radix (g (digitChar v)) = Some v
  /\ plain (g (digitChar v)) = true.
Proof.
  intros Hg Hv Hr.
  assert (H : In v [0; 1; 2; 3; 4; 5; 6; 7; 8; 9; 10; 11; 12; 13; 14; 15])
    by (cbn; lia).
  assert (Hlt : (v <? radix) = true) by (apply Z.ltb_lt; lia).
  repeat (destruct H as [<- | H];
          [destruct Hg as [-> | ->]; (split; [| reflexivity]);
           unfold Str.digitValue;
           match goal with
           | |- (if (?v <? _) then _ else _) = _ =>
               let x := (eval vm_compute in v) in change v with x
           end; rewrite Hlt; reflexivity |]).
  destruct H.
Qed.

Lemma length_append (a b : string) :
  String.length (a +:+ b) = (String.length a + String.length b)%nat.
Proof.
  induction a as [| x a IH]; [reflexivity |].
  change (String x a +:+ b) with (String x (a +:+ b)). cbn [String.length].
  rewrite IH. reflexivity.
Qed.

Lemma mapChars_append g (a b : string) :
  mapChars g (a +:+ b) = mapChars g a +:+ mapChars g b.
Proof.
  induction a as [| x a IH]; [reflexivity |].
  change (String x a +:+ b) with (String x (a +:+ b)). cbn [mapChars].
  rewrite IH. reflexivity.
Qed.

Lemma length_mapChars g (a : string) :
  String.length (mapChars g a) = String.length a.
Proof. induction a as [| x a IH]; cbn; congruence. Qed.

Lemma forallb_append p (a b : string) :
  Str.forallb p (a +:+ b) = Str.forallb p a && Str.forallb p b.
Proof.
  induction a as [| x a IH]; [reflexivity |].
  change (String x a +:+ b) with (String x (a +:+ b)). cbn [Str.forallb].
  rewrite IH. apply andb_assoc.
Qed.

(** The digits [digitsOf] puts before [acc]: as many as the number needs,
    and [parseInt] reads them back, in either case. *)
Lemma digitsOf_spec (g : ascii -> ascii) (radix : Z) :
  (g = id \/ g = upperChar) -> 2 <= radix <= 16 ->
  forall fuel n acc,
    (0 < fuel)%nat -> 0 <= n < radix ^ Z.of_nat fuel ->
    exists d,
      digitsOf fuel radix n acc = d +:+ acc
      /\ (1 <= String.length d)%nat
      /\ (String.length d = 1%nat
          \/ radix ^ (Z.of_nat (String.length d) - 1) <= n)
      /\ Str.forallb plain (mapChars g d) = true
      /\ forall a rest,
           Str.digitsFrom radix a (mapChars g d +:+ rest)
           = Str.digitsFrom radix
               (Some (radix ^ Z.of_nat (String.length d) * default 0 a + n))
               rest.
Proof.
  intros Hg Hr. induction fuel as [| fuel IH]; intros n acc Hf Hn; [lia |].
  cbn [digitsOf].
  assert (Hm : 0 <= n mod radix < radix) by (apply Z.mod_pos_bound; lia).
  destruct (digitChar_spec radix (n mod radix) g Hg Hm ltac:(lia)) as [Hv Hp].
  pose proof (Z.div_mod n radix ltac:(lia)) as Hdm.
  destruct (Z.eqb_spec (n / radix) 0) as [Hq | Hq].
  - exists (String (digitChar (n mod radix)) "").
    split; [reflexivity |]. split; [cbn; lia |]. split; [left; reflexivity |].
    split; [cbn [mapChars Str.forallb]; rewrite Hp; reflexivity |].
    intros a rest.
    change (mapChars g (String (digitChar (n mod radix)) "") +:+ rest)
      with (String (g (digitChar (n mod radix))) rest).
    cbn [Str.digitsFrom]. rewrite Hv. cbn [String.length].
    do 2 f_equal. change (Z.of_nat 1) with 1. rewrite Z.pow_1_r. nia.
  - assert (Hq' : 0 <= n / radix < radix ^ Z.of_nat fuel).
    { split; [apply Z.div_pos; lia |].
      apply Z.div_lt_upper_bound; [lia |].
      rewrite Nat2Z.inj_succ, Z.pow_succ_r in Hn by lia. lia. }
    assert (Hf' : (0 < fuel)%nat).
    { destruct fuel; [| lia]. cbn in Hq'. lia. }
    destruct (IH (n / radix) (String (digitChar (n mod radix)) acc) Hf' Hq')
      as (d & Hd & Hlen & Hmin & Hall & Hparse).
    exists (d +:+ String (digitChar (n mod radix)) "").
    assert (Hl : Z.of_nat (String.length (d +:+ String (digitChar (n mod radix)) ""))
                 = Z.of_nat (String.length d) + 1)
      by (rewrite length_append; cbn [String.length]; lia).
    assert (Hpow : 0 < radix ^ (Z.of_nat (String.length d) - 1))
      by (apply Z.pow_pos_nonneg; lia).
    split; [rewrite Hd, append_assoc; reflexivity |].
    split; [rewrite length_append; cbn [String.length]; lia |].
    split.
    { right. rewrite Hl.
      replace (Z.of_nat (String.length d) + 1 - 1)
        with (Z.succ (Z.of_nat (String.length d) - 1)) by lia.
      rewrite Z.pow_succ_r by lia.
      destruct Hmin as [H1 | Hmin]; [rewrite H1 in *; cbn in *; nia | nia]. }
    split.
    { rewrite mapChars_append, forallb_append, Hall.
      cbn [mapChars Str.forallb]. rewrite Hp. reflexivity. }
    intros a rest. rewrite mapChars_append, append_assoc, Hparse.
    change (mapChars g (String (digitChar (n mod radix)) "") +:+ rest)
      with (String (g (digitChar (n mod radix))) rest).
    cbn [Str.digitsFrom]. rewrite Hv. cbn [default from_option]. unfold id.
    do 2 f_equal. rewrite Hl, Z.pow_add_r, Z.pow_1_r by lia. nia.
Qed.

Lemma digitsFrom_zeros (radix : Z) (t : string) :
  2 <= radix -> forall k a, default 0 a = 0 ->
  exists a', default 0 a' = 0
    /\ Str.digitsFrom radix a (Nat.iter k (String "0") t)
       = Str.digitsFrom radix a' t.
Proof.
  intros Hr.
  assert (Hv : Str.digitValue radix "0" = Some 0).
  { assert (Hlt : (0 <? radix) = true) by (apply Z.ltb_lt; lia).
    unfold Str.digitValue. change (Str.isDigit "0") with true. cbv iota.
    change (Str.code "0" - 48) with 0. rewrite Hlt. reflexivity. }
  induction k as [| k IH]; intros a Ha; [eauto |].
  rewrite Nat.iter_succ. cbn [Str.digitsFrom]. rewrite Hv.
  apply IH. cbn. lia.
Qed.

Lemma length_padStart (k : nat) (c : ascii) (s : string) :
  (String.length s <= k)%nat -> String.length (padStart k c s) = k.
Proof.
  unfold padStart. intros H.
  assert (Hi : forall j, String.length (Nat.iter j (String c) s)
                         = (j + String.length s)%nat)
    by (induction j as [| j IH]; [reflexivity |];
        rewrite Nat.iter_succ; cbn [String.length]; rewrite IH; reflexivity).
  rewrite Hi. lia.
Qed.

Lemma mapChars_zeros g (k : nat) (s : string) :
  g "0"%char = "0"%char ->
  mapChars g (Nat.iter k (String "0") s) = Nat.iter k (String "0") (mapChars g s).
Proof.
  intros Hg. induction k as [| k IH]; [reflexivity |].
  rewrite !Nat.iter_succ. cbn [mapChars]. rewrite IH, Hg. reflexivity.
Qed.

Lemma forallb_zeros (k : nat) (s : string) :
  Str.forallb plain (Nat.iter k (String "0") s) = Str.forallb plain s.
Proof.
  induction k as [| k IH]; [reflexivity |].
  rewrite Nat.iter_succ. cbn [Str.forallb]. rewrite IH. reflexivity.
Qed.

Lemma trimEnd_plain (s : string) :
  Str.forallb plain s = true -> Str.trimEnd s = s.
Proof.
  induction s as [| c s IH]; [reflexivity |]. cbn [Str.forallb Str.trimEnd].
  intros [Hc Hs]%andb_prop. rewrite (IH Hs).
  destruct s; [| reflexivity].
  unfold plain in Hc. destruct (Str.isSpace c); [discriminate | reflexivity].
Qed.

(** The digits of a number below [radix ^ width], padded to [width]. *)
Lemma padded_digits (g : ascii -> ascii) (radix : Z) (width : nat) (n : Z) :
  (g = id \/ g = upperChar) -> 2 <= radix <= 16 -> (0 < width)%nat ->
  0 <= n < radix ^ Z.of_nat width ->
  let s := mapChars g (padStart width "0" (toStringRadix n radix)) in
  String.length s = width
  /\ Str.forallb plain s = true
  /\ Str.digitsFrom radix None s = Some n.
Proof.
  intros Hg Hr Hwidth Hn s. subst s. unfold toStringRadix.
  destruct (Z.ltb_spec n 0) as [Hneg | _]; [lia |].
  set (fuel := S (Z.to_nat (Z.log2 n))).
  assert (Hfuel : 0 <= n < radix ^ Z.of_nat fuel).
  { split; [lia |]. unfold fuel. rewrite Nat2Z.inj_succ, Z2Nat.id
      by apply Z.log2_nonneg.
    destruct (Z.eq_dec n 0) as [-> | Hn0].
    - apply Z.pow_pos_nonneg; cbn; lia.
    - apply Z.lt_le_trans with (2 ^ Z.succ (Z.log2 n)).
      + apply Z.log2_spec. lia.
      + apply Z.pow_le_mono_l. lia. }
  destruct (digitsOf_spec g radix Hg Hr fuel n "" ltac:(unfold fuel; lia) Hfuel)
    as (d & Hd & Hlen & Hmin & Hall & Hparse).
  rewrite Hd. assert (Hd0 : d +:+ "" = d).
  { clear. induction d as [| c d IH]; [reflexivity |].
    change (String c d +:+ "") with (String c (d +:+ "")). congruence. }
  rewrite Hd0.
  assert (Hw : (String.length d <= width)%nat).
  { destruct Hmin as [-> | Hmin].
    - lia.
    - destruct (Nat.le_gt_cases (String.length d) width) as [Hle | Hgt];
        [exact Hle | exfalso].
      assert (radix ^ Z.of_nat width <= radix ^ (Z.of_nat (String.length d) - 1))
        by (apply Z.pow_le_mono_r; lia).
      lia. }
  assert (Hg0 : g "0"%char = "0"%char) by (destruct Hg as [-> | ->]; reflexivity).
  unfold padStart. rewrite mapChars_zeros by exact Hg0.
  split.
  { pose proof (length_padStart width "0" (mapChars g d)) as L.
    unfold padStart in L. rewrite length_mapChars in L. apply L, Hw. }
  split; [rewrite forallb_zeros; exact Hall |].
  destruct (digitsFrom_zeros radix (mapChars g d) ltac:(lia)
              (width - String.length d) None eq_refl) as (a' & Ha' & ->).
  specialize (Hparse a' "").
  assert (Hm0 : mapChars g d +:+ "" = mapChars g d).
  { generalize (mapChars g d). clear. intros d.
    induction d as [| c d IH]; [reflexivity |].
    change (String c d +:+ "") with (String c (d +:+ "")). congruence. }
  rewrite Hm0 in Hparse. rewrite Hparse, Ha'. cbn [Str.digitsFrom].
  f_equal. lia.
Qed.

Lemma mapChars_id (s : string) : mapChars id s = s.
Proof. induction s as [| c s IH]; cbn; congruence. Qed.

Lemma parseInt_plain (c : ascii) (t : string) :
  plain c = true ->
  Str.parseInt (String c t) 2
  = match Str.digitsFrom 2 None (String c t) with
    | Some v => JS.Num v
    | None => JS.NaN
    end.
Proof.
  unfold plain, Str.parseInt. cbn [Str.trimStart].
  destruct (Str.isSpace c); [discriminate |]. cbn [negb andb].
  change (2 =? 16) with false. cbv iota.
  destruct c as [[] [] [] [] [] [] [] []]; try discriminate; reflexivity.
Qed.

Lemma format_parse (n : Z) :
  0 <= n < 2 ^ 32 ->
  String.length (formatHex n) = 10%nat
  /\ parseImmediate (VStr (formatHex n)) = Ok (JS.Num n)
  /\ String.length (formatBinary n) = 32%nat
  /\ Str.parseInt (formatBinary n) 2 = JS.Num n.
Proof.
  intros Hn.
  destruct (padded_digits upperChar 16 8 n) as (Hl & Hp & Hd);
    [auto | lia | lia | exact Hn |].
  destruct (padded_digits id 2 32 n) as (Bl & Bp & Bd);
    [auto | lia | lia | exact Hn |].
  rewrite mapChars_id in Bl, Bp, Bd. fold (formatBinary n) in Bl, Bp, Bd.
  fold (toUpperCase (padStart 8 "0" (toStringRadix n 16))) in Hl, Hp, Hd.
  unfold formatHex. set (U := toUpperCase _) in *. clearbody U.
  change ("0x" +:+ U) with (String "0" (String "x" U)).
  split; [cbn [String.length]; rewrite Hl; reflexivity |].
  split.
  - unfold parseImmediate.
    assert (Htrim : Str.trim (String "0" (String "x" U))
                    = String "0" (String "x" U)).
    { unfold Str.trim. change (Str.trimStart (String "0" (String "x" U)))
        with (String "0" (String "x" U)).
      apply trimEnd_plain. cbn [Str.forallb]. rewrite Hp. reflexivity. }
    rewrite Htrim.
    replace (Str.startsWith (String "0" (String "x" U)) "0x") with true
      by (destruct U; reflexivity).
    cbn [orb].
    change (Str.parseInt (String "0" (String "x" U)) 16)
      with (match Str.digitsFrom 16 None U with
            | Some v => JS.Num v
            | None => JS.NaN
            end).
    rewrite Hd. reflexivity.
  - split; [exact Bl |].
    destruct (formatBinary n) as [| c t]; [discriminate Bl |].
    cbn [Str.forallb] in Bp. apply andb_prop in Bp as [Hc _].
    rewrite parseInt_plain, Bd by exact Hc. reflexivity.
Qed.

(** X28.  [formatHex] gives [0x] and eight digits, [formatBinary] 32 digits,
    for an unsigned 32-bit number; [parseImmediate] reads the number back
    from the first and [parseInt], radix 2, from the second. *)
Theorem formatted_numbers_parse_back (n : Z) :
  0 <= n < 2 ^ 32 ->
  String.length (formatHex n) = 10%nat
  /\ parseImmediate (VStr (formatHex n)) = Ok (JS.Num n)
  /\ String.length (formatBinary n) = 32%nat
  /\ Str.parseInt (formatBinary n) 2 = JS.Num n.
Proof. apply format_parse. Qed.

Lemma formatted_numbers_parse_back_witness :
  String.length (formatHex 0x012A4020) = 10%nat
  /\ parseImmediate (VStr (formatHex 0x012A4020)) = Ok (JS.Num 0x012A4020)
  /\ String.length (formatBinary 0x012A4020) = 32%nat
  /\ Str.parseInt (formatBinary 0x012A4020) 2 = JS.Num 0x012A4020.
Proof. apply (formatted_numbers_parse_back 0x012A4020). lia. Defined.

(** X29.  After any sequence of calls the listing has one entry for each
    record of [instructions], in order, whose [hex] and [binary] columns are
    10 and 32 characters that parse back to the stored word. *)
Theorem listing_shows_the_stored_words calls :
  let s := session calls in
  Forall2
    (fun ins e =>
       String.length (Listing.hex e) = 10%nat
       /\ parseImmediate (VStr (Listing.hex e)) = Ok (JS.Num (binary ins))
       /\ String.length (Listing.binary e) = 32%nat
       /\ Str.parseInt (Listing.binary e) 2 = JS.Num (binary ins))
    (instructions s) (getListing s).
Proof.
  cbv zeta. unfold getListing.
  destruct (wellFormed_session calls) as (_ & _ & _ & _ & _ & _ & _ & Hw).
  induction Hw as [| ins l Hins _ IH]; cbn [map]; constructor; [| exact IH].
  cbn [Listing.hex Listing.binary]. apply format_parse. exact Hins.
Qed.

(** ** A word stored and loaded *)

Lemma setUsedMemoryAddresses_same s :
  setUsedMemoryAddresses s (usedMemoryAddresses s) = s.
Proof. destruct s; reflexivity. Qed.

Lemma setUsedMemoryAddresses_twice s u u' :
  setUsedMemoryAddresses (setUsedMemoryAddresses s u) u'
  = setUsedMemoryAddresses s u'.
Proof. reflexivity. Qed.

Lemma readMemory_spec a s :
  exists u, readMemory a s
            = (Ok (byteAt (memory s) a), setUsedMemoryAddresses s u).
Proof.
  unfold readMemory, byteAt. destruct (_ <? _); [eauto |].
  exists (usedMemoryAddresses s). rewrite setUsedMemoryAddresses_same.
  reflexivity.
Qed.

(** What [readWord] returns depends on the memory only. *)
Lemma readWord_spec a s :
  let A := JS.and a (JS.not 3) in
  exists u,
    readWord a s
    = (Ok (JS.or (JS.or (JS.or (JS.shl (byteAt (memory s) A) 24)
                               (JS.shl (byteAt (memory s) (A + 1)) 16))
                        (JS.shl (byteAt (memory s) (A + 2)) 8))
                 (byteAt (memory s) (A + 3))),
       setUsedMemoryAddresses s u).
Proof.
  intros A. unfold readWord, bind. fold A.
  do 4 (match goal with
        | |- context [readMemory ?x ?t] =>
            let u := fresh "u" in
            destruct (readMemory_spec x t) as (u & ->);
            cbn [memory setUsedMemoryAddresses]
        end).
  eexists. unfold ret. reflexivity.
Qed.

Lemma readWord_memory a s s' :
  memory s = memory s' -> fst (readWord a s) = fst (readWord a s').
Proof.
  intros H. destruct (readWord_spec a s) as (u & ->).
  destruct (readWord_spec a s') as (u' & ->). rewrite H. reflexivity.
Qed.

Lemma writeMemory_spec a v s :
  exists m u, writeMemory a v s
              = (Ok tt, setUsedMemoryAddresses (setMemory s m) u).
Proof.
  unfold writeMemory. destruct (_ <? _); [eauto |].
  exists (memory s), (usedMemoryAddresses s). destruct s; reflexivity.
Qed.

Lemma writeWord_spec a v s :
  exists m u, writeWord a v s
              = (Ok tt, setUsedMemoryAddresses (setMemory s m) u).
Proof.
  unfold writeWord, bind.
  destruct (writeMemory_spec (JS.and a (JS.not 3))
              (JS.and (JS.shr v 24) 255) s) as (m1 & u1 & ->).
  destruct (writeMemory_spec (JS.and a (JS.not 3) + 1)
              (JS.and (JS.shr v 16) 255)
              (setUsedMemoryAddresses (setMemory s m1) u1)) as (m2 & u2 & ->).
  destruct (writeMemory_spec (JS.and a (JS.not 3) + 2)
              (JS.and (JS.shr v 8) 255)
              (setUsedMemoryAddresses (setMemory
                 (setUsedMemoryAddresses (setMemory s m1) u1) m2) u2))
    as (m3 & u3 & ->).
  match goal with
  | |- context [writeMemory ?x ?y ?t] =>
      destruct (writeMemory_spec x y t) as (m4 & u4 & ->)
  end.
  exists m4, u4. reflexivity.
Qed.

Lemma registers_nth_range s (i : nat) :
  Forall (fun v => 0 <= v < JS.two32) (registers s) ->
  0 <= nth i (registers s) 0 < JS.two32.
Proof.
  intros H. destruct (Nat.lt_ge_cases i (length (registers s))) as [Hi | Hi].
  - rewrite List.Forall_forall in H. apply H, nth_In, Hi.
  - rewrite nth_overflow by exact Hi. unfold JS.two32. lia.
Qed.

(** X30.  After any sequence of calls, a word that [sw] stores inside the
    memory is what [lw] with the same operand loads: the register [lw] names
    receives the value of the register [sw] named. *)
Theorem lw_loads_what_sw_stored
    calls swIns lwIns pc pc' rv rc (off : JS.number) base a b c :
  let s := session calls in
  mnemonic swIns = "sw" -> args swIns = [rv; VOffsetReg off base] ->
  mnemonic lwIns = "lw" -> args lwIns = [rc; VOffsetReg off base] ->
  parseRegister rv = Ok a -> parseRegister (VStr base) = Ok b ->
  parseRegister rc = Ok c -> c <> 0 ->
  let E := JS.shr (JS.add (nth (Z.to_nat b) (registers s) 0) off) 0 in
  let A := JS.and E (JS.not 3) in
  0 <= A -> A + 3 < 0x10000 ->
  let s1 := after (executeInstruction (Some swIns) pc) s in
  let s2 := after (executeInstruction (Some lwIns) pc') s1 in
  registers s2 !! Z.to_nat c = Some (nth (Z.to_nat a) (registers s) 0).
Proof.
  intros s Hsw Hswa Hlw Hlwa Ha Hb Hc Hc0 E A HA0 HA3 s1 s2.
  destruct (wellFormed_session calls) as (Hlen & Hregs & Hmem & _).
  destruct (zeroWired_session calls) as (_ & Hzero & _).
  fold s in Hlen, Hregs, Hmem, Hzero.
  set (v := nth (Z.to_nat a) (registers s) 0).
  assert (Hv : 0 <= v < JS.two32) by apply registers_nth_range, Hregs.
  assert (Hid : <[0%nat := 0]> (registers s) = registers s)
    by apply list_insert_id, Hzero.
  (* the store *)
  destruct (writeWord_spec E v s) as (m & u & Hw).
  assert (Hs1 : registers s1 = registers s
                /\ memory s1 = memory (after (writeWord E v) s)).
  { subst s1. unfold after at 1 2, executeInstruction. rewrite Hsw.
    change (switchOn "sw") with (Some SW).
    cbv beta iota zeta delta [executeCase].
    unfold effectiveAddress, readReg, regIndex, bind, lift, gets, writeReg,
      modify, ret.
    rewrite Hswa. cbn [argAt nth propReg propOffset]. rewrite Hb, Ha.
    fold E v. unfold after. rewrite Hw.
    cbn [fst snd registers memory setRegisters setMemory setPC setCycle
         setInstructionCount setUsedMemoryAddresses].
    split; [exact Hid | reflexivity]. }
  destruct Hs1 as [Hr1 Hm1].
  (* the load *)
  destruct (readWord_spec E s1) as (u' & Hr).
  assert (Hword : fst (readWord E s1) = Ok (JS.toInt32 v)).
  { rewrite (readWord_memory E s1 (after (writeWord E v) s) Hm1).
    apply readWord_after_writeWord; fold A; rewrite ?Hmem, ?Z2Nat.id;
      unfold JS.two32; lia. }
  rewrite Hr in Hword. cbn [fst] in Hword. injection Hword as Hword.
  subst s2. unfold after at 1, executeInstruction. rewrite Hlw.
  change (switchOn "lw") with (Some LW).
  cbv beta iota zeta delta [executeCase].
  unfold effectiveAddress, readReg, regIndex, bind, lift, gets, writeReg,
    modify, ret.
  rewrite Hlwa. cbn [argAt nth propReg propOffset]. rewrite Hb, Hc, Hr1.
  fold E. rewrite Hr, Hword.
  cbn [fst snd registers setRegisters setPC setCycle setInstructionCount
       setUsedMemoryAddresses].
  rewrite Hr1.
  pose proof (parseRegister_range _ _ Hc) as Hcr.
  rewrite list_lookup_insert_ne by lia.
  rewrite list_lookup_insert_eq by lia.
  f_equal. change (JS.toInt32 v mod JS.two32 = v). rewrite toInt32_mod.
  apply Z.mod_small, Hv.
Qed.

(** A word stored at 4 past the address in a register and loaded again. *)
Lemma lw_loads_what_sw_stored_witness :
  let s := session [CallLoadProgram (program ["addi $t1, $zero, 1234";
                                              "addi $t2, $zero, 256"]);
                    CallStep; CallStep] in
  let s1 := after (executeInstruction
              (Some (instructionOf "sw" [VStr "$t1"; VOffsetReg 4 "$t2"]))
              0x00400008) s in
  let s2 := after (executeInstruction
              (Some (instructionOf "lw" [VStr "$t0"; VOffsetReg 4 "$t2"]))
              0x0040000c) s1 in
  registers s2 !! Z.to_nat 8 = Some (nth (Z.to_nat 9) (registers s) 0).
Proof.
  apply (lw_loads_what_sw_stored
           [CallLoadProgram (program ["addi $t1, $zero, 1234";
                                      "addi $t2, $zero, 256"]);
            CallStep; CallStep]
           (instructionOf "sw" [VStr "$t1"; VOffsetReg 4 "$t2"])
           (instructionOf "lw" [VStr "$t0"; VOffsetReg 4 "$t2"])
           0x00400008 0x0040000c (VStr "$t1") (VStr "$t0") 4 "$t2" 9 10 8);
    first [reflexivity | lia | vm_compute; first [reflexivity | discriminate]].
Defined.

(** ** Registers, immediates and the shape of the object *)

(** X1.  A register operand that [parseRegister] accepts is one of the 32
    registers. *)
Theorem parseRegister_gives_a_register_number (v : value) (n : Z) :
  parseRegister v = Ok n -> 0 <= n < 32.
Proof. apply parseRegister_range. Qed.

Lemma parseRegister_gives_a_register_number_witness : 0 <= 29 < 32.
Proof.
  apply (parseRegister_gives_a_register_number (VStr " $SP, ") 29).
  vm_compute. reflexivity.
Defined.

Lemma signExtend16_toUint32 (n : JS.number) :
  signExtend16 (JS.toUint32 n mod 2 ^ 16) = signExtend16 n.
Proof.
  destruct n as [| z]; [reflexivity |].
  rewrite !signExtend16_spec. cbn [JS.toUint32]. cbv zeta.
  assert (Hdiv : (2 ^ 16 | JS.two32)) by (exists (2 ^ 16); reflexivity).
  rewrite Z.mod_mod by lia. rewrite Z.mod_mod_divide by exact Hdiv.
  reflexivity.
Qed.

(** X3.  Decoding an I-type word gives back what [encodeIType] was given:
    the opcode of the mnemonic, the numbers of the two registers, and the low
    16 bits of the immediate, whose sign extension is that of the immediate
    itself.  A mnemonic without an entry of its own in the opcode table gets a
    word only when it names a property of [Object.prototype], and the opcode
    field is then 0. *)
Theorem decode_encodeIType_immediate m rt rs imm (w : Z) :
  encodeIType m rt rs imm = Ok w ->
  let d := decodeInstruction w in
  0 <= w < JS.two32
  /\ match tableGet opcodes m with
     | Some op => Decoded.opcode d = op
     | None => In m objectPrototypeKeys /\ Decoded.opcode d = 0
     end
  /\ parseRegister rs = Ok (Decoded.rs d)
  /\ parseRegister rt = Ok (Decoded.rt d)
  /\ exists n,
       parseImmediate imm = Ok n
       /\ Decoded.immediate d = JS.toUint32 n mod 2 ^ 16
       /\ signExtend16 (Decoded.immediate d) = signExtend16 n.
Proof.
  intros H d.
  destruct (decode_encodeIType _ _ _ _ _ H) as (Hw & Hop & Hs & Ht & n & Hn & Hi).
  fold d in Hop, Hs, Ht, Hi.
  split; [exact Hw |]. split.
  { unfold encodeIType, tableProperty in H.
    destruct (tableGet opcodes m) as [op |]; [exact Hop |].
    destruct (existsb _ _) eqn:E; [| discriminate H].
    split; [| exact Hop].
    apply existsb_exists in E as (k & Hk & Heq).
    apply String.eqb_eq in Heq. subst k. exact Hk. }
  split; [exact Hs |]. split; [exact Ht |]. exists n.
  split; [exact Hn |]. split; [exact Hi |].
  rewrite Hi. apply signExtend16_toUint32.
Qed.

(** [addi $t0, $t1, -1]. *)
Lemma decode_encodeIType_immediate_witness :
  let d := decodeInstruction 0x2128FFFF in
  0 <= 0x2128FFFF < JS.two32
  /\ match tableGet opcodes "addi" with
     | Some op => Decoded.opcode d = op
     | None => In "addi" objectPrototypeKeys /\ Decoded.opcode d = 0
     end
  /\ parseRegister (VStr "$t1") = Ok (Decoded.rs d)
  /\ parseRegister (VStr "$t0") = Ok (Decoded.rt d)
  /\ exists n,
       parseImmediate (VStr "-1") = Ok n
       /\ Decoded.immediate d = JS.toUint32 n mod 2 ^ 16
       /\ signExtend16 (Decoded.immediate d) = signExtend16 n.
Proof.
  apply (decode_encodeIType_immediate "addi" (VStr "$t0") (VStr "$t1")
           (VStr "-1") 0x2128FFFF).
  vm_compute. reflexivity.
Defined.

(** X4.  [signExtend16] reads the low 16 bits of its argument as a signed
    number, whatever the other bits. *)
Theorem signExtend16_reads_16_bits_as_signed (z : Z) :
  signExtend16 z
  = let u := z mod 2 ^ 16 in if u <? 2 ^ 15 then u else u - 2 ^ 16.
Proof. apply signExtend16_spec. Qed.

(** X10.  After any sequence of calls there are 32 registers, each an
    unsigned 32-bit number, and 65,536 bytes of memory, each 0 to 255. *)
Theorem registers_and_memory_keep_their_shape calls :
  let s := session calls in
  length (registers s) = 32%nat
  /\ Forall (fun v => 0 <= v < 2 ^ 32) (registers s)
  /\ Z.of_nat (length (memory s)) = 65536
  /\ Forall (fun b => 0 <= b < 256) (memory s).
Proof.
  destruct (wellFormed_session calls) as (H1 & H2 & H3 & H4 & _).
  cbv zeta. rewrite H3, Z2Nat.id by lia.
  split; [exact H1 |]. split; [exact H2 |]. split; [reflexivity | exact H4].
Qed.

(** X11.  After any sequence of calls the touched addresses are distinct
    and lie inside the memory. *)
Theorem touched_addresses_are_distinct_and_inside_the_memory calls :
  let s := session calls in
  NoDup (usedMemoryAddresses s)
  /\ Forall (fun a => 0 <= a < Z.of_nat (length (memory s)))
       (usedMemoryAddresses s).
Proof.
  destruct (wellFormed_session calls) as (_ & _ & H3 & _ & H5 & H6 & _).
  cbv zeta. rewrite H3, Z2Nat.id by lia. split; assumption.
Qed.

(** X12.  After any sequence of calls [cycle] and [instructionCount] are
    equal. *)
Theorem cycle_equals_instructionCount calls :
  cycle (session calls) = instructionCount (session calls).
Proof. apply (wellFormed_session calls). Qed.

(** X13.  After any sequence of calls the [binary] of every record of
    [instructions] is an unsigned 32-bit number. *)
Theorem stored_words_are_32_bit calls :
  Forall (fun ins => 0 <= binary ins < 2 ^ 32) (instructions (session calls)).
Proof. apply (wellFormed_session calls). Qed.
